(** * The Windows plugin loader: [src/plugin/plugin_windows.go]

    A shallow embedding of the cgo preamble ([realpath], [pluginOpen],
    [pluginLookup]) and of the Go functions [open] and [lookup], with the
    registry [plugins], its mutex [pluginsMu] and the [*Plugin] records
    as a shared store.

    Calls of [open] are threads of a small-step machine.  A program
    point is a statement of [open] that reads or writes shared state or
    leaves the package: taking and releasing the mutex, the map lookup
    and insert, the native load, [lastmoduleinit], the lookup and the
    call of the initializer, the assignment of [p.syms], the close of
    [p.loaded] and the receive from it.  The symbol loop touches only
    variables of the call and the loaded image and is one step.  Every
    interleaving of the steps of any number of calls is a schedule, and
    the states of the process are those some schedule reaches.

    The initializer is code of the module.  Its call is a step of the
    calling thread; calls of [open] it makes are calls like any other,
    and since every schedule is considered they may run while the caller
    stands at the call of the initializer.

    The debug output of [fmt.Printf] and of [print_error_message] goes to
    the standard streams and is not part of the model. *)

From Stdlib Require Import ZArith Lia Ascii.
From stdpp Require Import base option list gmap strings.

(** ** Strings *)

(** The double quote of the error messages. *)
Definition dq : string := String (Ascii.ascii_of_nat 34) EmptyString.

(** What C reads of a Go byte slice: the bytes before the first NUL.
    ([copy(cRelName, name)] into a slice one byte longer than [name]). *)
Fixpoint cstring (s : string) : string :=
  match s with
  | EmptyString => EmptyString
  | String c r =>
      if Ascii.eqb c Ascii.zero then EmptyString else String c (cstring r)
  end.

(** [name[i:]] and [name[:i]] on Go strings (byte sequences). *)
Fixpoint drop_str (n : nat) (s : string) : string :=
  match n, s with
  | O, _ => s
  | S n', String _ r => drop_str n' r
  | S _, EmptyString => EmptyString
  end.

Fixpoint take_str (n : nat) (s : string) : string :=
  match n, s with
  | O, _ => EmptyString
  | S n', String c r => String c (take_str n' r)
  | S _, EmptyString => EmptyString
  end.

(** Lines 235-237 of [open]:
    [if len(name) > 3 && name[len(name)-3:] == ".so" { name = name[:len(name)-3] }] *)
Definition strip_so (name : string) : string :=
  let n := String.length name in
  if bool_decide (3 < n) && bool_decide (drop_str (n - 3) name = ".so")
  then take_str (n - 3) name
  else name.

(** ** The operating system, as [open] sees it *)

(** Codes of [winerror.h] that [realpath] switches on. *)
Definition ERROR_FILE_NOT_FOUND : Z := 2.
Definition ERROR_PATH_NOT_FOUND : Z := 3.
Definition ERROR_ACCESS_DENIED : Z := 5.
Definition ERROR_INVALID_DRIVE : Z := 15.

(** Codes of [errno.h] that [realpath] stores. *)
Definition ENOENT : Z := 2.
Definition EIO : Z := 5.
Definition EACCES : Z := 13.
Definition ENOTDIR : Z := 20.
Definition EINVAL : Z := 22.
Definition ENAMETOOLONG : Z := 38.

(** An interface value [interface{}] is two words: a type word ([0] for
    the nil interface) and a data word.  The data word of a plugin symbol
    is either the resolved address itself, or the address of a fresh
    variable that holds the resolved address ([unsafe.Pointer(&p)], the
    representation of a func value). *)
Inductive dataword :=
| DNil
| DAddr (a : Z)
| DCell (a : Z).

Record iface := { ityp : Z; idata : dataword }.

Definition iface_nil : iface := {| ityp := 0; idata := DNil |}.

#[global] Instance dataword_eq_dec : EqDecision dataword.
Proof. solve_decision. Defined.
#[global] Instance iface_eq_dec : EqDecision iface.
Proof. solve_decision. Defined.

(** The calls that leave the package.  The first argument of the
    file-system and linker calls is the time of the call (the number of
    events so far): their answers may change while the process runs.
    [stat] answers [None] on success and the [errno] it stores on
    failure.  [lastmoduleinit] is the runtime's; under [pluginsMu] the
    last module is the one just loaded, with handle [h]. *)
Record World := {
  PATH_MAX : Z;
  GetFullPathNameA : nat -> string -> Z -> Z * string;
  GetLastError : nat -> Z;
  malloc : nat -> Z -> bool;
  stat : nat -> string -> option Z;
  LoadLibrary : nat -> string -> Z;
  GetProcAddress : Z -> string -> Z;
  lastmoduleinit : nat -> Z -> string * list (string * iface) * string
}.

(** ** [realpath] of the cgo preamble *)

(** Where [return_path] points: nowhere, at the caller's [resolved_path],
    or at a buffer of [malloc]. *)
Inductive retptr :=
| RNull
| RCaller
| RMalloc.

#[global] Instance retptr_eq_dec : EqDecision retptr.
Proof. solve_decision. Defined.

(** "Convert MS errors into standard errors": the [switch] on
    [GetLastError()]. *)
Definition ms_errno (code : Z) : Z :=
  if bool_decide (code = ERROR_FILE_NOT_FOUND) then ENOENT
  else if bool_decide (code = ERROR_PATH_NOT_FOUND) then ENOTDIR
  else if bool_decide (code = ERROR_INVALID_DRIVE) then ENOTDIR
  else if bool_decide (code = ERROR_ACCESS_DENIED) then EACCES
  else EIO.

(** The result of [realpath]: the pointer returned, the bytes of the
    buffer it points at, and the value stored in [errno] if any. *)
Record rp_out := { rp_ptr : retptr; rp_buf : string; rp_errno : option Z }.

Definition realpath (w : World) (clk : nat)
    (path : option string) (resolved_path : bool) : rp_out :=
  match path with
  | None => {| rp_ptr := RNull; rp_buf := EmptyString; rp_errno := Some EINVAL |}
  | Some path =>
      let return_path :=
        if resolved_path then RCaller
        else if malloc w clk (PATH_MAX w) then RMalloc else RNull in
      if bool_decide (return_path = RNull)
      then {| rp_ptr := RNull; rp_buf := EmptyString; rp_errno := Some EINVAL |}
      else
        let '(size, buf) := GetFullPathNameA w clk path (PATH_MAX w) in
        (* if (size > PATH_MAX) *)
        let '(return_path, size, buf, errno) :=
          if bool_decide (PATH_MAX w < size)%Z then
            if bool_decide (return_path ≠ RCaller) then
              if malloc w clk size then
                let '(new_size, buf') := GetFullPathNameA w clk path size in
                if bool_decide (size < new_size)%Z
                then (RNull, size, buf', Some ENAMETOOLONG)
                else (RMalloc, new_size, buf', None)
              else (RNull, size, buf, Some EINVAL)
            else (RNull, size, buf, Some ENAMETOOLONG)
          else (return_path, size, buf, None) in
        (* if (!size) *)
        let '(return_path, errno) :=
          if bool_decide (size = 0)%Z
          then (RNull, Some (ms_errno (GetLastError w clk)))
          else (return_path, errno) in
        (* if (return_path) { if (stat(return_path, &stat_buffer)) ... } *)
        if bool_decide (return_path = RNull)
        then {| rp_ptr := RNull; rp_buf := buf; rp_errno := errno |}
        else
          match stat w clk buf with
          | Some e => {| rp_ptr := RNull; rp_buf := buf; rp_errno := Some e |}
          | None => {| rp_ptr := return_path; rp_buf := buf; rp_errno := errno |}
          end
  end.

(** [pluginOpen] and [pluginLookup] of the preamble: they return what the
    linker returns and never assign [*err], so the [cErr] of [open] stays
    nil and [C.GoString(cErr)] is the empty string. *)
Definition pluginOpen (w : World) (clk : nat) (path : string) : Z :=
  LoadLibrary w clk path.

Definition pluginLookup (w : World) (h : Z) (name : string) : Z :=
  GetProcAddress w h name.

Definition GoString_cErr : string := EmptyString.

(** ** The shared store *)

Definition tid := nat.
Definition ptr := nat.

(** A [chan struct{}] that is only ever closed: nil (the zero value of the
    field), made and open, or closed. *)
Inductive chan :=
| ChNil
| ChOpen
| ChClosed.

#[global] Instance chan_eq_dec : EqDecision chan.
Proof. solve_decision. Defined.

(** [type Plugin struct], with the fields [open] and [lookup] use.  A nil
    [syms] map reads like the empty map. *)
Record Plugin := {
  pluginpath : string;
  err : string;
  loaded : chan;
  syms : gmap string iface
}.

Definition set_syms (m : gmap string iface) (P : Plugin) : Plugin :=
  {| pluginpath := pluginpath P; err := err P; loaded := loaded P; syms := m |}.

Definition set_loaded (c : chan) (P : Plugin) : Plugin :=
  {| pluginpath := pluginpath P; err := err P; loaded := c; syms := syms P |}.

(** What a call of [open] returns: [(p, nil)] or [(nil, errors.New(msg))]. *)
Inductive result :=
| Ok (p : ptr)
| Err (msg : string).

(** ** [lookup] *)

(** ["plugin: symbol " + symName + " not found in plugin " + p.pluginpath] *)
Definition not_found (symName pp : string) : string :=
  "plugin: symbol " +:+ symName +:+ " not found in plugin " +:+ pp.

(** [if s := p.syms[symName]; s != nil { return s, nil }]: a missing key
    reads as the nil interface, and an interface is nil when its type
    word is. *)
Definition lookup (P : Plugin) (symName : string) : iface + string :=
  let s := default iface_nil (syms P !! symName) in
  if bool_decide (ityp s ≠ 0%Z) then inl s
  else inr (not_found symName (pluginpath P)).

(** ** The symbol loop of [open] (lines 272-297) *)

Inductive mresult :=
| MOk (updatedSyms : gmap string iface)
| MErr (msg : string)
| MPanic.

(** The key under which an export is stored: a leading ['.'] marks a
    function and is cut off ([symName = symName[1:]]). *)
Definition sym_key (symName : string) : string :=
  match symName with
  | String c r => if bool_decide (c = "."%char) then r else symName
  | EmptyString => EmptyString
  end.

Definition sym_isFunc (symName : string) : bool :=
  match symName with
  | String c _ => bool_decide (c = "."%char)
  | EmptyString => false
  end.

Definition open_prefix (name : string) : string :=
  "plugin.Open(" +:+ dq +:+ name +:+ dq +:+ "): ".

(** The error of the symbol loop; [C.GoString(cErr)] is its last part. *)
Definition could_not_find (name symName : string) : string :=
  open_prefix name +:+ "could not find symbol " +:+ symName +:+ ": " +:+ GoString_cErr.

(** [for symName, sym := range syms]: the list is the export table in the
    order the range visits it (any order: Go does not fix it).
    [symName[0]] of an empty name is an index out of range.
    [delete(syms, symName)] changes only the table being ranged over,
    which is not read again. *)
Fixpoint materialize (w : World) (h : Z) (pp name : string)
    (tbl : list (string * iface)) (updatedSyms : gmap string iface) : mresult :=
  match tbl with
  | [] => MOk updatedSyms
  | (symName, sym) :: rest =>
      match symName with
      | EmptyString => MPanic
      | String _ _ =>
          let isFunc := sym_isFunc symName in
          let symName := sym_key symName in
          let fullName := pp +:+ "." +:+ symName in
          let p := pluginLookup w h (cstring fullName) in
          if bool_decide (p = 0%Z)
          then MErr (could_not_find name symName)
          else
            let sym := {| ityp := ityp sym;
                          idata := if isFunc then DCell p else DAddr p |} in
            materialize w h pp name rest (<[symName := sym]> updatedSyms)
      end
  end.

(** ** Calls of [open] as threads *)

(** Program points of [open]; the arguments are the local variables that
    are live there besides [name] and [filepath], which the thread keeps. *)
Inductive pc :=
| PRealpath                                    (* 206-216 *)
| PLock                                        (* 217 pluginsMu.Lock() *)
| PLookup                                      (* 218 plugins[filepath] *)
| PHitUnlock (p : ptr)                         (* 219 *)
| PCheckErr (p : ptr)                          (* 220-222 *)
| PWait (p : ptr)                              (* 223-224 <-p.loaded *)
| PLoad                                        (* 226-229 C.pluginOpen *)
| PLoadFailUnlock                              (* 230-231 *)
| PLastModuleInit (h : Z)                      (* 235-243 *)
| PInsertFailed (pp errstr : string)           (* 244-247 *)
| PFailedUnlock (errstr : string)              (* 248-249 *)
| PInsertPending (h : Z) (pp : string)
    (tbl : list (string * iface))              (* 253-257 *)
| PMissUnlock (h : Z) (pp : string)
    (tbl : list (string * iface)) (p : ptr)    (* 258 *)
| PInitLookup (h : Z) (pp : string)
    (tbl : list (string * iface)) (p : ptr)    (* 260-265 *)
| PInitCall (h : Z) (pp : string)
    (tbl : list (string * iface)) (p : ptr) (initFuncPC : Z) (* 266-268 *)
| PSymbols (h : Z) (pp : string)
    (tbl : list (string * iface)) (p : ptr)    (* 272-297 *)
| PPublish (h : Z) (pp : string)
    (tbl : list (string * iface)) (p : ptr)
    (updatedSyms : gmap string iface)          (* 298 p.syms = updatedSyms *)
| PClose (h : Z) (pp : string)
    (tbl : list (string * iface)) (p : ptr)    (* 300 close(p.loaded) *)
| PDone (r : result)                           (* returned *)
| PPanic.                                      (* run-time panic *)

(** A call of [open]: its [name] (reassigned on line 236), its
    [filepath] (empty until line 215 assigns it) and where it stands. *)
Record Thread := { tname : string; tfilepath : string; tpc : pc }.

Definition at_pc (th : Thread) (c : pc) : Thread :=
  {| tname := tname th; tfilepath := tfilepath th; tpc := c |}.

(** What a step does, for the trace. *)
Inductive Event :=
| EvCall (name : string)
| EvRealpath (name : string) (r : option string)
| EvLock
| EvUnlock
| EvMapLookup (filepath : string) (r : option ptr)
| EvLoad (filepath : string) (h : Z)
| EvLastModuleInit (h : Z)
| EvInsert (filepath : string) (p : ptr) (h : Z) (pp : string)
    (tbl : list (string * iface)) (errstr : string)
| EvReadErr (p : ptr)
| EvWake (p : ptr)
| EvResolveInit (h : Z) (initFuncPC : Z)
| EvInit (initFuncPC : Z)
| EvSymbols (h : Z)
| EvPublish (p : ptr)
| EvClose (p : ptr).

(** The process: the package variables [plugins] and [pluginsMu] (with
    the thread that holds it), the [Plugin] records by address, the calls
    of [open], and what happened so far, newest first. *)
Record State := {
  plugins : gmap string ptr;
  heap : list Plugin;
  pluginsMu : option tid;
  threads : list Thread;
  trace : list (tid * Event)
}.

Definition init_state : State :=
  {| plugins := ∅; heap := []; pluginsMu := None; threads := []; trace := [] |}.

Definition clock (s : State) : nat := length (trace s).

(** Thread [t] becomes [th] and [ev] is recorded; the rest is given. *)
Definition upd (s : State) (t : tid) (th : Thread) (ev : Event)
    (pl : gmap string ptr) (hp : list Plugin) (m : option tid) : State :=
  {| plugins := pl; heap := hp; pluginsMu := m;
     threads := <[t := th]> (threads s); trace := (t, ev) :: trace s |}.

(** A step that touches neither the registry nor the records. *)
Definition goto (s : State) (t : tid) (th : Thread) (ev : Event) : State :=
  upd s t th ev (plugins s) (heap s) (pluginsMu s).

(** [pluginsMu.Lock()] by [t] (with [Some t]) and [pluginsMu.Unlock()]. *)
Definition goto_mu (s : State) (t : tid) (th : Thread) (ev : Event)
    (m : option tid) : State :=
  upd s t th ev (plugins s) (heap s) m.

Definition realpath_failed (name : string) : string :=
  "plugin.Open(" +:+ dq +:+ name +:+ dq +:+ "): realpath failed".

(** The statement of [open] at which the call [th], the thread [t],
    stands; [None] when it has returned or is blocked (on the mutex or
    on the channel). *)
Definition open_body (w : World) (t : tid) (s : State) (th : Thread) : option State :=
  let name := tname th in
  let filepath := tfilepath th in
  match tpc th with
  | PRealpath =>
      let r := realpath w (clock s) (Some (cstring name)) true in
      if bool_decide (rp_ptr r = RNull)
      then Some (goto s t (at_pc th (PDone (Err (realpath_failed name))))
                   (EvRealpath name None))
      else Some (goto s t {| tname := name; tfilepath := rp_buf r; tpc := PLock |}
                   (EvRealpath name (Some (rp_buf r))))
  | PLock =>
      match pluginsMu s with
      | None => Some (goto_mu s t (at_pc th PLookup) EvLock (Some t))
      | Some _ => None
      end
  | PLookup =>
      match plugins s !! filepath with
      | Some p => Some (goto s t (at_pc th (PHitUnlock p)) (EvMapLookup filepath (Some p)))
      | None => Some (goto s t (at_pc th PLoad) (EvMapLookup filepath None))
      end
  | PHitUnlock p =>
      Some (goto_mu s t (at_pc th (PCheckErr p)) EvUnlock None)
  | PCheckErr p =>
      P ← heap s !! p;
      if bool_decide (err P ≠ EmptyString)
      then Some (goto s t
                   (at_pc th (PDone (Err (open_prefix name +:+ err P +:+ " (previous failure)"))))
                   (EvReadErr p))
      else Some (goto s t (at_pc th (PWait p)) (EvReadErr p))
  | PWait p =>
      P ← heap s !! p;
      if bool_decide (loaded P = ChClosed)
      then Some (goto s t (at_pc th (PDone (Ok p))) (EvWake p))
      else None
  | PLoad =>
      let h := pluginOpen w (clock s) filepath in
      if bool_decide (h = 0%Z)
      then Some (goto s t (at_pc th PLoadFailUnlock) (EvLoad filepath h))
      else Some (goto s t (at_pc th (PLastModuleInit h)) (EvLoad filepath h))
  | PLoadFailUnlock =>
      Some (goto_mu s t
              (at_pc th (PDone (Err (open_prefix name +:+ GoString_cErr +:+ " error"))))
              EvUnlock None)
  | PLastModuleInit h =>
      let name := strip_so name in
      let '(pp, tbl, errstr) := lastmoduleinit w (clock s) h in
      if bool_decide (errstr ≠ EmptyString)
      then Some (goto s t {| tname := name; tfilepath := filepath;
                             tpc := PInsertFailed pp errstr |} (EvLastModuleInit h))
      else Some (goto s t {| tname := name; tfilepath := filepath;
                             tpc := PInsertPending h pp tbl |} (EvLastModuleInit h))
  | PInsertFailed pp errstr =>
      let p := length (heap s) in
      let P := {| pluginpath := pp; err := errstr; loaded := ChNil; syms := ∅ |} in
      Some (upd s t (at_pc th (PFailedUnlock errstr))
              (EvInsert filepath p 0%Z pp [] errstr)
              (<[filepath := p]> (plugins s)) (heap s ++ [P]) (pluginsMu s))
  | PFailedUnlock errstr =>
      Some (goto_mu s t (at_pc th (PDone (Err (open_prefix name +:+ errstr))))
              EvUnlock None)
  | PInsertPending h pp tbl =>
      let p := length (heap s) in
      let P := {| pluginpath := pp; err := EmptyString; loaded := ChOpen; syms := ∅ |} in
      Some (upd s t (at_pc th (PMissUnlock h pp tbl p))
              (EvInsert filepath p h pp tbl EmptyString)
              (<[filepath := p]> (plugins s)) (heap s ++ [P]) (pluginsMu s))
  | PMissUnlock h pp tbl p =>
      Some (goto_mu s t (at_pc th (PInitLookup h pp tbl p)) EvUnlock None)
  | PInitLookup h pp tbl p =>
      let initFuncPC := pluginLookup w h (cstring (pp +:+ ".init")) in
      if bool_decide (initFuncPC ≠ 0%Z)
      then Some (goto s t (at_pc th (PInitCall h pp tbl p initFuncPC))
                   (EvResolveInit h initFuncPC))
      else Some (goto s t (at_pc th (PSymbols h pp tbl p)) (EvResolveInit h initFuncPC))
  | PInitCall h pp tbl p initFuncPC =>
      Some (goto s t (at_pc th (PSymbols h pp tbl p)) (EvInit initFuncPC))
  | PSymbols h pp tbl p =>
      match materialize w h pp name tbl ∅ with
      | MOk updatedSyms =>
          Some (goto s t (at_pc th (PPublish h pp tbl p updatedSyms)) (EvSymbols h))
      | MErr msg => Some (goto s t (at_pc th (PDone (Err msg))) (EvSymbols h))
      | MPanic => Some (goto s t (at_pc th PPanic) (EvSymbols h))
      end
  | PPublish h pp tbl p updatedSyms =>
      P ← heap s !! p;
      Some (upd s t (at_pc th (PClose h pp tbl p)) (EvPublish p)
              (plugins s) (<[p := set_syms updatedSyms P]> (heap s)) (pluginsMu s))
  | PClose h pp tbl p =>
      P ← heap s !! p;
      if bool_decide (loaded P = ChOpen)
      then Some (upd s t (at_pc th (PDone (Ok p))) (EvClose p)
                   (plugins s) (<[p := set_loaded ChClosed P]> (heap s)) (pluginsMu s))
      else Some (goto s t (at_pc th PPanic) (EvClose p))
  | PDone _ => None
  | PPanic => None
  end.

(** One step of the call [t] of [open]. *)
Definition open_step (w : World) (t : tid) (s : State) : option State :=
  th ← threads s !! t; open_body w t s th.

(** A new call [open(name)]: a new thread at the top of the function. *)
Definition spawn (name : string) (s : State) : State :=
  {| plugins := plugins s; heap := heap s; pluginsMu := pluginsMu s;
     threads := threads s ++ [{| tname := name; tfilepath := EmptyString; tpc := PRealpath |}];
     trace := (length (threads s), EvCall name) :: trace s |}.

Inductive action :=
| Call (name : string)
| Run (t : tid).

Definition exec (w : World) (a : action) (s : State) : option State :=
  match a with
  | Call name => Some (spawn name s)
  | Run t => open_step w t s
  end.

Fixpoint run (w : World) (acts : list action) (s : State) : option State :=
  match acts with
  | [] => Some s
  | a :: rest => s' ← exec w a s; run w rest s'
  end.

(** The states of the process: any calls, interleaved in any way. *)
Inductive reachable (w : World) : State -> Prop :=
| reach_init : reachable w init_state
| reach_exec s a s' : reachable w s -> exec w a s = Some s' -> reachable w s'.

(** The call [t] alone, for at most [n] steps, stopping where it cannot move. *)
Fixpoint run_alone (w : World) (t : tid) (n : nat) (s : State) : State :=
  match n with
  | O => s
  | S n' =>
      match open_step w t s with
      | Some s' => run_alone w t n' s'
      | None => s
      end
  end.

(** [open(name)] when no other call moves meanwhile: the new call is the
    thread [length (threads s)], and twelve steps lead from the top of
    the function to its last [return]. *)
Definition open (w : World) (name : string) (s : State) : State :=
  run_alone w (length (threads s)) 12 (spawn name s).

Definition pc_of (s : State) (t : tid) : option pc := tpc <$> threads s !! t.

Definition result_of (s : State) (t : tid) : option result :=
  match pc_of s t with
  | Some (PDone r) => Some r
  | _ => None
  end.

(** ** Vocabulary of the invariants *)

(** Between [pluginsMu.Lock()] and the matching [Unlock()]. *)
Definition in_crit (c : pc) : bool :=
  match c with
  | PLookup | PHitUnlock _ | PLoad | PLoadFailUnlock | PLastModuleInit _
  | PInsertFailed _ _ | PFailedUnlock _ | PInsertPending _ _ _
  | PMissUnlock _ _ _ _ => true
  | _ => false
  end.

(** After [plugins[filepath]] was found nil and before the insert. *)
Definition missed (c : pc) : bool :=
  match c with
  | PLoad | PLastModuleInit _ | PInsertFailed _ _ | PInsertPending _ _ _ => true
  | _ => false
  end.

(** After a native load that succeeded and before the insert. *)
Definition in_mid (c : pc) : bool :=
  match c with
  | PLastModuleInit _ | PInsertFailed _ _ | PInsertPending _ _ _ => true
  | _ => false
  end.

(** The call made the placeholder [p] and has not closed [p.loaded] yet. *)
Definition owner_of (c : pc) : option (Z * string * list (string * iface) * ptr) :=
  match c with
  | PMissUnlock h pp tbl p | PInitLookup h pp tbl p | PInitCall h pp tbl p _
  | PSymbols h pp tbl p | PPublish h pp tbl p _ | PClose h pp tbl p =>
      Some (h, pp, tbl, p)
  | _ => None
  end.

(** The record the call holds in its variable [p]. *)
Definition held_ptr (c : pc) : option ptr :=
  match c with
  | PHitUnlock p | PCheckErr p | PWait p | PDone (Ok p) => Some p
  | _ => snd <$> owner_of c
  end.

Fixpoint count_ev (f : Event -> bool) (tr : list (tid * Event)) : nat :=
  match tr with
  | [] => 0
  | (_, e) :: r => (if f e then 1 else 0) + count_ev f r
  end.

(** Calls of [C.pluginOpen] on [filepath]: all of them, and those that
    returned a handle. *)
Definition is_load (filepath : string) (e : Event) : bool :=
  match e with
  | EvLoad fp _ => bool_decide (fp = filepath)
  | _ => false
  end.

Definition is_load_ok (filepath : string) (e : Event) : bool :=
  match e with
  | EvLoad fp h => bool_decide (fp = filepath) && bool_decide (h ≠ 0%Z)
  | _ => false
  end.

Definition loads (filepath : string) (s : State) : nat :=
  count_ev (is_load filepath) (trace s).

Definition loads_ok (filepath : string) (s : State) : nat :=
  count_ev (is_load_ok filepath) (trace s).

(** The symbol directory [m] has an entry for every export of [tbl]. *)
Definition covers (m : gmap string iface) (tbl : list (string * iface)) : Prop :=
  ∀ symName sym, (symName, sym) ∈ tbl → is_Some (m !! sym_key symName).

(** The linker resolves the export [symName] of the module [h], [pp]. *)
Definition resolves (w : World) (h : Z) (pp symName : string) : Prop :=
  pluginLookup w h (cstring (pp +:+ "." +:+ sym_key symName)) ≠ 0%Z.

(** ** Invariants of the process *)

(** The calls inside the critical section are the one that holds the
    mutex. *)
Definition mutex_inv (s : State) : Prop :=
  (∀ t th, threads s !! t = Some th → (in_crit (tpc th) = true ↔ pluginsMu s = Some t)) ∧
  (∀ t, pluginsMu s = Some t → t < length (threads s)).

(** A call that found no record for its path still finds none: it holds
    the mutex until it has inserted one. *)
Definition miss_inv (s : State) : Prop :=
  ∀ t th, threads s !! t = Some th → missed (tpc th) = true →
    plugins s !! tfilepath th = None.

(** The record a call holds is the record of the registry for its path:
    an entry of the registry never changes. *)
Definition held_inv (s : State) : Prop :=
  ∀ t th p, threads s !! t = Some th → held_ptr (tpc th) = Some p →
    plugins s !! tfilepath th = Some p.

(** The registry points at records that exist. *)
Definition reg_inv (s : State) : Prop :=
  ∀ fp p, plugins s !! fp = Some p → p < length (heap s).

(** The placeholder of a loading call is unpublished until the call
    assigns [p.syms], and then holds what the symbol loop returned. *)
Definition owner_state (w : World) (th : Thread) (P : Plugin) : Prop :=
  match tpc th with
  | PPublish h pp tbl _ u =>
      syms P = ∅ ∧ materialize w h pp (tname th) tbl ∅ = MOk u
  | PClose h pp tbl _ => materialize w h pp (tname th) tbl ∅ = MOk (syms P)
  | _ => syms P = ∅
  end.

Definition owner_inv (w : World) (s : State) : Prop :=
  ∀ t th h pp tbl p, threads s !! t = Some th →
    owner_of (tpc th) = Some (h, pp, tbl, p) →
    (t, EvInsert (tfilepath th) p h pp tbl EmptyString) ∈ trace s ∧
    ∃ P, heap s !! p = Some P ∧ pluginpath P = pp ∧ err P = EmptyString ∧
         loaded P = ChOpen ∧ owner_state w th P.

(** Two loading calls have different placeholders. *)
Definition distinct_inv (s : State) : Prop :=
  ∀ t1 th1 o1 t2 th2 o2, threads s !! t1 = Some th1 → threads s !! t2 = Some th2 →
    owner_of (tpc th1) = Some o1 → owner_of (tpc th2) = Some o2 →
    o1.2 = o2.2 → t1 = t2.

(** The inserts of the trace: of records that exist, one per record. *)
Definition event_inv (s : State) : Prop :=
  (∀ t fp p h pp tbl e, (t, EvInsert fp p h pp tbl e) ∈ trace s → p < length (heap s)) ∧
  (∀ t1 fp1 h1 pp1 tbl1 e1 t2 fp2 h2 pp2 tbl2 e2 p,
     (t1, EvInsert fp1 p h1 pp1 tbl1 e1) ∈ trace s →
     (t2, EvInsert fp2 p h2 pp2 tbl2 e2) ∈ trace s →
     (t1, fp1, h1, pp1, tbl1, e1) = (t2, fp2, h2, pp2, tbl2, e2)).

(** A record is failed ([err] set, no channel, no symbols), or pending
    (channel open, no symbols unless the loading call is between the
    assignment of [p.syms] and the close), or loaded (channel closed);
    its symbols, when it has any, are the result of the whole symbol
    loop over the export table it was made for. *)
Definition record_ok (w : World) (P : Plugin) (h : Z) (tbl : list (string * iface)) : Prop :=
  (err P ≠ EmptyString → loaded P = ChNil ∧ syms P = ∅) ∧
  (err P = EmptyString → loaded P ≠ ChNil) ∧
  ((syms P = ∅ ∧ loaded P ≠ ChClosed) ∨
   ∃ name, materialize w h (pluginpath P) name tbl ∅ = MOk (syms P)).

Definition record_inv (w : World) (s : State) : Prop :=
  ∀ p P, heap s !! p = Some P →
    ∃ t fp h tbl, (t, EvInsert fp p h (pluginpath P) tbl (err P)) ∈ trace s ∧
                  record_ok w P h tbl.

(** The record of a failed load is made with an error text. *)
Definition errstr_inv (s : State) : Prop :=
  ∀ t th pp e, threads s !! t = Some th → tpc th = PInsertFailed pp e → e ≠ EmptyString.

(** A receive from [p.loaded] returned only for a closed channel, and a
    closed channel stays closed; so for the records returned by [open]. *)
Definition wake_inv (s : State) : Prop :=
  ∀ t p, (t, EvWake p) ∈ trace s → ∃ P, heap s !! p = Some P ∧ loaded P = ChClosed.

Definition done_inv (s : State) : Prop :=
  ∀ t th p, threads s !! t = Some th → tpc th = PDone (Ok p) →
    ∃ P, heap s !! p = Some P ∧ loaded P = ChClosed.

(** A successful native load of a path is followed, under the same hold
    of the mutex, by the insert of a record for the path; so it happens
    once per path. *)
Definition mid_on (s : State) (fp : string) : Prop :=
  ∃ t th, threads s !! t = Some th ∧ in_mid (tpc th) = true ∧ tfilepath th = fp.

Definition load_inv (s : State) : Prop :=
  ∀ fp, (loads_ok fp s = 0 ∧ plugins s !! fp = None ∧ ¬ mid_on s fp) ∨
        (loads_ok fp s = 1 ∧ (is_Some (plugins s !! fp) ∨ mid_on s fp)).

(** The call that inserted the placeholder [p] is still loading it, or
    returned it, or returned the error of the symbol loop, or panicked. *)
Definition loader_state (w : World) (th : Thread) (p : ptr) (h : Z) (pp : string)
    (tbl : list (string * iface)) : Prop :=
  owner_of (tpc th) = Some (h, pp, tbl, p) ∨ tpc th = PDone (Ok p) ∨ tpc th = PPanic ∨
  ∃ msg, materialize w h pp (tname th) tbl ∅ = MErr msg ∧ tpc th = PDone (Err msg).

Definition loader_inv (w : World) (s : State) : Prop :=
  ∀ t fp p h pp tbl, (t, EvInsert fp p h pp tbl EmptyString) ∈ trace s →
    ∃ th, threads s !! t = Some th ∧ tfilepath th = fp ∧ loader_state w th p h pp tbl.

(** The invariant of the process. *)
Record Inv (w : World) (s : State) : Prop := {
  inv_mutex : mutex_inv s;
  inv_miss : miss_inv s;
  inv_held : held_inv s;
  inv_reg : reg_inv s;
  inv_errstr : errstr_inv s;
  inv_owner : owner_inv w s;
  inv_distinct : distinct_inv s;
  inv_event : event_inv s;
  inv_record : record_inv w s;
  inv_wake : wake_inv s;
  inv_done : done_inv s;
  inv_loader : loader_inv w s;
  inv_load : load_inv s
}.

(** The call that made a failed record (lines 244-247) and has yet to
    return holds the text it stored in [p.err], which is not empty. *)
Definition failed_inv (s : State) : Prop :=
  ∀ t th e, threads s !! t = Some th → tpc th = PFailedUnlock e →
    e ≠ EmptyString ∧
    ∃ p P, plugins s !! tfilepath th = Some p ∧ heap s !! p = Some P ∧ err P = e.

(** [open] up to the registry lookup: the call resolved [name] to
    [filepath], took the mutex and is about to read [plugins[filepath]]. *)
Definition at_lookup (s : State) (name filepath : string) : State :=
  {| plugins := plugins s; heap := heap s; pluginsMu := Some (length (threads s));
     threads := threads s ++ [{| tname := name; tfilepath := filepath; tpc := PLookup |}];
     trace := (length (threads s), EvLock) ::
              (length (threads s), EvRealpath name (Some filepath)) ::
              (length (threads s), EvCall name) :: trace s |}.

(** ** Worlds for the scenarios *)

(** A machine whose answers do not change with time: paths resolve under
    [C:\plugins\] unless [GetFullPathNameA] is made to answer [full_size];
    every library loads at [handle] and exports [exports]; the runtime
    reports [meta] for it. *)
Fixpoint exports_lookup (exports : list (string * Z)) (name : string) : Z :=
  match exports with
  | [] => 0%Z
  | (n, a) :: r => if bool_decide (n = name) then a else exports_lookup r name
  end.

Definition mk_world (full_size : option Z) (last_error : Z) (stat_errno : option Z)
    (handle : Z) (exports : list (string * Z))
    (meta : string * list (string * iface) * string) : World :=
  {| PATH_MAX := 260;
     GetFullPathNameA := λ _ path _,
       match full_size with
       | Some n => (n, EmptyString)
       | None => (Z.of_nat (String.length ("C:\plugins\" +:+ path)), "C:\plugins\" +:+ path)
       end;
     GetLastError := λ _, last_error;
     malloc := λ _ _, true;
     stat := λ _ _, stat_errno;
     LoadLibrary := λ _ _, handle;
     GetProcAddress := λ _ name, exports_lookup exports name;
     lastmoduleinit := λ _ _, meta |}.

(** The module [math] of the scenario: [Add] is a function (its entry in
    the export table is [.Add]), [Pi] is data. *)
Definition sym_Add : string * iface := (".Add", {| ityp := 7; idata := DNil |}).
Definition sym_Pi : string * iface := ("Pi", {| ityp := 9; idata := DNil |}).

Definition math_exports : list (string * Z) :=
  [("math.Add", 4198400%Z); ("math.Pi", 4202496%Z)].

Definition math_world (tbl : list (string * iface)) : World :=
  mk_world None 0 None 4194304 math_exports ("math", tbl, EmptyString).

(** The same module with an initializer [math.init]. *)
Definition math_init_world : World :=
  mk_world None 0 None 4194304 (("math.init", 4206592%Z) :: math_exports)
    ("math", [sym_Add; sym_Pi], EmptyString).

(** [math.Pi] is declared but not exported by the image. *)
Definition partial_world : World :=
  mk_world None 0 None 4194304 [("math.Add", 4198400%Z)]
    ("math", [sym_Add; sym_Pi], EmptyString).

(** The linker rejects every image. *)
Definition reject_world : World :=
  mk_world None 0 None 0 [] (EmptyString, [], EmptyString).

(** The runtime rejects the module after the image was loaded. *)
Definition badmeta_world : World :=
  mk_world None 0 None 4194304 [] ("math", [], "plugin already loaded").

(** [GetFullPathNameA] fails with the code [last_error]. *)
Definition nopath_world (last_error : Z) : World :=
  mk_world (Some 0%Z) last_error None 4194304 [] ("math", [], EmptyString).

(** The full path does not fit in [PATH_MAX] bytes. *)
Definition longpath_world : World :=
  mk_world (Some 300%Z) 0 None 4194304 [] ("math", [], EmptyString).

Definition runs (w : World) (acts : list action) : State :=
  default init_state (run w acts init_state).

(** ** Vocabulary of the theorems *)

Definition math_tbl : list (string * iface) := [sym_Add; sym_Pi].

(** Two calls of [open("math")] at once: the first loads the module, the
    second finds the placeholder, waits, and is woken by the first. *)
Definition two_calls : list action :=
  [Call "math"; Call "math";
   Run 0; Run 0; Run 0; Run 0; Run 0; Run 0; Run 0;
   Run 1; Run 1; Run 1; Run 1; Run 1;
   Run 0; Run 0; Run 0; Run 0;
   Run 1].

(** After [pluginsMu.Unlock()] on the loading path: the initializer, the
    symbol loop, the publication and the close. *)
Definition after_unlock (c : pc) : bool :=
  match c with
  | PInitLookup _ _ _ _ | PInitCall _ _ _ _ _ | PSymbols _ _ _ _
  | PPublish _ _ _ _ _ | PClose _ _ _ _ => true
  | _ => false
  end.

(** One call of [open("math")] up to the call of the initializer. *)
Definition until_init_call : list action :=
  [Call "math"; Run 0; Run 0; Run 0; Run 0; Run 0; Run 0; Run 0; Run 0].

Definition is_init (e : Event) : bool :=
  match e with
  | EvInit _ => true
  | _ => false
  end.

(** Past the call of [C.pluginOpen]. *)
Definition past_load (c : pc) : bool :=
  match c with
  | PRealpath | PLock | PLookup | PLoad => false
  | _ => true
  end.

(** ** [lastIndexByte] *)

(** Lines 196-203: [for i := len(s) - 1; i >= 0; i--], with [n] the
    number of indices still to visit ([i = n - 1]); [s[i] == c] reads the
    byte at [i]. *)
Fixpoint lastIndexByte_loop (s : string) (c : ascii) (n : nat) : Z :=
  match n with
  | O => (-1)%Z
  | S i =>
      if bool_decide (String.get i s = Some c) then Z.of_nat i
      else lastIndexByte_loop s c i
  end.

Definition lastIndexByte (s : string) (c : ascii) : Z :=
  lastIndexByte_loop s c (String.length s).

(** ** Vocabulary of the further properties *)

(** The entry the symbol loop stores for an export of the table: under
    the export's key, the symbol with its type word and, as data word,
    the resolved address (data) or a cell holding it (function). *)
Definition materialized (w : World) (h : Z) (pp : string) (e : string * iface) : iface :=
  let a := pluginLookup w h (cstring (pp +:+ "." +:+ sym_key e.1)) in
  {| ityp := ityp e.2; idata := if sym_isFunc e.1 then DCell a else DAddr a |}.

(** The keys of [updatedSyms] the loop writes, in the order of the table. *)
Definition keys (tbl : list (string * iface)) : list string := (λ e, sym_key e.1) <$> tbl.


(** The statements of [open] a call still has before it, at most. *)
Definition steps_left (c : pc) : nat :=
  match c with
  | PRealpath => 12
  | PLock => 11
  | PLookup => 10
  | PLoad => 9
  | PLastModuleInit _ => 8
  | PInsertPending _ _ _ => 7
  | PMissUnlock _ _ _ _ => 6
  | PInitLookup _ _ _ _ => 5
  | PInitCall _ _ _ _ _ => 4
  | PSymbols _ _ _ _ => 3
  | PHitUnlock _ => 3
  | PPublish _ _ _ _ _ => 2
  | PCheckErr _ => 2
  | PInsertFailed _ _ => 2
  | PClose _ _ _ _ => 1
  | PWait _ => 1
  | PLoadFailUnlock => 1
  | PFailedUnlock _ => 1
  | PDone _ => 0
  | PPanic => 0
  end.

(** A call that cannot move: it waits for the mutex another call holds,
    or for the channel of a pending record of the registry, or it has
    returned, or it has panicked. *)
Definition blocked (s : State) (t : tid) (th : Thread) : Prop :=
  (tpc th = PLock ∧ ∃ t', pluginsMu s = Some t' ∧ t' ≠ t) ∨
  (∃ p P, tpc th = PWait p ∧ plugins s !! tfilepath th = Some p ∧
          heap s !! p = Some P ∧ err P = EmptyString ∧ loaded P = ChOpen) ∨
  (∃ r, tpc th = PDone r) ∨
  tpc th = PPanic.

(** Before line 236 reassigns [name]. *)
Definition before_strip (c : pc) : bool :=
  match c with
  | PRealpath | PLock | PLookup | PHitUnlock _ | PCheckErr _ | PWait _ | PLoad
  | PLoadFailUnlock | PLastModuleInit _ => true
  | _ => false
  end.

(** The errors [open(name0)] returns, one per [errors.New] of the
    function: lines 212, 221, 231, 249 and 286. *)
Definition open_error (name0 msg : string) : Prop :=
  msg = realpath_failed name0 ∨
  (∃ e, e ≠ EmptyString ∧ msg = open_prefix name0 +:+ e +:+ " (previous failure)") ∨
  msg = open_prefix name0 +:+ GoString_cErr +:+ " error" ∨
  (∃ e, e ≠ EmptyString ∧ msg = open_prefix (strip_so name0) +:+ e) ∨
  (∃ k, msg = could_not_find (strip_so name0) k).

(** The calls of an initializer made by the call [t]. *)
Fixpoint inits_by (t : tid) (tr : list (tid * Event)) : nat :=
  match tr with
  | [] => 0
  | (t', e) :: r => (if bool_decide (t' = t) && is_init e then 1 else 0) + inits_by t r
  end.

(** Up to the call of the initializer on line 268. *)
Definition pre_init (c : pc) : bool :=
  match c with
  | PSymbols _ _ _ _ | PPublish _ _ _ _ _ | PClose _ _ _ _ | PDone _ | PPanic => false
  | _ => true
  end.

(** The statements a call still has before its [Unlock], at most. *)
Definition crit_left (c : pc) : nat :=
  match c with
  | PLookup => 5
  | PLoad => 4
  | PLastModuleInit _ => 3
  | PInsertFailed _ _ | PInsertPending _ _ _ => 2
  | PHitUnlock _ | PLoadFailUnlock | PFailedUnlock _ | PMissUnlock _ _ _ _ => 1
  | _ => 0
  end.

(** The events that read or write the map [plugins]. *)
Definition is_map_access (e : Event) : bool :=
  match e with
  | EvMapLookup _ _ | EvInsert _ _ _ _ _ _ => true
  | _ => false
  end.

(** ** Further invariants of the process *)

(** A call waits for the channel of a record without error. *)
Definition waits_inv (s : State) : Prop :=
  ∀ t th p, threads s !! t = Some th → tpc th = PWait p →
    ∃ P, heap s !! p = Some P ∧ err P = EmptyString.

(** The variable [name] of a call of [open(name0)], and its result. *)
Definition name_state (name0 : string) (th : Thread) : Prop :=
  match tpc th with
  | PDone (Err msg) => open_error name0 msg
  | PDone (Ok _) | PPanic => True
  | PFailedUnlock e => tname th = strip_so name0 ∧ e ≠ EmptyString
  | c => tname th = if before_strip c then name0 else strip_so name0
  end.

(** The events of the trace are of calls that exist; a call was made
    once, with one name. *)
Definition call_inv (s : State) : Prop :=
  (∀ t e, (t, e) ∈ trace s → t < length (threads s)) ∧
  (∀ t n1 n2, (t, EvCall n1) ∈ trace s → (t, EvCall n2) ∈ trace s → n1 = n2) ∧
  (∀ t th, threads s !! t = Some th →
     ∃ name0, (t, EvCall name0) ∈ trace s ∧ name_state name0 th).


(** A call calls an initializer at most once, after it inserted the
    placeholder, at the address the linker gave for [pp.init]; and what
    was inserted in the registry is still there. *)
Definition init_inv (w : World) (s : State) : Prop :=
  (∀ t th, threads s !! t = Some th → pre_init (tpc th) = true →
     inits_by t (trace s) = 0) ∧
  (∀ t, inits_by t (trace s) ≤ 1) ∧
  (∀ t a, (t, EvInit a) ∈ trace s →
     ∃ th p h pp tbl, threads s !! t = Some th ∧
       (t, EvInsert (tfilepath th) p h pp tbl EmptyString) ∈ trace s ∧
       a = pluginLookup w h (cstring (pp +:+ ".init")) ∧ a ≠ 0%Z) ∧
  (∀ t th h pp tbl p a, threads s !! t = Some th → tpc th = PInitCall h pp tbl p a →
     a = pluginLookup w h (cstring (pp +:+ ".init")) ∧ a ≠ 0%Z) ∧
  (∀ t fp p h pp tbl e, (t, EvInsert fp p h pp tbl e) ∈ trace s →
     plugins s !! fp = Some p).

(** An entry of the registry was inserted by a call. *)
Definition reg_event_inv (s : State) : Prop :=
  ∀ fp p, plugins s !! fp = Some p →
    ∃ t h pp tbl e, (t, EvInsert fp p h pp tbl e) ∈ trace s.

(** A placeholder is closed, or has symbols, only through the call that
    inserted it, which then stands at the close or has returned it. *)
Definition closed_inv (s : State) : Prop :=
  ∀ t fp p h pp tbl P, (t, EvInsert fp p h pp tbl EmptyString) ∈ trace s →
    heap s !! p = Some P → loaded P = ChClosed ∨ syms P ≠ ∅ →
    ∃ th, threads s !! t = Some th ∧ (tpc th = PDone (Ok p) ∨ tpc th = PClose h pp tbl p).

(** ** Further scenarios *)


(** The directory of the module [math] once loaded, and its record;
    its placeholder. *)
Definition math_syms : gmap string iface :=
  <["Pi" := {| ityp := 9; idata := DAddr 4202496 |}]>
    (<["Add" := {| ityp := 7; idata := DCell 4198400 |}]> ∅).

Definition math_loaded : Plugin :=
  {| pluginpath := "math"; err := EmptyString; loaded := ChClosed; syms := math_syms |}.

Definition math_pending : Plugin :=
  {| pluginpath := "math"; err := EmptyString; loaded := ChOpen; syms := ∅ |}.

(** The first call holds the mutex at the native load; the second has
    resolved its path and stands at [pluginsMu.Lock()]. *)
Definition second_at_lock : list action :=
  [Call "math"; Call "math"; Run 0; Run 0; Run 0; Run 1].

(** A second call of [open("math")] up to [<-p.loaded]. *)
Definition second_call : list action :=
  [Call "math"; Run 1; Run 1; Run 1; Run 1; Run 1].

(** ** [versionOrdinal] of [src/cmd/internal/msvc/env_windows.go] *)

(** A Go string and a [[]byte] are sequences of bytes, numbers below
    [256]; [vo[j]+1] and [vo[j]++] are arithmetic on [byte] and wrap. *)
Definition byte_add1 (b : Z) : Z := ((b + 1) mod 256)%Z.

(** [const maxByte = 1<<8 - 1] *)
Definition maxByte : Z := 255.

(** [vo[i]] for an [int] index [i]: out of range is a run-time panic. *)
Definition vo_index (vo : list Z) (i : Z) : option Z :=
  if bool_decide (0 ≤ i)%Z then vo !! Z.to_nat i else None.

(** One iteration of the loop of lines 41-61 on [vo] and [j], for the
    byte [b = version[i]] (['0'] is [48], ['9'] is [57]); [None] is a
    panic, of line 57 or of an index out of range.  [vo[j] == 1 &&
    vo[j+1] == '0'] reads [vo[j+1]] only when [vo[j]] is [1]. *)
Definition versionOrdinal_step (st : list Z * Z) (b : Z) : option (list Z * Z) :=
  let '(vo, j) := st in
  if bool_decide (48 > b)%Z || bool_decide (b > 57)%Z
  then Some (vo ++ [b], (-1)%Z)
  else
    let '(vo, j) :=
      if bool_decide (j = -1)%Z
      then (vo ++ [0%Z], (Z.of_nat (length (vo ++ [0%Z])) - 1)%Z)
      else (vo, j) in
    c ← vo_index vo j;
    replace ← (if bool_decide (c = 1)%Z
               then d ← vo_index vo (j + 1); Some (bool_decide (d = 48)%Z)
               else Some false);
    if (replace : bool) then Some (<[Z.to_nat (j + 1) := b]> vo, j)
    else if bool_decide (byte_add1 c > maxByte)%Z then None
    else
      let vo := vo ++ [b] in
      c ← vo_index vo j;
      Some (<[Z.to_nat j := byte_add1 c]> vo, j).

Fixpoint versionOrdinal_loop (version : list Z) (st : list Z * Z) : option (list Z * Z) :=
  match version with
  | [] => Some st
  | b :: rest => st' ← versionOrdinal_step st b; versionOrdinal_loop rest st'
  end.

(** [vo := make([]byte, 0, len(version)+8); j := -1; for ...; return string(vo)] *)
Definition versionOrdinal (version : list Z) : option (list Z) :=
  fst <$> versionOrdinal_loop version ([], (-1)%Z).

(** The loop variables are in step: [j] is [-1] or the index of the
    count byte of the number being read, and the number has a digit
    unless the count is still [0]. *)
Definition vo_ok (st : list Z * Z) : Prop :=
  st.2 = (-1)%Z ∨
  ((0 ≤ st.2)%Z ∧ Z.to_nat st.2 < length st.1 ∧
   (Z.to_nat st.2 + 1 < length st.1 ∨ st.1 !! Z.to_nat st.2 = Some 0%Z)).

(** The loop variables with [pre] written before [vo]. *)
Definition vo_shift (pre : list Z) (st : list Z * Z) : list Z * Z :=
  (pre ++ st.1, if bool_decide (st.2 = -1)%Z then (-1)%Z else (st.2 + Z.of_nat (length pre))%Z).

(** The bytes ['0'] to ['9']. *)
Definition is_digit (b : Z) : Prop := (48 ≤ b ≤ 57)%Z.

(** ** [compareVersion] and the choice of [getWindowsSDK] *)

(** [v1 > v2] on Go strings: the bytes are compared in order, and a
    string is greater than its proper prefixes. *)
Fixpoint bytes_gt (a b : list Z) : bool :=
  match a, b with
  | [], _ => false
  | _ :: _, [] => true
  | x :: a', y :: b' =>
      if bool_decide (x > y)%Z then true
      else if bool_decide (x < y)%Z then false
      else bytes_gt a' b'
  end.

(** [strings.TrimPrefix(s, prefix)] *)
Definition TrimPrefix (s prefix : list Z) : list Z :=
  if bool_decide (take (length prefix) s = prefix) then drop (length prefix) s else s.

(** The string whose ordinal [compareVersion] compares; ["v"] is the
    byte [118].  [TrimSpace] is [strings.TrimSpace]. *)
Definition version_key (TrimSpace : list Z → list Z) (v : list Z) : option (list Z) :=
  versionOrdinal (TrimSpace (TrimPrefix v [118%Z])).

(** [compareVersion] (lines 97-106); [None] is a panic of
    [versionOrdinal]. *)
Definition compareVersion (TrimSpace : list Z → list Z) (v1 v2 : list Z) : option Z :=
  let v1 := TrimPrefix v1 [118%Z] in
  let v2 := TrimPrefix v2 [118%Z] in
  v1 ← versionOrdinal (TrimSpace v1);
  v2 ← versionOrdinal (TrimSpace v2);
  if bytes_gt v1 v2 then Some (-1)%Z else Some 1%Z.

(** The loop of lines 142-151 of [getWindowsSDK] over the keys of
    [sdkDirs], in the order the range visits them. *)
Fixpoint largestVersion_loop (TrimSpace : list Z → list Z)
    (versions : list (list Z)) (largestVersion : list Z) : option (list Z) :=
  match versions with
  | [] => Some largestVersion
  | version :: rest =>
      if bool_decide (largestVersion = [])
      then largestVersion_loop TrimSpace rest version
      else
        c ← compareVersion TrimSpace largestVersion version;
        if bool_decide (c = 1%Z)
        then largestVersion_loop TrimSpace rest version
        else largestVersion_loop TrimSpace rest largestVersion
  end.

(** ** The caches of [MSVCEnvironment] *)

(** [type winSdkVersion struct] and [type MSVCEnvironment struct].  A nil
    [*winSdkVersion] and a nil map are [None]; a nil slice is the empty
    list. *)
Record winSdkVersion := { path : string; version : string }.

Record MSVCEnvironment := {
  command : string;
  rootPath : string;
  executablePath : string;
  windowsSdk : option winSdkVersion;
  includes : list string;
  libs : list string;
  libpath : list string;
  commands : option (gmap string string)
}.

Definition set_libpath (l : list string) (msvc : MSVCEnvironment) : MSVCEnvironment :=
  {| command := command msvc; rootPath := rootPath msvc;
     executablePath := executablePath msvc; windowsSdk := windowsSdk msvc;
     includes := includes msvc; libs := libs msvc; libpath := l;
     commands := commands msvc |}.

Definition set_commands (m : gmap string string) (msvc : MSVCEnvironment) : MSVCEnvironment :=
  {| command := command msvc; rootPath := rootPath msvc;
     executablePath := executablePath msvc; windowsSdk := windowsSdk msvc;
     includes := includes msvc; libs := libs msvc; libpath := libpath msvc;
     commands := Some m |}.

(** [LocateLibPaths] (lines 254-263): the paths returned (the error is
    always nil) and the receiver after the call.
    [fmt.Sprintf("%s\\ATLMFC\\lib\\%s", msvc.rootPath, arch)] writes the
    two strings around the literal text. *)
Definition LocateLibPaths (msvc : MSVCEnvironment) (arch : string)
    : list string * MSVCEnvironment :=
  if bool_decide (1 < length (libpath msvc)) then (libpath msvc, msvc)
  else
    let libs := [] in
    let libs := libs ++ [rootPath msvc +:+ "\ATLMFC\lib\" +:+ arch] in
    let libs := libs ++ [rootPath msvc +:+ "\lib\" +:+ arch] in
    (libs, set_libpath libs msvc).

(** [GetMSVCCommand] (lines 265-277).  [trim] is [strings.TrimSpace]
    followed by [strings.Trim] of the double quotes, and [stat_fails]
    says whether [os.Stat] returns an error for a path now.  An
    assignment to an entry of a nil map panics: [None]. *)
Definition GetMSVCCommand (trim : string → string) (stat_fails : string → bool)
    (msvc : MSVCEnvironment) (command : string) : option (string * MSVCEnvironment) :=
  let command := trim command in
  match commands msvc ≫= (λ m, m !! command) with
  | None =>
      m ← commands msvc;
      if stat_fails command
      then Some (executablePath msvc +:+ "\" +:+ command,
                 set_commands (<[command := executablePath msvc +:+ "\" +:+ command]> m) msvc)
      else Some (command, set_commands (<[command := command]> m) msvc)
  | Some cmd => Some (cmd, msvc)
  end.

(** An environment with an empty map of commands. *)
Definition vc_env : MSVCEnvironment :=
  {| command := "C:\VC\bin\cl.exe"; rootPath := "C:\VC"; executablePath := "C:\VC\bin";
     windowsSdk := None; includes := []; libs := []; libpath := [];
     commands := Some ∅ |}.

#[global] Arguments realpath : simpl never.
#[global] Arguments run_alone : simpl never.
#[global] Arguments strip_so : simpl never.
#[global] Arguments cstring : simpl never.
#[global] Arguments open_prefix : simpl never.
#[global] Arguments realpath_failed : simpl never.

(** * Proofs *)

(** ** The symbol loop *)

Lemma materialize_ok w h pp name tbl u m :
  materialize w h pp name tbl u = MOk m →
  covers m tbl ∧ (∀ k, is_Some (u !! k) → is_Some (m !! k)) ∧
  (∀ symName sym, (symName, sym) ∈ tbl → symName ≠ EmptyString ∧ resolves w h pp symName).
Proof.
  revert u. induction tbl as [|[n v] rest IH]; intros u H; simpl in H.
  - injection H as <-.
    split; [|split]; [intros ? ? Hin; inversion Hin | auto | intros ? ? Hin; inversion Hin].
  - destruct n as [|c r]; [discriminate|].
    case_bool_decide as Hp; [discriminate|].
    apply IH in H as (Hc & Hk & Hr).
    split; [|split].
    + intros n' v' Hin. apply elem_of_cons in Hin as [Heq|Hin]; [|eauto].
      injection Heq as -> ->. apply Hk. rewrite lookup_insert_eq. eauto.
    + intros k Hs. apply Hk. destruct (decide (sym_key (String c r) = k)) as [->|Hne].
      * rewrite lookup_insert_eq. eauto.
      * rewrite lookup_insert_ne; auto.
    + intros n' v' Hin. apply elem_of_cons in Hin as [Heq|Hin]; [|eauto].
      injection Heq as -> ->. split; [discriminate|exact Hp].
Qed.

Lemma materialize_unresolved w h pp name tbl u symName sym :
  (symName, sym) ∈ tbl → ¬ resolves w h pp symName →
  ∀ m, materialize w h pp name tbl u ≠ MOk m.
Proof.
  intros Hin Hnr m Hm. apply materialize_ok in Hm as (_ & _ & Hr).
  destruct (Hr _ _ Hin) as [_ ?]. contradiction.
Qed.

Lemma materialize_total w h pp name tbl u :
  (∀ symName sym, (symName, sym) ∈ tbl → symName ≠ EmptyString) →
  (∃ m, materialize w h pp name tbl u = MOk m) ∨
  (∃ symName sym, (symName, sym) ∈ tbl ∧ ¬ resolves w h pp symName ∧
     materialize w h pp name tbl u = MErr (could_not_find name (sym_key symName))).
Proof.
  revert u. induction tbl as [|[n v] rest IH]; intros u Hne; simpl.
  - left. eauto.
  - destruct n as [|c r]; [exfalso; eapply Hne; [left|reflexivity]|].
    case_bool_decide as Hp.
    + right. exists (String c r), v. split; [left|]. split; [|reflexivity].
      unfold resolves. intros Hr. apply Hr. exact Hp.
    + match goal with
      | |- context [materialize _ _ _ _ rest ?u'] =>
          destruct (IH u') as [Hok|(n' & v' & Hin & Hnr & Heq)]
      end.
      * intros n' v' Hin. eapply Hne. right. exact Hin.
      * left. exact Hok.
      * right. exists n', v'. split; [right; exact Hin|]. split; [exact Hnr|exact Heq].
Qed.

Lemma materialize_err w h pp name tbl u msg :
  materialize w h pp name tbl u = MErr msg →
  ∃ symName sym, (symName, sym) ∈ tbl ∧ ¬ resolves w h pp symName ∧
                 msg = could_not_find name (sym_key symName).
Proof.
  revert u. induction tbl as [|[n v] rest IH]; intros u H; simpl in H; [done|].
  destruct n as [|c r]; [discriminate|].
  case_bool_decide as Hp.
  - injection H as <-. exists (String c r), v. split; [by left|]. split; [|done].
    intros Hr. by apply Hr.
  - destruct (IH _ H) as (n' & v' & Hin & Hnr & ->).
    exists n', v'. split; [by right|done].
Qed.

(** ** The suffix of [name] *)

Lemma length_append_str (a b : string) :
  String.length (a +:+ b) = String.length a + String.length b.
Proof. induction a as [|c a IH]; simpl; [done|]. by rewrite IH. Qed.





Lemma annotation_differs (a e : string) : a +:+ e ≠ a +:+ e +:+ " (previous failure)".
Proof.
  intros H. apply (f_equal String.length) in H.
  rewrite !length_append_str in H. simpl in H. lia.
Qed.


(** ** [realpath] *)

Lemma ms_errno_classes code :
  ms_errno code ∈ [ENOENT; ENOTDIR; EACCES; EIO] ∧
  (code = ERROR_FILE_NOT_FOUND → ms_errno code = ENOENT) ∧
  (code = ERROR_PATH_NOT_FOUND ∨ code = ERROR_INVALID_DRIVE → ms_errno code = ENOTDIR) ∧
  (code = ERROR_ACCESS_DENIED → ms_errno code = EACCES) ∧
  (code ∉ [ERROR_FILE_NOT_FOUND; ERROR_PATH_NOT_FOUND; ERROR_INVALID_DRIVE;
           ERROR_ACCESS_DENIED] → ms_errno code = EIO).
Proof.
  unfold ms_errno. repeat split.
  - repeat case_bool_decide; set_solver.
  - intros ->. done.
  - intros [->| ->]; done.
  - intros ->. done.
  - intros Hn. repeat case_bool_decide; try done; exfalso; apply Hn; set_solver.
Qed.

Lemma realpath_no_full_path w clk path :
  (GetFullPathNameA w clk path (PATH_MAX w)).1 = 0%Z →
  rp_ptr (realpath w clk (Some path) true) = RNull ∧
  rp_errno (realpath w clk (Some path) true) = Some (ms_errno (GetLastError w clk)).
Proof.
  intros H. unfold realpath. simpl.
  destruct (GetFullPathNameA w clk path (PATH_MAX w)) as [size buf]. simpl in H. subst size.
  case_bool_decide; simpl; done.
Qed.

Lemma realpath_long_path w clk path :
  (PATH_MAX w < (GetFullPathNameA w clk path (PATH_MAX w)).1)%Z →
  (0 ≤ PATH_MAX w)%Z →
  rp_ptr (realpath w clk (Some path) true) = RNull ∧
  rp_errno (realpath w clk (Some path) true) = Some ENAMETOOLONG.
Proof.
  intros H H0. unfold realpath. simpl.
  destruct (GetFullPathNameA w clk path (PATH_MAX w)) as [size buf]. simpl in H.
  rewrite bool_decide_eq_true_2 by done. simpl.
  rewrite bool_decide_eq_false_2 by lia. simpl. done.
Qed.

Lemma realpath_stat_fails w clk path e :
  (0 < (GetFullPathNameA w clk path (PATH_MAX w)).1 ≤ PATH_MAX w)%Z →
  stat w clk (GetFullPathNameA w clk path (PATH_MAX w)).2 = Some e →
  rp_ptr (realpath w clk (Some path) true) = RNull ∧
  rp_errno (realpath w clk (Some path) true) = Some e.
Proof.
  intros H Hs. unfold realpath. simpl.
  destruct (GetFullPathNameA w clk path (PATH_MAX w)) as [size buf]. simpl in H, Hs.
  rewrite bool_decide_eq_false_2 by lia. simpl.
  rewrite bool_decide_eq_false_2 by lia. simpl. by rewrite Hs.
Qed.

(** ** Steps of a call *)

(** Case analysis on the step [H : open_step w t s = Some s']: one goal per
    statement of [open] and per branch it takes, with [s'] replaced by
    the state the step leads to. *)
Ltac step_inv H :=
  unfold open_step, open_body in H;
  let Hth := fresh "Hth" in
  let name := fresh "name" in let fp := fresh "fp" in let c := fresh "c" in
  match type of H with
  | (?o ≫= _) = _ => destruct o as [[name fp c]|] eqn:Hth; simpl in H; [|discriminate]
  end;
  destruct c; simpl in H;
  repeat match type of H with
  | (?o ≫= _) = _ =>
      let HP := fresh "HP" in destruct o as [?P|] eqn:HP; simpl in H; [|discriminate]
  | (if bool_decide ?P then _ else _) = _ =>
      let HB := fresh "HB" in destruct (bool_decide_reflect P) as [HB|HB]; simpl in H
  | (match ?x with Some _ => _ | None => _ end) = _ =>
      let HO := fresh "HO" in destruct x eqn:HO; simpl in H
  | (match ?x with MOk _ => _ | MErr _ => _ | MPanic => _ end) = _ =>
      let HMat := fresh "HMat" in destruct x eqn:HMat; simpl in H
  | (match ?x with (_, _) => _ end) = _ =>
      let HL := fresh "HL" in destruct x as [[?pp ?tbl] ?errstr] eqn:HL; simpl in H
  end;
  try discriminate;
  injection H as <-.

Lemma lookup_thread_upd (l : list Thread) t th' t' th :
  t < length l →
  <[t:=th']> l !! t' = Some th → (t' = t ∧ th = th') ∨ (t' ≠ t ∧ l !! t' = Some th).
Proof.
  intros Hlt H. destruct (decide (t' = t)) as [->|Hne].
  - rewrite list_lookup_insert_eq in H by done. left. split; congruence.
  - rewrite list_lookup_insert_ne in H by congruence. right. done.
Qed.

(** After a step of [t], a thread is [t], with its new state, or another
    thread, unchanged. *)
Ltac thread_cases H Hth :=
  apply lookup_thread_upd in H; [|by eapply lookup_lt_Some];
  let Hne := fresh "Hne" in
  destruct H as [[-> ->]|[Hne H]].

Lemma lookup_snoc_Some {A} (l : list A) (x y : A) (i : nat) :
  (l ++ [x]) !! i = Some y → l !! i = Some y ∨ (i = length l ∧ y = x).
Proof.
  intros H. apply lookup_app_Some in H as [H|[Hge H]]; [by left|right].
  destruct (i - length l) eqn:E; simpl in H; [|done].
  split; [lia|congruence].
Qed.

Lemma missed_crit c : missed c = true → in_crit c = true.
Proof. by destruct c. Qed.

Lemma mid_missed c : in_mid c = true → missed c = true.
Proof. by destruct c. Qed.

Lemma run_alone_S w t n s :
  run_alone w t (S n) s =
  match open_step w t s with Some s' => run_alone w t n s' | None => s end.
Proof. done. Qed.

(** ** Each invariant is kept by a step *)

Lemma mutex_inv_step w t s s' : mutex_inv s → open_step w t s = Some s' → mutex_inv s'.
Proof.
  intros [Hm Hlt] H. split.
  - intros t' th' H'. step_inv H; simpl in *.
    all: pose proof (Hm _ _ Hth) as Hme; simpl in Hme.
    all: thread_cases H' Hth; simpl.
    all: try (specialize (Hm _ _ H')).
    all: try tauto.
    all: intuition congruence.
  - intros t' H'. step_inv H; simpl in *; rewrite length_insert; auto.
    all: try discriminate.
    all: injection H' as <-; by eapply lookup_lt_Some.
Qed.

Lemma mutex_excl s t1 th1 t2 th2 :
  mutex_inv s → threads s !! t1 = Some th1 → threads s !! t2 = Some th2 →
  in_crit (tpc th1) = true → in_crit (tpc th2) = true → t1 = t2.
Proof.
  intros [Hm _] H1 H2 C1 C2. apply (Hm _ _ H1) in C1. apply (Hm _ _ H2) in C2. congruence.
Qed.

Lemma miss_inv_step w t s s' :
  mutex_inv s → miss_inv s → open_step w t s = Some s' → miss_inv s'.
Proof.
  intros Hmu Hmi H t' th' H' Hc. step_inv H; simpl in *.
  all: pose proof (Hmi _ _ Hth) as Hme; simpl in Hme.
  all: thread_cases H' Hth; simpl in *; try done; auto.
  all: try (by eapply Hmi).
  all: exfalso; apply Hne.
  all: eapply (mutex_excl s); eauto using missed_crit.
Qed.

Lemma held_inv_step w t s s' :
  mutex_inv s → miss_inv s → held_inv s → open_step w t s = Some s' → held_inv s'.
Proof.
  intros Hmu Hmi Hh H t' th' p' H' Hc. step_inv H; simpl in *.
  all: pose proof (Hmi _ _ Hth) as Hme; simpl in Hme.
  all: pose proof (λ p, Hh _ _ p Hth) as Hhe; simpl in Hhe.
  all: thread_cases H' Hth; simpl in *; try done; eauto.
  all: try (by eapply Hh).
  all: try (injection Hc as <-; eauto; try apply lookup_insert_eq).
  all: try (specialize (Hh _ _ _ H' Hc); specialize (Hme eq_refl);
            rewrite lookup_insert_ne; [done|congruence]).
Qed.

Lemma reg_inv_step w t s s' :
  reg_inv s → open_step w t s = Some s' → reg_inv s'.
Proof.
  intros Hr H fp' p' H'. step_inv H; simpl in *; try (by eapply Hr).
  all: try (rewrite length_insert; eauto).
  all: rewrite length_app; simpl.
  all: destruct (decide (fp = fp')) as [->|Hne];
    [rewrite lookup_insert_eq in H'; injection H' as <-; lia
    |rewrite lookup_insert_ne in H' by done; apply Hr in H'; lia].
Qed.

Lemma errstr_inv_step w t s s' :
  errstr_inv s → open_step w t s = Some s' → errstr_inv s'.
Proof.
  intros He H t' th' pp' e' H' Hc. step_inv H; simpl in *.
  all: thread_cases H' Hth; simpl in *; try done.
  all: try (by eapply He).
  congruence.
Qed.

Lemma owner_step_same w t s s' th :
  threads s !! t = Some th → open_step w t s = Some s' →
  ∀ th' o', threads s' !! t = Some th' → owner_of (tpc th') = Some o' →
  owner_of (tpc th) = Some o' ∨ (o'.2 = length (heap s) ∧ owner_of (tpc th) = None).
Proof.
  intros Hth0 H th' o' H' Ho. step_inv H; simpl in *.
  all: rewrite list_lookup_insert_eq in H' by (by eapply lookup_lt_Some).
  all: injection H' as <-; simpl in *; try done.
  all: injection Hth0 as <-; simpl; auto.
  injection Ho as <-. right. done.
Qed.

Lemma distinct_inv_step w t s s' :
  owner_inv w s → distinct_inv s → open_step w t s = Some s' → distinct_inv s'.
Proof.
  intros Ho Hd H t1 th1 o1 t2 th2 o2 H1 H2 O1 O2 Heq.
  destruct (decide (t1 = t2)) as [|Hne]; [done|exfalso].
  assert (Hthr: ∀ t', t' ≠ t → threads s' !! t' = threads s !! t').
  { intros t' Hn. clear -H Hn. step_inv H; simpl.
    all: by rewrite list_lookup_insert_ne. }
  assert (∃ th, threads s !! t = Some th) as [th Hth].
  { clear -H. unfold open_step in H. destruct (threads s !! t); [eauto|done]. }
  assert (Hlt: ∀ t' th' o', threads s !! t' = Some th' → owner_of (tpc th') = Some o' →
             o'.2 < length (heap s)).
  { intros t' th' [[[h pp] tbl] p] Ht' Ho'. destruct (Ho _ _ _ _ _ _ Ht' Ho') as (_ & P & HP & _).
    simpl. by eapply lookup_lt_Some. }
  destruct (decide (t1 = t)) as [->|Hn1]; destruct (decide (t2 = t)) as [->|Hn2]; try done.
  - rewrite Hthr in H2 by done.
    destruct (owner_step_same _ _ _ _ _ Hth H _ _ H1 O1) as [Hs|[Hs _]].
    + apply Hne. eapply Hd; eauto.
    + specialize (Hlt _ _ _ H2 O2). lia.
  - rewrite Hthr in H1 by done.
    destruct (owner_step_same _ _ _ _ _ Hth H _ _ H2 O2) as [Hs|[Hs _]].
    + apply Hne. eapply Hd; eauto.
    + specialize (Hlt _ _ _ H1 O1). lia.
  - rewrite Hthr in H1, H2 by done. apply Hne. eapply Hd; eauto.
Qed.

Lemma event_inv_step w t s s' :
  event_inv s → open_step w t s = Some s' → event_inv s'.
Proof.
  intros [Hb Hu] H. split.
  - intros t' fp' p' h' pp' tbl' e' Hin. step_inv H; simpl in *.
    all: apply elem_of_cons in Hin as [Heq|Hin]; try discriminate.
    all: try rewrite length_insert; try rewrite length_app; simpl.
    all: try (injection Heq as -> -> -> -> -> -> ->); try lia.
    all: try (by eapply Hb).
    all: apply Hb in Hin; lia.
  - intros t1 fp1 h1 pp1 tbl1 e1 t2 fp2 h2 pp2 tbl2 e2 p' H1 H2. step_inv H; simpl in *.
    all: apply elem_of_cons in H1 as [E1|H1]; try discriminate.
    all: apply elem_of_cons in H2 as [E2|H2]; try discriminate.
    all: try (by eapply Hu).
    all: try congruence.
    all: try (injection E1 as -> -> -> -> -> -> ->; apply Hb in H2; lia).
    all: try (injection E2 as -> -> -> -> -> -> ->; apply Hb in H1; lia).
Qed.

Lemma owner_inv_step w t s s' :
  owner_inv w s → distinct_inv s → open_step w t s = Some s' → owner_inv w s'.
Proof.
  intros Ho Hd H t' th' h' pp' tbl' p' H' Hc.
  step_inv H; simpl in *.
  all: pose proof (λ h pp tbl p, Ho _ _ h pp tbl p Hth) as Hoe; simpl in Hoe.
  all: thread_cases H' Hth; simpl in *; try done.
  all: try (injection Hc as <- <- <- <-).
  (* the stepping call itself *)
  all: try (destruct (Hoe _ _ _ _ eq_refl) as (Hin & P' & HP' & Hpp & Herr & Hld & Hst);
            unfold owner_state in *; simpl in *;
            split; [by right|]; try (by exists P'); simplify_eq).
  (* another call *)
  all: try (destruct (Ho _ _ _ _ _ _ H' Hc) as (Hin & P' & HP' & Hrest);
            split; [by right|]; exists P'; split; [|done]; try done).
  all: try (rewrite lookup_app_l; [done|by eapply lookup_lt_Some]).
  - split; [by left|]. eexists. split; [apply list_lookup_middle; done|].
    unfold owner_state; simpl; done.
  - exists (set_syms updatedSyms P). split; [|destruct Hst; repeat split; simpl; auto].
    apply list_lookup_insert_eq. by eapply lookup_lt_Some.
  - rewrite list_lookup_insert_ne; [done|]. intros ->. apply Hne.
    eapply (Hd t' _ (_, _, _, _) t _ (_, _, _, _)); eauto; done.
  - rewrite list_lookup_insert_ne; [done|]. intros ->. apply Hne.
    eapply (Hd t' _ (_, _, _, _) t _ (_, _, _, _)); eauto; done.
Qed.

Lemma record_inv_step w t s s' :
  errstr_inv s → owner_inv w s → event_inv s → record_inv w s →
  open_step w t s = Some s' → record_inv w s'.
Proof.
  intros He Ho [Hb Hu] Hr H p' P' H'.
  step_inv H; simpl in *.
  all: pose proof (λ h pp tbl p, Ho _ _ h pp tbl p Hth) as Hoe; simpl in Hoe.
  all: pose proof (λ pp e, He _ _ pp e Hth) as Hee; simpl in Hee.
  (* heap unchanged *)
  all: try (destruct (Hr _ _ H') as (t1 & fp1 & h1 & tbl1 & Hin & Hok);
            exists t1, fp1, h1, tbl1; split; [by right|done]).
  - (* the record of a failed load is appended *)
    apply lookup_snoc_Some in H' as [H'|[-> ->]].
    + destruct (Hr _ _ H') as (t1 & fp1 & h1 & tbl1 & Hin & Hok).
      exists t1, fp1, h1, tbl1; split; [by right|done].
    + exists t, fp, 0%Z, []. split; [by left|].
      specialize (Hee _ _ eq_refl).
      split; [|split]; simpl; [done|done|by left].
  - (* the placeholder is appended *)
    apply lookup_snoc_Some in H' as [H'|[-> ->]].
    + destruct (Hr _ _ H') as (t1 & fp1 & h1 & tbl1 & Hin & Hok).
      exists t1, fp1, h1, tbl1; split; [by right|done].
    + exists t, fp, h, tbl. split; [by left|].
      split; [|split]; simpl; [done|done|by left].
  - (* p.syms = updatedSyms *)
    destruct (decide (p' = p)) as [->|Hne].
    + rewrite list_lookup_insert_eq in H' by (by eapply lookup_lt_Some).
      injection H' as <-.
      destruct (Hoe _ _ _ _ eq_refl) as (Hin & P0 & HP0 & Hpp & Herr & Hld & Hst).
      unfold owner_state in Hst; simpl in Hst. destruct Hst as [Hs0 Hmat]. simplify_eq.
      exists t, fp, h, tbl. simpl. rewrite Herr. split; [by right|].
      split; [|split]; simpl; [congruence|congruence|right; eauto].
    + rewrite list_lookup_insert_ne in H' by done.
      destruct (Hr _ _ H') as (t1 & fp1 & h1 & tbl1 & Hin & Hok).
      exists t1, fp1, h1, tbl1; split; [by right|done].
  - (* close(p.loaded) *)
    destruct (decide (p' = p)) as [->|Hne].
    + rewrite list_lookup_insert_eq in H' by (by eapply lookup_lt_Some).
      injection H' as <-.
      destruct (Hoe _ _ _ _ eq_refl) as (Hin & P0 & HP0 & Hpp & Herr & Hld & Hst).
      unfold owner_state in Hst; simpl in Hst. simplify_eq.
      exists t, fp, h, tbl. simpl. rewrite Herr. split; [by right|].
      split; [|split]; simpl; [congruence|congruence|right; eauto].
    + rewrite list_lookup_insert_ne in H' by done.
      destruct (Hr _ _ H') as (t1 & fp1 & h1 & tbl1 & Hin & Hok).
      exists t1, fp1, h1, tbl1; split; [by right|done].
Qed.

Lemma wake_inv_step w t s s' :
  owner_inv w s → wake_inv s → open_step w t s = Some s' → wake_inv s'.
Proof.
  intros Ho Hw H t' p' Hin.
  step_inv H; simpl in *.
  all: pose proof (λ h pp tbl p, Ho _ _ h pp tbl p Hth) as Hoe; simpl in Hoe.
  all: apply elem_of_cons in Hin as [Heq|Hin]; try discriminate.
  all: try (by eapply Hw).
  all: try (injection Heq as -> ->; eauto).
  all: destruct (Hw _ _ Hin) as (P' & HP' & Hc).
  all: try (exists P'; split; [|done]; apply lookup_app_l_Some; done).
  all: destruct (Hoe _ _ _ _ eq_refl) as (_ & P0 & HP0 & _ & _ & Hld & _).
  all: exists P'; split; [|done].
  all: rewrite list_lookup_insert_ne; [done|]; intros ->; congruence.
Qed.

Lemma done_inv_step w t s s' :
  owner_inv w s → done_inv s → open_step w t s = Some s' → done_inv s'.
Proof.
  intros Ho Hw H t' th' p' H' Hc.
  step_inv H; simpl in *.
  all: pose proof (λ h pp tbl p, Ho _ _ h pp tbl p Hth) as Hoe; simpl in Hoe.
  all: thread_cases H' Hth; simpl in *; try done.
  all: try (by eapply Hw).
  all: try (injection Hc as <-; eauto).
  all: try (destruct (Hw _ _ _ H' Hc) as (P' & HP' & Hcl)).
  all: try (exists P'; split; [|done]; apply lookup_app_l_Some; done).
  all: try (destruct (Hoe _ _ _ _ eq_refl) as (_ & P0 & HP0 & _ & _ & Hld & _);
            exists P'; split; [|done];
            rewrite list_lookup_insert_ne; [done|]; intros ->; congruence).
  eexists. split; [apply list_lookup_insert_eq; by eapply lookup_lt_Some|done].
Qed.

Lemma loader_inv_step w t s s' :
  errstr_inv s → loader_inv w s → open_step w t s = Some s' → loader_inv w s'.
Proof.
  intros He Hl H t' fp' p' h' pp' tbl' Hin.
  step_inv H; simpl in *.
  all: pose proof (λ pp e, He _ _ pp e Hth) as Hee; simpl in Hee.
  all: apply elem_of_cons in Hin as [Heq|Hin]; try discriminate.
  all: try (match goal with Heq : (_, _) = (_, _) |- _ => simplify_eq end).
  all: try (by specialize (Hee _ _ eq_refl)).
  all: try (eexists; split; [apply list_lookup_insert_eq; by eapply lookup_lt_Some|];
            split; [done|]; left; done).
  all: destruct (Hl _ _ _ _ _ _ Hin) as (th1 & H1 & Hfp & Hst).
  all: destruct (decide (t' = t)) as [->|Hne];
       [|exists th1; rewrite list_lookup_insert_ne by done; done].
  all: rewrite Hth in H1; injection H1 as <-; simpl in *.
  all: unfold loader_state in *; simpl in *.
  all: destruct Hst as [Hst|[Hst|[Hst|(msg' & Hm' & Hst)]]]; try discriminate.
  all: try (injection Hst as <- <- <- <-).
  all: eexists; split; [apply list_lookup_insert_eq; by eapply lookup_lt_Some|].
  all: split; [done|]; simpl; eauto 6.
Qed.

Lemma mid_on_crit s t th fp :
  mutex_inv s → threads s !! t = Some th → in_crit (tpc th) = true →
  mid_on s fp ↔ in_mid (tpc th) = true ∧ tfilepath th = fp.
Proof.
  intros Hmu Hth Hc. split.
  - intros (t1 & th1 & H1 & Hm & Hf).
    assert (t1 = t) as ->.
    { eapply mutex_excl; eauto using missed_crit, mid_missed. }
    rewrite Hth in H1. injection H1 as <-. done.
  - intros [Hm Hf]. exists t, th. done.
Qed.

Lemma mid_on_same s s' t th th' fp :
  threads s !! t = Some th → threads s' = <[t := th']> (threads s) →
  in_mid (tpc th) = false → in_mid (tpc th') = false →
  mid_on s' fp ↔ mid_on s fp.
Proof.
  intros Hth Hs' Hm Hm'. unfold mid_on. rewrite Hs'. split.
  - intros (t1 & th1 & H1 & Hm1 & Hf). thread_cases H1 Hth; [congruence|]. eauto.
  - intros (t1 & th1 & H1 & Hm1 & Hf). exists t1, th1.
    destruct (decide (t1 = t)) as [->|Hne]; [congruence|].
    rewrite list_lookup_insert_ne by done. done.
Qed.

Lemma load_inv_step w t s s' :
  mutex_inv s → miss_inv s → load_inv s → open_step w t s = Some s' → load_inv s'.
Proof.
  intros Hmu Hmi Hl H fp0.
  pose proof (mutex_inv_step _ _ _ _ Hmu H) as Hmu'.
  pose proof H as Hstep.
  step_inv H.
  all: pose proof (Hmi _ _ Hth) as Hme; simpl in Hme.
  all: try (
    match goal with
    | |- context [goto ?s ?t ?th ?ev] => set (s' := goto s t th ev) in *
    | |- context [goto_mu ?s ?t ?th ?ev ?m] => set (s' := goto_mu s t th ev m) in *
    | |- context [upd ?s ?t ?th ?ev ?a ?b ?c] => set (s' := upd s t th ev a b c) in *
    end;
    assert (Heq: ∀ fp, mid_on s' fp ↔ mid_on s fp)
      by (intros fp'; eapply mid_on_same; [exact Hth|reflexivity|done|done]);
    destruct (Hl fp0) as [(Hc & Hr & Hn)|(Hc & Hr)]; [left|right];
    rewrite ?Heq; unfold loads_ok in *; simpl; rewrite ?Hc; 
    repeat split; try done;
    try (destruct (bool_decide_reflect (fp = fp0)); simpl; done)).
  all: try (destruct (bool_decide_reflect (fp = fp0)),
                     (bool_decide_reflect (pluginOpen w (clock s) fp ≠ 0%Z));
            simpl; done).
  all: match goal with
       | |- context [goto ?s ?t ?th ?ev] => set (s' := goto s t th ev) in *
       | |- context [upd ?s ?t ?th ?ev ?a ?b ?c] => set (s' := upd s t th ev a b c) in *
       end.
  all: assert (Hs: ∀ fp', mid_on s fp' ↔ _ ∧ fp = fp')
         by (intros fp'; eapply (mid_on_crit s t _ fp' Hmu Hth); done).
  all: assert (Hs': ∀ fp', mid_on s' fp' ↔ _ ∧ _ = fp')
         by (intros fp'; eapply (mid_on_crit s' t _ fp' Hmu');
             [apply list_lookup_insert_eq; by eapply lookup_lt_Some|reflexivity]).
  all: simpl in Hs, Hs'.
  all: destruct (Hl fp0) as [(Hc & Hr & Hn)|(Hc & Hr)]; rewrite Hs in *.
  all: unfold loads_ok in *; simpl; rewrite ?Hc, ?Hs'.
  all: try specialize (Hme eq_refl).
  all: destruct (decide (fp = fp0)) as [->|Hne];
       rewrite ?lookup_insert_eq, ?(lookup_insert_ne _ _ _ _ Hne);
       rewrite ?bool_decide_eq_true_2, ?bool_decide_eq_false_2 by done; simpl.
  all: try (rewrite Hme in Hr).
  all: try (left; by intuition).
  all: try (right; by intuition).
  all: try (exfalso; by intuition).
  all: try (destruct Hr as [[? ?]|[? ?]]; done).
Qed.

(** ** Each invariant is kept by a new call *)

Ltac spawn_thread H :=
  apply lookup_snoc_Some in H as [H|[-> ->]]; simpl in *; try done.

Lemma mutex_inv_spawn name s : mutex_inv s → mutex_inv (spawn name s).
Proof.
  intros [Hm Hlt]. split; simpl.
  - intros t th H. apply lookup_app_Some in H as [H|[Hge H]].
    + auto.
    + destruct (t - length (threads s)) eqn:E; simpl in H; [|done].
      injection H as <-. simpl. split; [done|]. intros Hmu. apply Hlt in Hmu. lia.
  - intros t H. rewrite length_app. apply Hlt in H. lia.
Qed.

Lemma miss_inv_spawn name s : miss_inv s → miss_inv (spawn name s).
Proof. intros Hi t th H Hc. spawn_thread H. by eapply Hi. Qed.

Lemma held_inv_spawn name s : held_inv s → held_inv (spawn name s).
Proof. intros Hi t th p H Hc. spawn_thread H. by eapply Hi. Qed.

Lemma reg_inv_spawn name s : reg_inv s → reg_inv (spawn name s).
Proof. intros Hi fp p H. by eapply Hi. Qed.

Lemma errstr_inv_spawn name s : errstr_inv s → errstr_inv (spawn name s).
Proof. intros Hi t th pp e H Hc. spawn_thread H. by eapply Hi. Qed.

Lemma owner_inv_spawn w name s : owner_inv w s → owner_inv w (spawn name s).
Proof.
  intros Hi t th h pp tbl p H Hc. spawn_thread H.
  destruct (Hi _ _ _ _ _ _ H Hc) as [Hin Hrest]. split; [by right|done].
Qed.

Lemma distinct_inv_spawn name s : distinct_inv s → distinct_inv (spawn name s).
Proof.
  intros Hi t1 th1 o1 t2 th2 o2 H1 H2 O1 O2 Heq.
  spawn_thread H1. spawn_thread H2. by eapply Hi.
Qed.

Lemma event_inv_spawn name s : event_inv s → event_inv (spawn name s).
Proof.
  intros [Hb Hu]. split; simpl.
  - intros t fp p h pp tbl e Hin. apply elem_of_cons in Hin as [?|Hin]; [done|]. by eapply Hb.
  - intros t1 fp1 h1 pp1 tbl1 e1 t2 fp2 h2 pp2 tbl2 e2 p H1 H2.
    apply elem_of_cons in H1 as [?|H1]; [done|].
    apply elem_of_cons in H2 as [?|H2]; [done|]. by eapply Hu.
Qed.

Lemma record_inv_spawn w name s : record_inv w s → record_inv w (spawn name s).
Proof.
  intros Hi p P H. destruct (Hi _ _ H) as (t & fp & h & tbl & Hin & Hok).
  exists t, fp, h, tbl. split; [by right|done].
Qed.

Lemma wake_inv_spawn name s : wake_inv s → wake_inv (spawn name s).
Proof.
  intros Hi t p Hin. simpl in Hin. apply elem_of_cons in Hin as [?|Hin]; [done|]. by eapply Hi.
Qed.

Lemma done_inv_spawn name s : done_inv s → done_inv (spawn name s).
Proof. intros Hi t th p H Hc. spawn_thread H. by eapply Hi. Qed.

Lemma loader_inv_spawn w name s : loader_inv w s → loader_inv w (spawn name s).
Proof.
  intros Hl t fp p h pp tbl Hin. simpl in Hin.
  apply elem_of_cons in Hin as [?|Hin]; [done|].
  destruct (Hl _ _ _ _ _ _ Hin) as (th & H & Hrest).
  exists th. split; [|done]. by apply lookup_app_l_Some.
Qed.

Lemma mid_on_spawn name s fp : mid_on (spawn name s) fp ↔ mid_on s fp.
Proof.
  unfold mid_on; simpl. split.
  - intros (t & th & H & Hm & Hf). spawn_thread H. eauto.
  - intros (t & th & H & Hm & Hf). exists t, th. split; [|done].
    by apply lookup_app_l_Some.
Qed.

Lemma load_inv_spawn name s : load_inv s → load_inv (spawn name s).
Proof.
  intros Hi fp. destruct (Hi fp) as [(Hc & Hr & Hn)|(Hc & Hr)]; [left|right].
  all: rewrite mid_on_spawn; unfold loads_ok in *; simpl; done.
Qed.

(** ** Every state of the process satisfies the invariant *)

Lemma Inv_init w : Inv w init_state.
Proof.
  split.
  - split; [intros t th H|intros t H]; done.
  - intros t th H; done.
  - intros t th p H; done.
  - intros fp p H; done.
  - intros t th pp e H; done.
  - intros t th h pp tbl p H; done.
  - intros t1 th1 o1 t2 th2 o2 H; done.
  - split; [intros t fp p h pp tbl e H|intros t1 fp1 h1 pp1 tbl1 e1 t2 fp2 h2 pp2 tbl2 e2 p H];
      inversion H.
  - intros p P H; done.
  - intros t p H; inversion H.
  - intros t th p H; done.
  - intros t fp p h pp tbl H; inversion H.
  - intros fp. left. repeat split; try done. intros (t & th & H & _); done.
Qed.

Lemma Inv_exec w a s s' : Inv w s → exec w a s = Some s' → Inv w s'.
Proof.
  intros [] H. destruct a as [name|t]; simpl in H.
  - injection H as <-. split;
      eauto using mutex_inv_spawn, miss_inv_spawn, held_inv_spawn, reg_inv_spawn,
        errstr_inv_spawn, owner_inv_spawn, distinct_inv_spawn, event_inv_spawn,
        record_inv_spawn, wake_inv_spawn, done_inv_spawn, loader_inv_spawn,
        load_inv_spawn.
  - split;
      eauto using mutex_inv_step, miss_inv_step, held_inv_step, reg_inv_step,
        errstr_inv_step, owner_inv_step, distinct_inv_step, event_inv_step,
        record_inv_step, wake_inv_step, done_inv_step, loader_inv_step,
        load_inv_step.
Qed.

Theorem reachable_Inv w s : reachable w s → Inv w s.
Proof. induction 1; eauto using Inv_init, Inv_exec. Qed.

Lemma run_reachable_from w acts s s' :
  reachable w s → run w acts s = Some s' → reachable w s'.
Proof.
  revert s. induction acts as [|a acts IH]; intros s Hr H; simpl in H.
  - by injection H as <-.
  - destruct (exec w a s) as [s1|] eqn:E; simpl in H; [|done].
    eapply IH; [|exact H]. eapply reach_exec; eauto.
Qed.

Lemma run_reachable w acts s :
  run w acts init_state = Some s → reachable w s.
Proof. apply run_reachable_from. constructor. Qed.

Lemma run_alone_reachable w t n s :
  reachable w s → reachable w (run_alone w t n s).
Proof.
  revert s. induction n as [|n IH]; intros s Hr; [done|].
  rewrite run_alone_S. destruct (open_step w t s) as [s1|] eqn:E; [|done].
  apply IH. by apply (reach_exec w s (Run t)).
Qed.

Lemma open_reachable w name s : reachable w s → reachable w (open w name s).
Proof.
  intros Hr. apply run_alone_reachable. by apply (reach_exec w s (Call name)).
Qed.

(** ** [open] without interleaving *)

Lemma insert_snoc {A} (l : list A) (x y : A) : <[length l := y]> (l ++ [x]) = l ++ [y].
Proof.
  induction l as [|a l IH]; simpl; [done|]. by rewrite IH.
Qed.

Lemma open_step_snoc w l th pl hp m tr :
  open_step w (length l)
    {| plugins := pl; heap := hp; pluginsMu := m; threads := l ++ [th]; trace := tr |} =
  open_body w (length l)
    {| plugins := pl; heap := hp; pluginsMu := m; threads := l ++ [th]; trace := tr |} th.
Proof. unfold open_step. simpl. by rewrite list_lookup_middle. Qed.

Lemma result_of_snoc l th pl hp m tr :
  result_of {| plugins := pl; heap := hp; pluginsMu := m; threads := l ++ [th]; trace := tr |}
    (length l) = match tpc th with PDone r => Some r | _ => None end.
Proof. unfold result_of, pc_of. simpl. by rewrite list_lookup_middle. Qed.

Ltac seq_step :=
  rewrite open_step_snoc; unfold open_body, goto, goto_mu, upd, at_pc, clock; simpl;
  rewrite ?insert_snoc.

Lemma open_realpath_fails w name s :
  rp_ptr (realpath w (S (clock s)) (Some (cstring name)) true) = RNull →
  open w name s =
  {| plugins := plugins s; heap := heap s; pluginsMu := pluginsMu s;
     threads := threads s ++
       [{| tname := name; tfilepath := EmptyString; tpc := PDone (Err (realpath_failed name)) |}];
     trace := (length (threads s), EvRealpath name None) ::
              (length (threads s), EvCall name) :: trace s |}.
Proof.
  intros Hrp. unfold open, spawn. unfold clock in *.
  rewrite run_alone_S. seq_step. rewrite Hrp. simpl; rewrite ?insert_snoc.
  rewrite run_alone_S. seq_step. done.
Qed.

Lemma open_to_lookup w name s n :
  pluginsMu s = None →
  rp_ptr (realpath w (S (clock s)) (Some (cstring name)) true) ≠ RNull →
  run_alone w (length (threads s)) (S (S n)) (spawn name s) =
  run_alone w (length (threads s)) n
    (at_lookup s name (rp_buf (realpath w (S (clock s)) (Some (cstring name)) true))).
Proof.
  intros Hmu Hrp. unfold spawn, at_lookup. unfold clock in *.
  rewrite run_alone_S. seq_step.
  rewrite bool_decide_eq_false_2 by done. simpl; rewrite ?insert_snoc.
  rewrite run_alone_S. seq_step. rewrite Hmu. simpl; rewrite ?insert_snoc. done.
Qed.

(** The call found a failed record: three more steps and it returns. *)
Lemma lookup_hit_failed w s name fp p P n :
  plugins s !! fp = Some p → heap s !! p = Some P → err P ≠ EmptyString →
  run_alone w (length (threads s)) (S (S (S n))) (at_lookup s name fp) =
  {| plugins := plugins s; heap := heap s; pluginsMu := None;
     threads := threads s ++
       [{| tname := name; tfilepath := fp;
           tpc := PDone (Err (open_prefix name +:+ err P +:+ " (previous failure)")) |}];
     trace := (length (threads s), EvReadErr p) :: (length (threads s), EvUnlock) ::
              (length (threads s), EvMapLookup fp (Some p)) :: trace (at_lookup s name fp) |}.
Proof.
  intros Hreg Hheap Herr. unfold at_lookup.
  rewrite run_alone_S. seq_step. rewrite Hreg. simpl; rewrite ?insert_snoc.
  rewrite run_alone_S. seq_step.
  rewrite run_alone_S. seq_step. rewrite Hheap. simpl.
  rewrite bool_decide_eq_true_2 by done. simpl; rewrite ?insert_snoc.
  destruct n; [done|]. rewrite run_alone_S. seq_step. done.
Qed.

(** The call found a record in flight: it stands at [<-p.loaded], for any
    number of steps. *)
Lemma lookup_hit_pending w s name fp p P n :
  plugins s !! fp = Some p → heap s !! p = Some P →
  err P = EmptyString → loaded P ≠ ChClosed →
  run_alone w (length (threads s)) (3 + n) (at_lookup s name fp) =
  {| plugins := plugins s; heap := heap s; pluginsMu := None;
     threads := threads s ++ [{| tname := name; tfilepath := fp; tpc := PWait p |}];
     trace := (length (threads s), EvReadErr p) :: (length (threads s), EvUnlock) ::
              (length (threads s), EvMapLookup fp (Some p)) :: trace (at_lookup s name fp) |}.
Proof.
  intros Hreg Hheap Herr Hld. unfold at_lookup.
  change (3 + n) with (S (S (S n))).
  rewrite run_alone_S. seq_step. rewrite Hreg. simpl; rewrite ?insert_snoc.
  rewrite run_alone_S. seq_step.
  rewrite run_alone_S. seq_step. rewrite Hheap. simpl.
  rewrite bool_decide_eq_false_2 by (by intros ?). simpl; rewrite ?insert_snoc.
  induction n as [|n IH]; [done|].
  rewrite run_alone_S. seq_step. rewrite Hheap. simpl.
  rewrite bool_decide_eq_false_2 by done. done.
Qed.

Lemma open_step_past_load w t s s' th fp :
  threads s !! t = Some th → past_load (tpc th) = true → open_step w t s = Some s' →
  loads fp s' = loads fp s ∧
  ∃ th', threads s' !! t = Some th' ∧ past_load (tpc th') = true.
Proof.
  intros Hth0 Hp H. step_inv H; simpl in *.
  all: injection Hth0 as <-; simpl in *; try done.
  all: split; [done|].
  all: eexists; split; [apply list_lookup_insert_eq; by eapply lookup_lt_Some|done].
Qed.

Lemma run_alone_past_load w t n s th fp :
  threads s !! t = Some th → past_load (tpc th) = true →
  loads fp (run_alone w t n s) = loads fp s.
Proof.
  revert s th. induction n as [|n IH]; intros s th Hth Hp; [done|].
  rewrite run_alone_S. destruct (open_step w t s) as [s1|] eqn:E; [|done].
  destruct (open_step_past_load w t s s1 th fp Hth Hp E) as (Hl & th' & Hth' & Hp').
  rewrite (IH _ _ Hth' Hp'). done.
Qed.

(** The call found no record: it calls [C.pluginOpen], once. *)
Lemma lookup_miss_loads w s name fp n :
  plugins s !! fp = None →
  loads fp (run_alone w (length (threads s)) (S (S n)) (at_lookup s name fp)) =
  S (loads fp s).
Proof.
  intros Hreg. unfold at_lookup.
  rewrite run_alone_S. seq_step. rewrite Hreg. simpl; rewrite ?insert_snoc.
  rewrite run_alone_S. seq_step.
  case_bool_decide; simpl; rewrite ?insert_snoc.
  all: erewrite run_alone_past_load; [|by apply list_lookup_middle|done].
  all: unfold loads; simpl; by rewrite bool_decide_eq_true_2.
Qed.

(** The linker rejects the image: two more steps after the call of
    [C.pluginOpen] and [open] returns, the registry as it was. *)
Lemma lookup_miss_rejected w s name fp n :
  plugins s !! fp = None →
  pluginOpen w (4 + clock s) fp = 0%Z →
  run_alone w (length (threads s)) (S (S (S n))) (at_lookup s name fp) =
  {| plugins := plugins s; heap := heap s; pluginsMu := None;
     threads := threads s ++
       [{| tname := name; tfilepath := fp;
           tpc := PDone (Err (open_prefix name +:+ GoString_cErr +:+ " error")) |}];
     trace := (length (threads s), EvUnlock) :: (length (threads s), EvLoad fp 0) ::
              (length (threads s), EvMapLookup fp None) :: trace (at_lookup s name fp) |}.
Proof.
  intros Hreg Hload. unfold at_lookup. unfold clock in *.
  rewrite run_alone_S. seq_step. rewrite Hreg. simpl; rewrite ?insert_snoc.
  rewrite run_alone_S. seq_step. simpl in Hload. rewrite Hload. simpl; rewrite ?insert_snoc.
  rewrite run_alone_S. seq_step.
  destruct n; [done|]. rewrite run_alone_S. seq_step. done.
Qed.

(** ** What a step keeps *)

Lemma reachable_ind' w (Q : State → Prop) :
  Q init_state →
  (∀ s name, reachable w s → Q s → Q (spawn name s)) →
  (∀ s t s', reachable w s → Q s → open_step w t s = Some s' → Q s') →
  ∀ s, reachable w s → Q s.
Proof.
  intros H0 Hsp Hst s Hr. induction Hr as [|s a s' Hr IH E]; [done|].
  destruct a as [name|t]; simpl in E.
  - injection E as <-. by apply Hsp.
  - by eapply Hst.
Qed.

Lemma step_record w t s s' p P :
  open_step w t s = Some s' → heap s !! p = Some P →
  ∃ P', heap s' !! p = Some P' ∧ err P' = err P ∧ pluginpath P' = pluginpath P ∧
        (loaded P = ChClosed → loaded P' = ChClosed).
Proof.
  intros H HP0. step_inv H; simpl; eauto.
  all: try (exists P; split; [by apply lookup_app_l_Some|done]).
  all: match goal with
       | |- context [<[?q := _]> _] =>
           destruct (decide (p = q)) as [->|Hne];
           [unfold ptr in *; rewrite HP in HP0; injection HP0 as <-;
            eexists; split; [apply list_lookup_insert_eq; by eapply lookup_lt_Some|done]
           |exists P; split; [by rewrite list_lookup_insert_ne|done]]
       end.
Qed.

Lemma exec_keeps w a s s' :
  Inv w s → exec w a s = Some s' →
  (∀ fp p, plugins s !! fp = Some p → plugins s' !! fp = Some p) ∧
  (∀ p P, heap s !! p = Some P → loaded P = ChClosed ∨ err P ≠ EmptyString →
     heap s' !! p = Some P) ∧
  (∀ t r, result_of s t = Some r → result_of s' t = Some r).
Proof.
  intros Hi H. destruct a as [name|t]; simpl in H.
  { injection H as <-. split; [done|]. split; [done|].
    intros t r. unfold result_of, pc_of. simpl.
    destruct (threads s !! t) as [th|] eqn:E; [|done].
    by rewrite (lookup_app_l_Some _ _ _ _ E). }
  pose proof (inv_miss _ _ Hi) as Hmi. pose proof (inv_owner _ _ Hi) as Ho.
  split; [|split].
  - intros fp' p' H'. step_inv H; simpl; try done.
    all: pose proof (Hmi _ _ Hth eq_refl) as Hme; simpl in Hme.
    all: rewrite lookup_insert_ne; [done|intros ->; unfold ptr in *; congruence].
  - intros p' P' H' Hs. step_inv H; simpl; try done.
    all: try (by apply lookup_app_l_Some).
    all: destruct (Ho _ _ _ _ _ _ Hth eq_refl) as (_ & P0 & HP0 & _ & He & Hl & _).
    all: rewrite list_lookup_insert_ne; [done|].
    all: intros ->; unfold ptr in *; rewrite HP0 in H'; injection H' as <-.
    all: destruct Hs as [Hs|Hs]; [rewrite Hl in Hs; discriminate|by apply Hs].
  - intros t' r. unfold result_of, pc_of.
    destruct (threads s !! t') as [th'|] eqn:E; simpl; [|done].
    destruct (tpc th') eqn:Epc; try done. intros [= <-].
    step_inv H; simpl.
    all: destruct (decide (t' = t)) as [->|Hne]; [simplify_eq|].
    all: unfold tid in *; rewrite list_lookup_insert_ne by done; rewrite E; simpl; by rewrite Epc.
Qed.

Lemma result_of_upd s t th th' ev pl hp m :
  threads s !! t = Some th →
  result_of (upd s t th' ev pl hp m) t = match tpc th' with PDone r => Some r | _ => None end.
Proof.
  intros H. unfold result_of, pc_of, upd. simpl.
  rewrite list_lookup_insert_eq by (by eapply lookup_lt_Some). done.
Qed.

Lemma open_step_upd w s t th th' ev pl hp m :
  threads s !! t = Some th →
  open_step w t (upd s t th' ev pl hp m) = open_body w t (upd s t th' ev pl hp m) th'.
Proof.
  intros H. unfold open_step. simpl.
  rewrite list_lookup_insert_eq by (by eapply lookup_lt_Some). done.
Qed.

Lemma failed_inv_reachable w s : reachable w s → failed_inv s.
Proof.
  intros Hr. pose proof Hr as Hr0. revert s Hr0 Hr.
  apply (reachable_ind' w (λ s, reachable w s → failed_inv s)).
  - intros _ t th e H. done.
  - intros s name Hr IH _ t th e H Hpc. simpl in *.
    apply lookup_snoc_Some in H as [H|[-> ->]]; [by eapply (IH Hr)|done].
  - intros s t s' Hr IH H _ t' th' e' H' Hpc.
    specialize (IH Hr). pose proof (reachable_Inv _ _ Hr) as Hi.
    destruct (exec_keeps w (Run t) s s' Hi H) as (Kreg & _ & _).
    pose proof (step_record w t s s') as Hrec. specialize (λ p P, Hrec p P H).
    pose proof (inv_errstr _ _ Hi) as Herr.
    assert (Hother : ∀ th, threads s !! t' = Some th → tpc th = PFailedUnlock e' →
              e' ≠ EmptyString ∧
              ∃ p P, plugins s' !! tfilepath th = Some p ∧ heap s' !! p = Some P ∧ err P = e').
    { intros th Hth Hpc'. destruct (IH _ _ _ Hth Hpc') as (Hne & p & P & Hreg & HP & He).
      split; [done|]. destruct (Hrec _ _ HP) as (P2 & HP2 & He2 & _).
      exists p, P2. split; [by apply Kreg|]. split; [done|congruence]. }
    clear Kreg Hrec.
    step_inv H; simpl in *.
    all: thread_cases H' Hth; simpl in *; try done.
    all: try (by apply Hother).
    injection Hpc as <-. split; [by eapply Herr|].
    eexists _, _. split; [apply lookup_insert_eq|]. split; [apply list_lookup_middle; done|done].
Qed.

(** * Theorems *)

(** ** One load per path *)

(** C1 fails as stated.  Two calls of [open("a")] in flight at once, on a
    machine whose linker rejects the image: both resolve to the same
    path and [C.pluginOpen] is called twice for it.  And on a machine
    where the runtime rejects the module: the first call returns the
    error, the second returns it with another text. *)
Lemma open_loads_again_when_rejected :
  let s := runs reject_world
             [Call "a"; Call "a"; Run 0; Run 1; Run 0; Run 0; Run 0; Run 0;
              Run 1; Run 1; Run 1; Run 1] in
  tfilepath <$> threads s !! 0 = Some "C:\plugins\a" ∧
  tfilepath <$> threads s !! 1 = Some "C:\plugins\a" ∧
  loads "C:\plugins\a" s = 2 ∧
  let s' := runs badmeta_world
              [Call "a"; Call "a"; Run 0; Run 1; Run 0; Run 0; Run 0; Run 0; Run 0; Run 0;
               Run 1; Run 1; Run 1; Run 1] in
  tfilepath <$> threads s' !! 0 = Some "C:\plugins\a" ∧
  tfilepath <$> threads s' !! 1 = Some "C:\plugins\a" ∧
  result_of s' 0 = Some (Err (open_prefix "a" +:+ "plugin already loaded")) ∧
  result_of s' 1 = Some (Err (open_prefix "a" +:+ "plugin already loaded (previous failure)")).
Proof. vm_compute. repeat split. Qed.

(** C1, as amended: in every state of the process, whatever calls of
    [open] run at once and however they interleave, [C.pluginOpen] has
    returned a handle for a canonical path at most once, and exactly once
    when the registry holds a record for the path; any two calls on that
    path that returned a record returned the same one (the same address),
    it is the record of the registry, and it is loaded ([loaded] is
    closed).  A call whose native load the linker rejects (no handle)
    returns the error of line 231 two steps later and leaves no record
    for the path: the registry, the records and the count of handles are
    as they were and the mutex is free; and every call that finds no
    record for the path on line 218 calls [C.pluginOpen] for it.  A call
    that finds a failed record (line 220) returns [p.err] with the
    annotation [(previous failure)] and loads nothing; the call that made
    the failed record returns the same [p.err] without the annotation,
    which is another text. *)
Theorem one_load_per_path w s fp :
  reachable w s →
  loads_ok fp s ≤ 1 ∧
  (is_Some (plugins s !! fp) → loads_ok fp s = 1) ∧
  (∀ t1 th1 p1 t2 th2 p2,
     threads s !! t1 = Some th1 → threads s !! t2 = Some th2 →
     tfilepath th1 = fp → tfilepath th2 = fp →
     tpc th1 = PDone (Ok p1) → tpc th2 = PDone (Ok p2) →
     p1 = p2 ∧ plugins s !! fp = Some p1 ∧
     ∃ P, heap s !! p1 = Some P ∧ loaded P = ChClosed) ∧
  (∀ t th, threads s !! t = Some th → tfilepath th = fp → tpc th = PLoad →
     pluginOpen w (clock s) fp = 0%Z →
     ∃ s1 s2, open_step w t s = Some s1 ∧ open_step w t s1 = Some s2 ∧
       result_of s2 t = Some (Err (open_prefix (tname th) +:+ GoString_cErr +:+ " error")) ∧
       loads fp s2 = S (loads fp s) ∧ loads_ok fp s2 = loads_ok fp s ∧
       plugins s2 = plugins s ∧ plugins s2 !! fp = None ∧ heap s2 = heap s ∧
       pluginsMu s2 = None) ∧
  (∀ t th, threads s !! t = Some th → tfilepath th = fp → tpc th = PLookup →
     plugins s !! fp = None →
     ∃ s1 s2, open_step w t s = Some s1 ∧ open_step w t s1 = Some s2 ∧
       loads fp s2 = S (loads fp s)) ∧
  (∀ t th p, threads s !! t = Some th → tfilepath th = fp → tpc th = PCheckErr p →
     ∃ P, plugins s !! fp = Some p ∧ heap s !! p = Some P ∧
       (err P ≠ EmptyString →
        ∃ s', open_step w t s = Some s' ∧
          result_of s' t =
            Some (Err (open_prefix (tname th) +:+ err P +:+ " (previous failure)")) ∧
          loads fp s' = loads fp s)) ∧
  (∀ t th e, threads s !! t = Some th → tfilepath th = fp → tpc th = PFailedUnlock e →
     ∃ p P s', plugins s !! fp = Some p ∧ heap s !! p = Some P ∧ err P = e ∧
       e ≠ EmptyString ∧
       open_step w t s = Some s' ∧
       result_of s' t = Some (Err (open_prefix (tname th) +:+ e)) ∧
       open_prefix (tname th) +:+ e ≠
         open_prefix (tname th) +:+ e +:+ " (previous failure)").
Proof.
  intros Hr. pose proof (failed_inv_reachable _ _ Hr) as Hf. apply reachable_Inv in Hr.
  split; [|split; [|split; [|split; [|split; [|split]]]]].
  - destruct ((inv_load _ _ Hr) fp) as [(-> & _)|(-> & _)]; lia.
  - intros Hs. destruct ((inv_load _ _ Hr) fp) as [(_ & Hn & _)|(Hc & _)]; [|done].
    rewrite Hn in Hs. by destruct Hs.
  - intros t1 th1 p1 t2 th2 p2 H1 H2 F1 F2 D1 D2.
    pose proof ((inv_held _ _ Hr) t1 th1 p1 H1) as R1. rewrite D1 in R1. specialize (R1 eq_refl).
    pose proof ((inv_held _ _ Hr) t2 th2 p2 H2) as R2. rewrite D2 in R2. specialize (R2 eq_refl).
    rewrite F1 in R1. rewrite F2 in R2. split; [congruence|]. split; [done|].
    eapply (inv_done _ _ Hr); [exact H1|exact D1].
  - intros t th Hth <- Hpc Hload.
    pose proof (inv_miss _ _ Hr _ _ Hth) as Hm. rewrite Hpc in Hm. specialize (Hm eq_refl).
    eexists _, _. split.
    { unfold open_step. rewrite Hth. simpl. unfold open_body. rewrite Hpc, Hload.
      rewrite bool_decide_eq_true_2 by done. reflexivity. }
    unfold goto. split.
    { rewrite (open_step_upd _ _ _ _ _ _ _ _ _ Hth). unfold open_body. simpl. reflexivity. }
    unfold goto_mu, goto. split.
    { unfold result_of, pc_of, upd. simpl.
      rewrite list_lookup_insert_eq; [done|].
      rewrite length_insert. by eapply lookup_lt_Some. }
    unfold loads, loads_ok. simpl. rewrite bool_decide_eq_true_2 by done. simpl.
    repeat split; done.
  - intros t th Hth <- Hpc Hreg.
    assert (∃ s2, open_step w t (goto s t (at_pc th PLoad) (EvMapLookup (tfilepath th) None)) =
                    Some s2 ∧ loads (tfilepath th) s2 = S (loads (tfilepath th) s))
      as (s2 & Hs2 & Hl).
    { unfold goto. rewrite (open_step_upd _ _ _ _ _ _ _ _ _ Hth). unfold open_body. simpl.
      case_bool_decide; eexists; (split; [reflexivity|]).
      all: unfold loads; simpl; by rewrite bool_decide_eq_true_2. }
    eexists _, s2. split; [|split; [exact Hs2|exact Hl]].
    unfold open_step. rewrite Hth. simpl. unfold open_body. by rewrite Hpc, Hreg.
  - intros t th p Hth <- Hpc.
    pose proof (inv_held _ _ Hr _ _ p Hth) as Hh. rewrite Hpc in Hh. specialize (Hh eq_refl).
    pose proof (inv_reg _ _ Hr _ _ Hh) as Hlt.
    apply lookup_lt_is_Some_2 in Hlt as [P HP].
    exists P. split; [done|]. split; [done|]. intros He.
    eexists. split.
    { unfold open_step. rewrite Hth. simpl. unfold open_body. rewrite Hpc.
      unfold ptr in *. rewrite HP. simpl. rewrite bool_decide_eq_true_2 by done. reflexivity. }
    unfold goto. rewrite (result_of_upd _ _ _ _ _ _ _ _ Hth). done.
  - intros t th e Hth <- Hpc.
    destruct (Hf _ _ _ Hth Hpc) as (Hne & p & P & Hreg & HP & He).
    exists p, P. eexists. split; [done|]. split; [done|]. split; [done|]. split; [done|].
    split.
    { unfold open_step. rewrite Hth. simpl. unfold open_body. rewrite Hpc. reflexivity. }
    unfold goto_mu. rewrite (result_of_upd _ _ _ _ _ _ _ _ Hth). simpl.
    split; [done|]. apply annotation_differs.
Qed.

(** Two calls of [open("math")] at once, the second waiting for the first. *)
Lemma one_load_per_path_witness :
  let w := math_world math_tbl in
  let s := runs w two_calls in
  let fp := "C:\plugins\math" in
  reachable w s ∧
  loads_ok fp s ≤ 1 ∧
  (is_Some (plugins s !! fp) → loads_ok fp s = 1) ∧
  (∀ t1 th1 p1 t2 th2 p2,
     threads s !! t1 = Some th1 → threads s !! t2 = Some th2 →
     tfilepath th1 = fp → tfilepath th2 = fp →
     tpc th1 = PDone (Ok p1) → tpc th2 = PDone (Ok p2) →
     p1 = p2 ∧ plugins s !! fp = Some p1 ∧
     ∃ P, heap s !! p1 = Some P ∧ loaded P = ChClosed).
Proof.
  intros w s fp.
  assert (Hr : reachable w s).
  { apply run_reachable with (acts := two_calls). vm_compute. reflexivity. }
  pose proof (one_load_per_path w s fp Hr) as (R1 & R2 & R3 & _).
  split; [exact Hr|]. split; [exact R1|]. split; [exact R2|exact R3].
Defined.

(** ** Waiting for a load in flight *)

(** C2: a call that was released from [<-p.loaded] (at any time before the
    state [s]) finds the record [p] settled: no error, the channel
    closed, and the directory [p.syms] the result of the whole symbol
    loop over the export table [tbl] the record was made for, with an
    entry for every export.  And a call standing at [<-p.loaded] can move
    exactly when the channel is closed: it blocks until then. *)
Theorem waiter_sees_loaded w s t p t0 fp h pp tbl e :
  reachable w s →
  (t, EvWake p) ∈ trace s →
  (t0, EvInsert fp p h pp tbl e) ∈ trace s →
  (∃ P, heap s !! p = Some P ∧ pluginpath P = pp ∧ err P = EmptyString ∧
        loaded P = ChClosed ∧ covers (syms P) tbl ∧
        ∃ name, materialize w h pp name tbl ∅ = MOk (syms P)) ∧
  (∀ t' th p', threads s !! t' = Some th → tpc th = PWait p' →
     is_Some (open_step w t' s) ↔ ∃ P, heap s !! p' = Some P ∧ loaded P = ChClosed).
Proof.
  intros Hr Hw Hi. apply reachable_Inv in Hr. split.
  - destruct ((inv_wake _ _ Hr) _ _ Hw) as (P & HP & Hc). exists P.
    destruct ((inv_record _ _ Hr) _ _ HP) as (t1 & fp1 & h1 & tbl1 & Hin & Hn & He & Hm).
    destruct (inv_event _ _ Hr) as [_ Hu].
    pose proof (Hu _ _ _ _ _ _ _ _ _ _ _ _ _ Hin Hi) as Heq. simplify_eq.
    assert (err P = EmptyString) as Herr.
    { destruct (decide (err P = EmptyString)) as [|Hne]; [done|].
      destruct (Hn Hne) as [Hnil _]. congruence. }
    destruct Hm as [[_ Hnc]|[name Hmat]]; [done|].
    repeat split; try done.
    + by apply materialize_ok in Hmat as (Hcov & _).
    + eauto.
  - intros t' th p' Hth Hpc. unfold open_step. rewrite Hth. simpl.
    unfold open_body. rewrite Hpc. split.
    + intros [s' Hs]. destruct (heap s !! p') as [P|]; simpl in Hs; [|done].
      exists P. split; [done|]. by case_bool_decide.
    + intros (P & -> & Hc). simpl. rewrite bool_decide_eq_true_2 by done. eauto.
Qed.

(** The second of two calls of [open("math")] is released by the first. *)
Lemma waiter_sees_loaded_witness :
  let w := math_world math_tbl in
  let s := runs w two_calls in
  reachable w s ∧
  (1, EvWake 0) ∈ trace s ∧
  (0, EvInsert "C:\plugins\math" 0 4194304 "math" math_tbl EmptyString) ∈ trace s ∧
  ∃ P, heap s !! 0 = Some P ∧ pluginpath P = "math" ∧ err P = EmptyString ∧
       loaded P = ChClosed ∧ covers (syms P) math_tbl ∧
       ∃ name, materialize w 4194304 "math" name math_tbl ∅ = MOk (syms P).
Proof.
  intros w s.
  assert (Hr : reachable w s).
  { apply run_reachable with (acts := two_calls). vm_compute. reflexivity. }
  assert (Hw : (1, EvWake 0) ∈ trace s).
  { vm_compute. repeat constructor. }
  assert (Hi : (0, EvInsert "C:\plugins\math" 0 4194304 "math" math_tbl EmptyString) ∈ trace s).
  { vm_compute. repeat constructor. }
  split; [exact Hr|]. split; [exact Hw|]. split; [exact Hi|].
  exact (proj1 (waiter_sees_loaded w s 1 0 0 _ _ _ _ _ Hr Hw Hi)).
Defined.

(** ** A load that fails in the symbol loop *)

(** C3: when the export table [tbl] of a module names an export that the
    linker does not resolve, then in every state of the process the
    record [p] made for it has an empty directory and an open channel, so
    [lookup] on it fails for every name; no call ever returns [p]; the
    symbol loop of the loading call ends the call with the error
    "could not find symbol" (for an unresolved export of the table); and
    the loading call, once it has returned, has returned that error. *)
Theorem no_partial_publication w s t0 fp p h pp tbl symName sym :
  reachable w s →
  (t0, EvInsert fp p h pp tbl EmptyString) ∈ trace s →
  (symName, sym) ∈ tbl →
  ¬ resolves w h pp symName →
  (∃ P, heap s !! p = Some P ∧ syms P = ∅ ∧ loaded P = ChOpen ∧
        ∀ n, lookup P n = inr (not_found n pp)) ∧
  (∀ t th, threads s !! t = Some th → tpc th ≠ PDone (Ok p)) ∧
  (∀ t th p', threads s !! t = Some th → tpc th = PSymbols h pp tbl p' →
     (∀ n v, (n, v) ∈ tbl → n ≠ EmptyString) →
     ∃ s' n' v', open_step w t s = Some s' ∧ (n', v') ∈ tbl ∧ ¬ resolves w h pp n' ∧
       result_of s' t = Some (Err (could_not_find (tname th) (sym_key n')))) ∧
  (∀ th r, threads s !! t0 = Some th → tpc th = PDone r →
     (∀ n v, (n, v) ∈ tbl → n ≠ EmptyString) →
     ∃ n' v', (n', v') ∈ tbl ∧ ¬ resolves w h pp n' ∧
       r = Err (could_not_find (tname th) (sym_key n'))).
Proof.
  intros Hr Hi Hin Hnr. apply reachable_Inv in Hr.
  assert (Hnok : ∀ name m, materialize w h pp name tbl ∅ ≠ MOk m).
  { intros name m. eapply materialize_unresolved; eauto. }
  assert (HP : ∃ P, heap s !! p = Some P ∧ pluginpath P = pp ∧ syms P = ∅ ∧ loaded P = ChOpen).
  { destruct (inv_event _ _ Hr) as [Hb Hu].
    destruct (lookup_lt_is_Some_2 (heap s) p (Hb _ _ _ _ _ _ _ Hi)) as [P HP].
    exists P. split; [done|].
    destruct (inv_record _ _ Hr _ _ HP) as (t1 & fp1 & h1 & tbl1 & Hin1 & Hn & He & Hm).
    pose proof (Hu _ _ _ _ _ _ _ _ _ _ _ _ _ Hin1 Hi) as Heq.
    injection Heq as -> -> -> Hpp -> Herr.
    destruct Hm as [[Hs Hnc]|[name Hmat]];
      [|rewrite Hpp in Hmat; by apply Hnok in Hmat].
    split; [done|]. split; [done|].
    specialize (He Herr). destruct (loaded P); done. }
  destruct HP as (P & HP & Hpp & Hs & Hl).
  split; [|split; [|split]].
  - exists P. repeat split; try done.
    intros n. unfold lookup. rewrite Hs, lookup_empty. simpl. by rewrite Hpp.
  - intros t th Hth Hd.
    destruct (inv_done _ _ Hr _ _ _ Hth Hd) as (P' & HP' & Hc). congruence.
  - intros t th p' Hth Hpc Hne.
    unfold open_step. rewrite Hth. simpl. unfold open_body. rewrite Hpc.
    destruct (materialize_total w h pp (tname th) tbl ∅ Hne)
      as [[m Hm]|(n' & v' & Hin' & Hnr' & Hm)]; [by apply Hnok in Hm|].
    rewrite Hm. eexists _, n', v'. split; [done|]. split; [done|]. split; [done|].
    unfold result_of, pc_of, goto, upd. simpl.
    rewrite list_lookup_insert_eq by (by eapply lookup_lt_Some). done.
  - intros th r Hth Hd Hne.
    destruct (inv_loader _ _ Hr _ _ _ _ _ _ Hi) as (th' & Hth' & _ & Hst).
    rewrite Hth in Hth'. injection Hth' as <-.
    destruct Hst as [Ho|[Hok|[Hp|(msg & Hm & Hmsg)]]].
    + rewrite Hd in Ho. done.
    + exfalso. destruct (inv_done _ _ Hr _ _ _ Hth Hok) as (P' & HP' & Hc). congruence.
    + congruence.
    + destruct (materialize_total w h pp (tname th) tbl ∅ Hne)
        as [[m Hm']|(n' & v' & Hin' & Hnr' & Hm')]; [congruence|].
      exists n', v'. split; [done|]. split; [done|]. congruence.
Qed.

(** [open("math")] on an image that lacks the declared export [math.Pi]. *)
Lemma no_partial_publication_witness :
  let w := partial_world in
  let s := open w "math" init_state in
  reachable w s ∧
  (0, EvInsert "C:\plugins\math" 0 4194304 "math" math_tbl EmptyString) ∈ trace s ∧
  sym_Pi ∈ math_tbl ∧
  ¬ resolves w 4194304 "math" "Pi" ∧
  (∃ P, heap s !! 0 = Some P ∧ syms P = ∅ ∧ loaded P = ChOpen ∧
        ∀ n, lookup P n = inr (not_found n "math")) ∧
  result_of s 0 = Some (Err (could_not_find "math" "Pi")).
Proof.
  intros w s.
  assert (Hr : reachable w s) by (apply open_reachable; constructor).
  assert (Hi : (0, EvInsert "C:\plugins\math" 0 4194304 "math" math_tbl EmptyString) ∈ trace s).
  { vm_compute. repeat constructor. }
  assert (Hin : sym_Pi ∈ math_tbl) by (repeat constructor).
  assert (Hnr : ¬ resolves w 4194304 "math" "Pi").
  { intros H. apply H. vm_compute. reflexivity. }
  split; [exact Hr|]. split; [exact Hi|]. split; [exact Hin|]. split; [exact Hnr|].
  split; [|vm_compute; reflexivity].
  exact (proj1 (no_partial_publication w s 0 _ 0 _ _ _ "Pi" _ Hr Hi Hin Hnr)).
Defined.

(** ** A cached failure *)

(** The failure of [lastmoduleinit] is cached (lines 243-250): when the
    registry holds a failed record for the path ([p.err] is not empty), a
    call of [open] on a free mutex that resolves to the path (at the time
    of its first step, one event after [s]) returns
    [plugin.Open("name"): <p.err> (previous failure)], calls
    [C.pluginOpen] for no path, and leaves the registry and the records
    as they were: the next call finds the same. *)
Theorem failed_load_is_cached w s name fp p P :
  pluginsMu s = None →
  rp_ptr (realpath w (S (clock s)) (Some (cstring name)) true) ≠ RNull →
  rp_buf (realpath w (S (clock s)) (Some (cstring name)) true) = fp →
  plugins s !! fp = Some p →
  heap s !! p = Some P →
  err P ≠ EmptyString →
  let s' := open w name s in
  result_of s' (length (threads s)) =
    Some (Err (open_prefix name +:+ err P +:+ " (previous failure)")) ∧
  (∀ fp', loads fp' s' = loads fp' s) ∧
  plugins s' = plugins s ∧ heap s' = heap s ∧ pluginsMu s' = None.
Proof.
  intros Hmu Hrp Hfp Hreg Hheap Herr s'. subst s'. unfold open.
  rewrite (open_to_lookup w name s 10 Hmu Hrp). rewrite Hfp.
  rewrite (lookup_hit_failed w s name fp p P 7 Hreg Hheap Herr).
  rewrite result_of_snoc. simpl. repeat split.
Qed.

(** [open("a")] twice on a machine where the runtime rejects the module:
    the first call leaves a failed record, the second finds it. *)
Lemma failed_load_is_cached_witness :
  let w := badmeta_world in
  let s := open w "a" init_state in
  let P := {| pluginpath := "math"; err := "plugin already loaded";
              loaded := ChNil; syms := ∅ |} in
  result_of s 0 = Some (Err (open_prefix "a" +:+ "plugin already loaded")) ∧
  pluginsMu s = None ∧
  rp_ptr (realpath w (S (clock s)) (Some (cstring "a")) true) ≠ RNull ∧
  rp_buf (realpath w (S (clock s)) (Some (cstring "a")) true) = "C:\plugins\a" ∧
  plugins s !! "C:\plugins\a" = Some 0 ∧
  heap s !! 0 = Some P ∧
  err P ≠ EmptyString ∧
  result_of (open w "a" s) (length (threads s)) =
    Some (Err (open_prefix "a" +:+ err P +:+ " (previous failure)")) ∧
  (∀ fp', loads fp' (open w "a" s) = loads fp' s).
Proof.
  intros w s P.
  assert (H0 : result_of s 0 = Some (Err (open_prefix "a" +:+ "plugin already loaded")))
    by (vm_compute; reflexivity).
  assert (H1 : pluginsMu s = None) by (vm_compute; reflexivity).
  assert (H2 : rp_ptr (realpath w (S (clock s)) (Some (cstring "a")) true) ≠ RNull)
    by (vm_compute; discriminate).
  assert (H3 : rp_buf (realpath w (S (clock s)) (Some (cstring "a")) true) = "C:\plugins\a")
    by (vm_compute; reflexivity).
  assert (H4 : plugins s !! "C:\plugins\a" = Some 0) by (vm_compute; reflexivity).
  assert (H5 : heap s !! 0 = Some P) by (vm_compute; reflexivity).
  assert (H6 : err P ≠ EmptyString) by (vm_compute; discriminate).
  pose proof (failed_load_is_cached w s "a" _ 0 P H1 H2 H3 H4 H5 H6) as (R1 & R2 & _).
  repeat (split; [assumption|]). exact R2.
Defined.

(** A call that finds the record of its path pending stands at
    [<-p.loaded] after five steps, and after any number of further steps
    of its own. *)
Lemma open_stands_at_wait w s name fp p P n :
  pluginsMu s = None →
  rp_ptr (realpath w (S (clock s)) (Some (cstring name)) true) ≠ RNull →
  rp_buf (realpath w (S (clock s)) (Some (cstring name)) true) = fp →
  plugins s !! fp = Some p → heap s !! p = Some P →
  err P = EmptyString → loaded P = ChOpen →
  let t := length (threads s) in
  let s' := run_alone w t (5 + n) (spawn name s) in
  tfilepath <$> threads s' !! t = Some fp ∧
  pc_of s' t = Some (PWait p) ∧
  result_of s' t = None ∧
  open_step w t s' = None ∧
  plugins s' = plugins s ∧ heap s' = heap s.
Proof.
  intros Hmu Hrp Hbuf Hreg HP He Hl t s'. subst t s'.
  change (5 + n) with (S (S (3 + n))).
  rewrite (open_to_lookup w name s (3 + n) Hmu Hrp). rewrite Hbuf.
  rewrite (lookup_hit_pending w s name fp p P n Hreg HP He); [|by rewrite Hl].
  unfold pc_of, result_of, pc_of. rewrite open_step_snoc. unfold open_body. simpl.
  rewrite list_lookup_middle by done. unfold ptr in *. rewrite HP. simpl.
  rewrite bool_decide_eq_false_2 by (by rewrite Hl).
  rewrite !list_lookup_middle by done. repeat split.
Qed.

(** C4 does not hold of the code for a load that fails in the symbol
    loop: lines 285-287 return without setting [p.err] and without
    closing [p.loaded], where lines 243-250 record the error.
    [open("math")] on an image that lacks the declared export [math.Pi]
    returns the error of line 286 and leaves the placeholder in the
    registry, [err] empty and [loaded] open.  A second [open("math")]
    resolves to the same path, finds the placeholder, reads an empty
    [p.err] and stands at [<-p.loaded] after five steps and after any
    number of further steps: it cannot move and has returned nothing,
    neither the error with [(previous failure)] nor a record. *)
Lemma symbol_failure_is_not_cached :
  let w := partial_world in
  let fp := "C:\plugins\math" in
  let s := open w "math" init_state in
  result_of s 0 = Some (Err (open_prefix "math" +:+ "could not find symbol Pi: ")) ∧
  plugins s !! fp = Some 0 ∧
  heap s !! 0 =
    Some {| pluginpath := "math"; err := EmptyString; loaded := ChOpen; syms := ∅ |} ∧
  pluginsMu s = None ∧
  ∀ n, let s' := run_alone w 1 (5 + n) (spawn "math" s) in
       tfilepath <$> threads s' !! 1 = Some fp ∧
       pc_of s' 1 = Some (PWait 0) ∧
       result_of s' 1 = None ∧
       open_step w 1 s' = None ∧
       plugins s' = plugins s ∧ heap s' = heap s.
Proof.
  intros w fp s.
  assert (Hmu : pluginsMu s = None) by (vm_compute; reflexivity).
  assert (Hreg : plugins s !! fp = Some 0) by (vm_compute; reflexivity).
  assert (HP : heap s !! 0 = Some {| pluginpath := "math"; err := EmptyString;
                                     loaded := ChOpen; syms := ∅ |})
    by (vm_compute; reflexivity).
  assert (Hrp : rp_ptr (realpath w (S (clock s)) (Some (cstring "math")) true) ≠ RNull)
    by (vm_compute; discriminate).
  assert (Hbuf : rp_buf (realpath w (S (clock s)) (Some (cstring "math")) true) = fp)
    by (vm_compute; reflexivity).
  assert (Hlen : length (threads s) = 1) by (vm_compute; reflexivity).
  split; [vm_compute; reflexivity|]. split; [exact Hreg|]. split; [exact HP|].
  split; [exact Hmu|].
  intros n.
  pose proof (open_stands_at_wait w s "math" fp 0 _ n Hmu Hrp Hbuf Hreg HP eq_refl eq_refl) as H.
  rewrite Hlen in H. exact H.
Qed.

(** ** The scope of the mutex *)

(** C5 fails as stated.  After [Lock] and the map lookup, the call of
    [open("math")] stands at [C.pluginOpen] and holds the mutex; its next
    step is the native load, and it holds the mutex after it. *)
Lemma lock_held_across_native_load :
  let w := math_world math_tbl in
  let s := runs w [Call "math"; Run 0; Run 0; Run 0] in
  pc_of s 0 = Some PLoad ∧
  pluginsMu s = Some 0 ∧
  (λ s', (head (trace s'), pluginsMu s')) <$> open_step w 0 s =
    Some (Some (0, EvLoad "C:\plugins\math" 4194304), Some 0).
Proof. vm_compute. repeat split. Qed.

(** C5, as amended: a call holds [pluginsMu] exactly between its [Lock]
    and its [Unlock]: during the map lookup, the call of [C.pluginOpen],
    the call of [lastmoduleinit] and the map insert.  The mutex is still
    this call's after the native load and after [lastmoduleinit].  It is
    not this call's while the initializer is resolved and called, the
    symbols are resolved, the directory is published and the channel is
    closed, and none of those steps waits for it. *)
Theorem lock_scope w s t th :
  reachable w s →
  threads s !! t = Some th →
  (pluginsMu s = Some t ↔ in_crit (tpc th) = true) ∧
  (tpc th = PLoad →
     ∃ s', open_step w t s = Some s' ∧ pluginsMu s = Some t ∧ pluginsMu s' = Some t ∧
       trace s' = (t, EvLoad (tfilepath th) (pluginOpen w (clock s) (tfilepath th))) :: trace s) ∧
  (∀ h, tpc th = PLastModuleInit h →
     ∃ s', open_step w t s = Some s' ∧ pluginsMu s = Some t ∧ pluginsMu s' = Some t ∧
       trace s' = (t, EvLastModuleInit h) :: trace s) ∧
  (after_unlock (tpc th) = true →
     pluginsMu s ≠ Some t ∧
     ∃ s', open_step w t s = Some s' ∧ pluginsMu s' = pluginsMu s).
Proof.
  intros Hr Hth. apply reachable_Inv in Hr.
  destruct (inv_mutex _ _ Hr) as [Hm _]. specialize (Hm _ _ Hth).
  split; [by symmetry|]. split; [|split].
  - intros Hpc. rewrite Hpc in Hm. simpl in Hm. destruct Hm as [Hm _]. specialize (Hm eq_refl).
    unfold open_step. rewrite Hth. simpl. unfold open_body. rewrite Hpc.
    case_bool_decide; eexists; (split; [reflexivity|]); simpl; done.
  - intros h Hpc. rewrite Hpc in Hm. simpl in Hm. destruct Hm as [Hm _]. specialize (Hm eq_refl).
    unfold open_step. rewrite Hth. simpl. unfold open_body. rewrite Hpc.
    destruct (lastmoduleinit w (clock s) h) as [[pp tbl] errstr].
    case_bool_decide; eexists; (split; [reflexivity|]); simpl; done.
  - intros Ha. split.
    + intros Hmu. apply Hm in Hmu. destruct (tpc th); done.
    + destruct (tpc th) eqn:Hpc; try done.
      all: try (destruct (inv_owner _ _ Hr _ _ _ _ _ _ Hth ltac:(by rewrite Hpc))
                  as (_ & P & HP & _ & _ & Hl & _)).
      all: unfold open_step; rewrite Hth; simpl; unfold open_body; rewrite Hpc.
      all: try rewrite HP; simpl.
      all: try (case_bool_decide; eexists; (split; [reflexivity|]); simpl; done).
      all: try (eexists; (split; [reflexivity|]); simpl; done).
      destruct (materialize w h pp (tname th) tbl ∅);
        eexists; (split; [reflexivity|]); simpl; done.
Qed.

(** A call of [open("math")] that stands at the call of the initializer. *)
Lemma lock_scope_witness :
  let w := math_init_world in
  let s := runs w until_init_call in
  let th := {| tname := "math"; tfilepath := "C:\plugins\math";
               tpc := PInitCall 4194304 "math" math_tbl 0 4206592 |} in
  reachable w s ∧ threads s !! 0 = Some th ∧
  (pluginsMu s = Some 0 ↔ in_crit (tpc th) = true) ∧
  (after_unlock (tpc th) = true →
     pluginsMu s ≠ Some 0 ∧
     ∃ s', open_step w 0 s = Some s' ∧ pluginsMu s' = pluginsMu s).
Proof.
  intros w s th.
  assert (Hr : reachable w s).
  { apply run_reachable with (acts := until_init_call). vm_compute. reflexivity. }
  assert (Hth : threads s !! 0 = Some th) by (vm_compute; reflexivity).
  split; [exact Hr|]. split; [exact Hth|].
  pose proof (lock_scope w s 0 th Hr Hth) as (H1 & _ & _ & H4).
  exact (conj H1 H4).
Defined.

(** ** The initializer *)

(** C6: when a call is about to resolve the initializer [pp.init], or is
    about to call it, the registry already maps the call's path to the
    placeholder [p] (inserted by this very call), and [p] is unpublished:
    no error, [p.syms] empty, [p.loaded] open.  Resolving leads to the
    call of the initializer exactly when the address is not nil; the
    call of the initializer is a step of the calling thread itself, takes
    only the address, leaves the records untouched and leads to the
    symbol loop. *)
Theorem initializer_before_publication w s t th h pp tbl p :
  reachable w s →
  threads s !! t = Some th →
  (tpc th = PInitLookup h pp tbl p ∨ ∃ a, tpc th = PInitCall h pp tbl p a) →
  plugins s !! tfilepath th = Some p ∧
  (t, EvInsert (tfilepath th) p h pp tbl EmptyString) ∈ trace s ∧
  (∃ P, heap s !! p = Some P ∧ pluginpath P = pp ∧ err P = EmptyString ∧
        loaded P = ChOpen ∧ syms P = ∅) ∧
  (tpc th = PInitLookup h pp tbl p →
     let a := pluginLookup w h (cstring (pp +:+ ".init")) in
     ∃ s', open_step w t s = Some s' ∧ heap s' = heap s ∧
       trace s' = (t, EvResolveInit h a) :: trace s ∧
       pc_of s' t = Some (if bool_decide (a ≠ 0%Z) then PInitCall h pp tbl p a
                          else PSymbols h pp tbl p)) ∧
  (∀ a, tpc th = PInitCall h pp tbl p a →
     ∃ s', open_step w t s = Some s' ∧ heap s' = heap s ∧
       trace s' = (t, EvInit a) :: trace s ∧
       pc_of s' t = Some (PSymbols h pp tbl p)).
Proof.
  intros Hr Hth Hpc. apply reachable_Inv in Hr.
  assert (Ho : owner_of (tpc th) = Some (h, pp, tbl, p)).
  { destruct Hpc as [->|[a ->]]; done. }
  assert (Hp : held_ptr (tpc th) = Some p).
  { destruct Hpc as [->|[a ->]]; done. }
  destruct (inv_owner _ _ Hr _ _ _ _ _ _ Hth Ho) as (Hin & P & HP & Hpp & He & Hl & Hst).
  split; [by eapply (inv_held _ _ Hr)|]. split; [done|]. split; [|split].
  - exists P. repeat split; try done.
    unfold owner_state in Hst. destruct Hpc as [Hpc|[a Hpc]]; by rewrite Hpc in Hst.
  - intros Hpc'. unfold open_step. rewrite Hth. simpl. unfold open_body. rewrite Hpc'.
    case_bool_decide; eexists; (split; [reflexivity|]); simpl;
      unfold pc_of; simpl;
      rewrite list_lookup_insert_eq by (by eapply lookup_lt_Some); done.
  - intros a Hpc'. unfold open_step. rewrite Hth. simpl. unfold open_body. rewrite Hpc'.
    eexists; (split; [reflexivity|]); simpl. unfold pc_of; simpl.
    rewrite list_lookup_insert_eq by (by eapply lookup_lt_Some); done.
Qed.

(** A call of [open("math")] that stands at the call of the initializer. *)
Lemma initializer_before_publication_witness :
  let w := math_init_world in
  let s := runs w until_init_call in
  let th := {| tname := "math"; tfilepath := "C:\plugins\math";
               tpc := PInitCall 4194304 "math" math_tbl 0 4206592 |} in
  reachable w s ∧ threads s !! 0 = Some th ∧
  (tpc th = PInitLookup 4194304 "math" math_tbl 0 ∨
   ∃ a, tpc th = PInitCall 4194304 "math" math_tbl 0 a) ∧
  plugins s !! "C:\plugins\math" = Some 0 ∧
  (∃ P, heap s !! 0 = Some P ∧ pluginpath P = "math" ∧ err P = EmptyString ∧
        loaded P = ChOpen ∧ syms P = ∅).
Proof.
  intros w s th.
  assert (Hr : reachable w s).
  { apply run_reachable with (acts := until_init_call). vm_compute. reflexivity. }
  assert (Hth : threads s !! 0 = Some th) by (vm_compute; reflexivity).
  assert (Hpc : tpc th = PInitLookup 4194304 "math" math_tbl 0 ∨
                ∃ a, tpc th = PInitCall 4194304 "math" math_tbl 0 a).
  { right. eexists. reflexivity. }
  split; [exact Hr|]. split; [exact Hth|]. split; [exact Hpc|].
  pose proof (initializer_before_publication w s 0 th _ _ _ _ Hr Hth Hpc) as (H1 & _ & H3 & _).
  exact (conj H1 H3).
Defined.

(** ** The scenario [math] *)

(** C7: for a module loaded with identifier ["math"] whose export table
    is [.Add] (a function) and [Pi] (data), in either order, once its
    record is loaded: both exports were resolved; [lookup(p, "Add")]
    returns the symbol whose data word is the address of a variable
    holding the address of [math.Add] (a func value); [lookup(p, "Pi")]
    returns the symbol whose data word is the address of [math.Pi]
    itself; [lookup(p, "Missing")] fails with
    [plugin: symbol Missing not found in plugin math]. *)
Theorem math_scenario_lookup w s t fp p h tyAdd tyPi dAdd dPi tbl P :
  reachable w s →
  (t, EvInsert fp p h "math" tbl EmptyString) ∈ trace s →
  tbl ≡ₚ [(".Add", {| ityp := tyAdd; idata := dAdd |});
          ("Pi", {| ityp := tyPi; idata := dPi |})] →
  tyAdd ≠ 0%Z → tyPi ≠ 0%Z →
  heap s !! p = Some P →
  loaded P = ChClosed →
  pluginLookup w h "math.Add" ≠ 0%Z ∧
  pluginLookup w h "math.Pi" ≠ 0%Z ∧
  lookup P "Add" = inl {| ityp := tyAdd; idata := DCell (pluginLookup w h "math.Add") |} ∧
  lookup P "Pi" = inl {| ityp := tyPi; idata := DAddr (pluginLookup w h "math.Pi") |} ∧
  lookup P "Missing" = inr "plugin: symbol Missing not found in plugin math".
Proof.
  intros Hr Hi Hperm HtA HtP HP Hc. apply reachable_Inv in Hr.
  destruct (inv_event _ _ Hr) as [_ Hu].
  destruct (inv_record _ _ Hr _ _ HP) as (t1 & fp1 & h1 & tbl1 & Hin1 & _ & _ & Hm).
  pose proof (Hu _ _ _ _ _ _ _ _ _ _ _ _ _ Hin1 Hi) as Heq.
  injection Heq as -> -> -> Hpp -> Herr.
  destruct Hm as [[_ Hnc]|[name Hmat]]; [done|]. rewrite Hpp in Hmat.
  assert (Hsyms : pluginLookup w h "math.Add" ≠ 0%Z ∧ pluginLookup w h "math.Pi" ≠ 0%Z ∧
    (syms P = <["Pi" := {| ityp := tyPi; idata := DAddr (pluginLookup w h "math.Pi") |}]>
                (<["Add" := {| ityp := tyAdd; idata := DCell (pluginLookup w h "math.Add") |}]> ∅) ∨
     syms P = <["Add" := {| ityp := tyAdd; idata := DCell (pluginLookup w h "math.Add") |}]>
                (<["Pi" := {| ityp := tyPi; idata := DAddr (pluginLookup w h "math.Pi") |}]> ∅))).
  { symmetry in Hperm. apply Permutation_length_2_inv in Hperm as [-> | ->]; simpl in Hmat.
    all: change (cstring ("math" +:+ "." +:+ "Add")) with "math.Add" in Hmat.
    all: change (cstring ("math" +:+ "." +:+ "Pi")) with "math.Pi" in Hmat.
    all: repeat case_bool_decide; try discriminate.
    all: injection Hmat as <-; auto. }
  destruct Hsyms as (HA & HPi & Hs).
  split; [done|]. split; [done|].
  unfold lookup, not_found. rewrite Hpp.
  destruct Hs as [-> | ->].
  - rewrite lookup_insert_ne by done. rewrite lookup_insert_eq.
    rewrite lookup_insert_eq.
    rewrite lookup_insert_ne by done. rewrite lookup_insert_ne by done.
    rewrite lookup_empty. simpl.
    rewrite !bool_decide_eq_true_2 by done. done.
  - rewrite lookup_insert_eq.
    rewrite lookup_insert_ne by done. rewrite lookup_insert_eq.
    rewrite lookup_insert_ne by done. rewrite lookup_insert_ne by done.
    rewrite lookup_empty. simpl.
    rewrite !bool_decide_eq_true_2 by done. done.
Qed.

(** [open("math")] on the module of the scenario, which has no
    initializer: the call returns the record and never calls one. *)
Lemma math_scenario_lookup_witness :
  let w := math_world math_tbl in
  let s := open w "math" init_state in
  let P := {| pluginpath := "math"; err := EmptyString; loaded := ChClosed;
              syms := <["Pi" := {| ityp := 9; idata := DAddr 4202496 |}]>
                        (<["Add" := {| ityp := 7; idata := DCell 4198400 |}]> ∅) |} in
  reachable w s ∧
  (0, EvInsert "C:\plugins\math" 0 4194304 "math" math_tbl EmptyString) ∈ trace s ∧
  math_tbl ≡ₚ [(".Add", {| ityp := 7; idata := DNil |}); ("Pi", {| ityp := 9; idata := DNil |})] ∧
  heap s !! 0 = Some P ∧
  loaded P = ChClosed ∧
  result_of s 0 = Some (Ok 0) ∧
  count_ev is_init (trace s) = 0 ∧
  lookup P "Add" = inl {| ityp := 7; idata := DCell (pluginLookup w 4194304 "math.Add") |} ∧
  lookup P "Pi" = inl {| ityp := 9; idata := DAddr (pluginLookup w 4194304 "math.Pi") |} ∧
  lookup P "Missing" = inr "plugin: symbol Missing not found in plugin math".
Proof.
  intros w s P.
  assert (Hr : reachable w s) by (apply open_reachable; constructor).
  assert (Hi : (0, EvInsert "C:\plugins\math" 0 4194304 "math" math_tbl EmptyString) ∈ trace s).
  { vm_compute. repeat constructor. }
  assert (Hp : math_tbl ≡ₚ [(".Add", {| ityp := 7; idata := DNil |});
                            ("Pi", {| ityp := 9; idata := DNil |})]) by reflexivity.
  assert (HP : heap s !! 0 = Some P) by (vm_compute; reflexivity).
  assert (Hc : loaded P = ChClosed) by reflexivity.
  assert (H7 : (7 ≠ 0)%Z) by discriminate.
  assert (H9 : (9 ≠ 0)%Z) by discriminate.
  pose proof (math_scenario_lookup w s 0 _ 0 _ _ _ _ _ _ P Hr Hi Hp H7 H9 HP Hc)
    as (_ & _ & R).
  split; [exact Hr|]. split; [exact Hi|]. split; [exact Hp|]. split; [exact HP|].
  split; [exact Hc|]. split; [vm_compute; reflexivity|]. split; [vm_compute; reflexivity|].
  exact R.
Defined.

(** ** The name of the module *)




(** ** Failures of [realpath] *)

(** C9 fails as stated.  File-not-found and access-denied are different
    classes in [errno], and [open] returns the same error for both; and
    a full path longer than [PATH_MAX] fails with [ENAMETOOLONG], none of
    the four classes. *)
Lemma realpath_class_is_lost :
  rp_errno (realpath (nopath_world ERROR_FILE_NOT_FOUND) 1 (Some (cstring "x")) true)
    = Some ENOENT ∧
  rp_errno (realpath (nopath_world ERROR_ACCESS_DENIED) 1 (Some (cstring "x")) true)
    = Some EACCES ∧
  result_of (open (nopath_world ERROR_FILE_NOT_FOUND) "x" init_state) 0 =
    Some (Err (realpath_failed "x")) ∧
  result_of (open (nopath_world ERROR_ACCESS_DENIED) "x" init_state) 0 =
    Some (Err (realpath_failed "x")) ∧
  rp_ptr (realpath longpath_world 1 (Some (cstring "x")) true) = RNull ∧
  rp_errno (realpath longpath_world 1 (Some (cstring "x")) true) = Some ENAMETOOLONG ∧
  ENAMETOOLONG ∉ [ENOENT; ENOTDIR; EACCES; EIO].
Proof.
  repeat split; try (vm_compute; reflexivity).
  vm_compute. intros H. repeat (apply elem_of_cons in H as [H|H]; [discriminate|]).
  inversion H.
Qed.

(** C9, as amended: the [switch] of [realpath] maps file-not-found to
    [ENOENT], path-not-found and invalid-drive to [ENOTDIR],
    access-denied to [EACCES] and every other code to [EIO]; it is
    reached when [GetFullPathNameA] returns [0], and then [realpath]
    returns NULL with that [errno].  When the full path does not fit in
    the buffer, [errno] is [ENAMETOOLONG]; when [stat] fails, [errno] is
    what [stat] stored.  Whenever [realpath] returns NULL, [open]
    returns the fixed error [plugin.Open("name"): realpath failed], and
    touches neither the registry, the records, the mutex nor the
    linker. *)
Theorem realpath_failure w clk path :
  (∀ code,
     ms_errno code ∈ [ENOENT; ENOTDIR; EACCES; EIO] ∧
     (code = ERROR_FILE_NOT_FOUND → ms_errno code = ENOENT) ∧
     (code = ERROR_PATH_NOT_FOUND ∨ code = ERROR_INVALID_DRIVE → ms_errno code = ENOTDIR) ∧
     (code = ERROR_ACCESS_DENIED → ms_errno code = EACCES) ∧
     (code ∉ [ERROR_FILE_NOT_FOUND; ERROR_PATH_NOT_FOUND; ERROR_INVALID_DRIVE;
              ERROR_ACCESS_DENIED] → ms_errno code = EIO)) ∧
  ((GetFullPathNameA w clk path (PATH_MAX w)).1 = 0%Z →
     rp_ptr (realpath w clk (Some path) true) = RNull ∧
     rp_errno (realpath w clk (Some path) true) = Some (ms_errno (GetLastError w clk))) ∧
  ((PATH_MAX w < (GetFullPathNameA w clk path (PATH_MAX w)).1)%Z →
     (0 ≤ PATH_MAX w)%Z →
     rp_ptr (realpath w clk (Some path) true) = RNull ∧
     rp_errno (realpath w clk (Some path) true) = Some ENAMETOOLONG) ∧
  (∀ e, (0 < (GetFullPathNameA w clk path (PATH_MAX w)).1 ≤ PATH_MAX w)%Z →
     stat w clk (GetFullPathNameA w clk path (PATH_MAX w)).2 = Some e →
     rp_ptr (realpath w clk (Some path) true) = RNull ∧
     rp_errno (realpath w clk (Some path) true) = Some e) ∧
  (∀ name s,
     rp_ptr (realpath w (S (clock s)) (Some (cstring name)) true) = RNull →
     let s' := open w name s in
     result_of s' (length (threads s)) = Some (Err (realpath_failed name)) ∧
     plugins s' = plugins s ∧ heap s' = heap s ∧ pluginsMu s' = pluginsMu s ∧
     ∀ fp, loads fp s' = loads fp s).
Proof.
  split; [apply ms_errno_classes|]. split; [apply realpath_no_full_path|].
  split; [apply realpath_long_path|].
  split; [intros e; apply realpath_stat_fails|].
  intros name s Hrp s'. subst s'. rewrite (open_realpath_fails w name s Hrp).
  rewrite result_of_snoc. simpl. repeat split.
Qed.

(** [open("x")] when [GetFullPathNameA] fails with path-not-found. *)
Lemma realpath_failure_witness :
  let w := nopath_world ERROR_PATH_NOT_FOUND in
  (GetFullPathNameA w 1 (cstring "x") (PATH_MAX w)).1 = 0%Z ∧
  rp_ptr (realpath w 1 (Some (cstring "x")) true) = RNull ∧
  rp_errno (realpath w 1 (Some (cstring "x")) true) = Some ENOTDIR ∧
  result_of (open w "x" init_state) 0 = Some (Err (realpath_failed "x")).
Proof.
  intros w.
  assert (H0 : (GetFullPathNameA w 1 (cstring "x") (PATH_MAX w)).1 = 0%Z) by reflexivity.
  pose proof (realpath_failure w 1 (cstring "x")) as (_ & H2 & _ & _ & H4).
  destruct (H2 H0) as [R1 R2].
  split; [exact H0|]. split; [exact R1|]. split; [exact R2|].
  exact (proj1 (H4 "x" init_state R1)).
Defined.

(** ** A load the linker rejects *)

(** C10: when [C.pluginOpen] returns the nil handle (at the time of the
    load, the fifth event of the call), [open] returns
    [plugin.Open("name"):  error], the registry and the records are as
    before (no record for the path), the mutex is free, and the native
    load was called once; every later call of [open] that resolves to the
    same path calls [C.pluginOpen] again. *)
Theorem rejected_load_is_not_cached w s name fp :
  pluginsMu s = None →
  rp_ptr (realpath w (S (clock s)) (Some (cstring name)) true) ≠ RNull →
  rp_buf (realpath w (S (clock s)) (Some (cstring name)) true) = fp →
  plugins s !! fp = None →
  pluginOpen w (4 + clock s) fp = 0%Z →
  let s' := open w name s in
  result_of s' (length (threads s)) =
    Some (Err (open_prefix name +:+ GoString_cErr +:+ " error")) ∧
  plugins s' = plugins s ∧ heap s' = heap s ∧ pluginsMu s' = None ∧
  loads fp s' = S (loads fp s) ∧
  (∀ name2,
     rp_ptr (realpath w (S (clock s')) (Some (cstring name2)) true) ≠ RNull →
     rp_buf (realpath w (S (clock s')) (Some (cstring name2)) true) = fp →
     loads fp (open w name2 s') = S (loads fp s')).
Proof.
  intros Hmu Hrp Hfp Hreg Hload s'.
  assert (Hs' : s' =
    {| plugins := plugins s; heap := heap s; pluginsMu := None;
       threads := threads s ++
         [{| tname := name; tfilepath := fp;
             tpc := PDone (Err (open_prefix name +:+ GoString_cErr +:+ " error")) |}];
       trace := (length (threads s), EvUnlock) :: (length (threads s), EvLoad fp 0) ::
                (length (threads s), EvMapLookup fp None) :: trace (at_lookup s name fp) |}).
  { subst s'. unfold open. rewrite (open_to_lookup w name s 10 Hmu Hrp). rewrite Hfp.
    apply (lookup_miss_rejected w s name fp 7 Hreg Hload). }
  split; [rewrite Hs'; by rewrite result_of_snoc|].
  split; [by rewrite Hs'|]. split; [by rewrite Hs'|]. split; [by rewrite Hs'|].
  split.
  - rewrite Hs'. unfold loads. simpl. by rewrite bool_decide_eq_true_2.
  - intros name2 Hrp2 Hfp2. unfold open.
    assert (Hmu' : pluginsMu s' = None) by (by rewrite Hs').
    rewrite (open_to_lookup w name2 s' 10 Hmu' Hrp2). rewrite Hfp2.
    apply lookup_miss_loads. rewrite Hs'. exact Hreg.
Qed.

(** [open("a")], first call of the process, on a machine whose linker
    rejects the image. *)
Lemma rejected_load_is_not_cached_witness :
  let w := reject_world in
  let s := init_state in
  pluginsMu s = None ∧
  rp_ptr (realpath w (S (clock s)) (Some (cstring "a")) true) ≠ RNull ∧
  rp_buf (realpath w (S (clock s)) (Some (cstring "a")) true) = "C:\plugins\a" ∧
  plugins s !! "C:\plugins\a" = None ∧
  pluginOpen w (4 + clock s) "C:\plugins\a" = 0%Z ∧
  result_of (open w "a" s) (length (threads s)) =
    Some (Err (open_prefix "a" +:+ GoString_cErr +:+ " error")) ∧
  plugins (open w "a" s) = plugins s ∧
  loads "C:\plugins\a" (open w "a" s) = S (loads "C:\plugins\a" s).
Proof.
  intros w s.
  assert (H1 : pluginsMu s = None) by reflexivity.
  assert (H2 : rp_ptr (realpath w (S (clock s)) (Some (cstring "a")) true) ≠ RNull)
    by (vm_compute; discriminate).
  assert (H3 : rp_buf (realpath w (S (clock s)) (Some (cstring "a")) true) = "C:\plugins\a")
    by (vm_compute; reflexivity).
  assert (H4 : plugins s !! "C:\plugins\a" = None) by reflexivity.
  assert (H5 : pluginOpen w (4 + clock s) "C:\plugins\a" = 0%Z) by reflexivity.
  pose proof (rejected_load_is_not_cached w s "a" _ H1 H2 H3 H4 H5) as (R1 & R2 & _ & _ & R5 & _).
  repeat (split; [assumption|]). exact R5.
Defined.

(** * Further properties *)

(** ** The symbol loop in any order *)

Lemma materialize_entries w h pp name tbl u m :
  materialize w h pp name tbl u = MOk m →
  NoDup (keys tbl) →
  (∀ e, e ∈ tbl → m !! sym_key e.1 = Some (materialized w h pp e)) ∧
  (∀ k, k ∉ keys tbl → m !! k = u !! k).
Proof.
  revert u. induction tbl as [|[n v] rest IH]; intros u H Hnd; simpl in H.
  - injection H as <-. split; [intros e He; inversion He|done].
  - destruct n as [|c r]; [discriminate|].
    case_bool_decide as Hp; [discriminate|].
    change (keys ((String c r, v) :: rest)) with (sym_key (String c r) :: keys rest) in *.
    apply NoDup_cons in Hnd as [Hnin Hnd].
    destruct (IH _ H Hnd) as [He Hk]. split.
    + intros e Hin. apply elem_of_cons in Hin as [->|Hin]; [|by apply He].
      cbn [fst]. rewrite (Hk _ Hnin). by rewrite lookup_insert_eq.
    + intros k Hnk. apply not_elem_of_cons in Hnk as [Hne Hnk].
      rewrite (Hk _ Hnk). by rewrite lookup_insert_ne.
Qed.

Lemma materialize_succeeds w h pp name tbl u :
  (∀ symName sym, (symName, sym) ∈ tbl → symName ≠ EmptyString ∧ resolves w h pp symName) →
  ∃ m, materialize w h pp name tbl u = MOk m.
Proof.
  intros Hall.
  destruct (materialize_total w h pp name tbl u) as [Hok|(n & v & Hin & Hnr & _)].
  - intros n v Hin. by destruct (Hall n v Hin).
  - done.
  - by destruct (Hall n v Hin).
Qed.

Lemma keys_perm tbl tbl' : tbl ≡ₚ tbl' → keys tbl ≡ₚ keys tbl'.
Proof. intros H. unfold keys. by rewrite H. Qed.

Lemma keys_math_tbl : NoDup (keys math_tbl).
Proof.
  change (keys math_tbl) with ["Add"; "Pi"].
  apply NoDup_cons. split; [|apply NoDup_singleton].
  intros H. apply list_elem_of_singleton in H. discriminate.
Qed.

(** X1: the symbol loop ranges over a Go map, whose order is not fixed.
    When no two exports of the table share a key (the name without the
    leading ['.']), then if the loop succeeds for one order of the table
    it succeeds for every order, with the same directory. *)
Theorem materialize_any_order w h pp name tbl tbl' m :
  tbl ≡ₚ tbl' →
  NoDup (keys tbl) →
  materialize w h pp name tbl ∅ = MOk m →
  materialize w h pp name tbl' ∅ = MOk m.
Proof.
  intros Hp Hnd Hm.
  pose proof (materialize_ok _ _ _ _ _ _ _ Hm) as (_ & _ & Hall).
  destruct (materialize_succeeds w h pp name tbl' ∅) as [m' Hm'].
  { intros n v Hin. apply (Hall n v). by rewrite Hp. }
  rewrite Hm'. f_equal.
  assert (Hnd' : NoDup (keys tbl')) by (by rewrite <- (keys_perm _ _ Hp)).
  destruct (materialize_entries _ _ _ _ _ _ _ Hm Hnd) as [He Hk].
  destruct (materialize_entries _ _ _ _ _ _ _ Hm' Hnd') as [He' Hk'].
  apply map_eq. intros k.
  destruct (decide (k ∈ keys tbl)) as [Hin|Hnin].
  - apply list_elem_of_fmap in Hin as (e & -> & Hin).
    rewrite (He _ Hin). rewrite He'; [done|]. by rewrite <- Hp.
  - rewrite (Hk _ Hnin). rewrite Hk'; [done|]. by rewrite <- (keys_perm _ _ Hp).
Qed.

(** The table of [math], in its two orders. *)
Lemma materialize_any_order_witness :
  let w := math_world math_tbl in
  math_tbl ≡ₚ [sym_Pi; sym_Add] ∧
  NoDup (keys math_tbl) ∧
  materialize w 4194304 "math" "math" math_tbl ∅ = MOk math_syms ∧
  materialize w 4194304 "math" "math" [sym_Pi; sym_Add] ∅ = MOk math_syms.
Proof.
  intros w.
  assert (H1 : math_tbl ≡ₚ [sym_Pi; sym_Add]) by apply Permutation_swap.
  assert (H2 : NoDup (keys math_tbl)) by apply keys_math_tbl.
  assert (H3 : materialize w 4194304 "math" "math" math_tbl ∅ = MOk math_syms)
    by (vm_compute; reflexivity).
  split; [exact H1|]. split; [exact H2|]. split; [exact H3|].
  exact (materialize_any_order w 4194304 "math" "math" _ _ _ H1 H2 H3).
Defined.

(** ** [open], then [lookup] *)

Lemma materialize_size_le w h pp name tbl u m :
  materialize w h pp name tbl u = MOk m → size m ≤ length tbl + size u.
Proof.
  revert u. induction tbl as [|[n v] rest IH]; intros u H; simpl in H.
  - injection H as <-. simpl. lia.
  - destruct n as [|c r]; [discriminate|].
    case_bool_decide as Hp; [discriminate|].
    apply IH in H. simpl.
    match type of H with
    | _ ≤ _ + size (<[?k:=?x]> u) =>
        pose proof (map_size_insert k x u) as Hs; destruct (u !! k); unfold id in Hs; lia
    end.
Qed.

Lemma materialize_size w h pp name tbl u m :
  materialize w h pp name tbl u = MOk m →
  NoDup (keys tbl) → (∀ k, k ∈ keys tbl → u !! k = None) →
  size m = length tbl + size u.
Proof.
  revert u. induction tbl as [|[n v] rest IH]; intros u H Hnd Hd; simpl in H.
  - by injection H as <-.
  - destruct n as [|c r]; [discriminate|].
    case_bool_decide as Hp; [discriminate|].
    change (keys ((String c r, v) :: rest)) with (sym_key (String c r) :: keys rest) in *.
    apply NoDup_cons in Hnd as [Hnin Hnd].
    rewrite (IH _ H Hnd).
    + rewrite map_size_insert_None; [simpl; lia|]. apply Hd. by left.
    + intros k Hk. rewrite lookup_insert_ne; [apply Hd; by right|].
      intros <-. done.
Qed.

(** X2: [lookup] on the directory the symbol loop built for a table
    without shared keys.  Every export was resolved by the linker and is
    found under its key, with its type word and the resolved address
    (an export with a nil type word reads as not found); every other
    name is not found; the directory has one entry per export. *)
Theorem materialize_then_lookup w h pp name tbl P :
  materialize w h pp name tbl ∅ = MOk (syms P) →
  NoDup (keys tbl) →
  (∀ e, e ∈ tbl →
     resolves w h pp e.1 ∧
     lookup P (sym_key e.1) =
       if bool_decide (ityp e.2 ≠ 0%Z) then inl (materialized w h pp e)
       else inr (not_found (sym_key e.1) (pluginpath P))) ∧
  (∀ k, k ∉ keys tbl → lookup P k = inr (not_found k (pluginpath P))) ∧
  size (syms P) = length tbl.
Proof.
  intros Hm Hnd.
  destruct (materialize_entries _ _ _ _ _ _ _ Hm Hnd) as [He Hk].
  pose proof (materialize_ok _ _ _ _ _ _ _ Hm) as (_ & _ & Hall).
  split; [|split].
  - intros [n v] Hin. split; [by destruct (Hall n v Hin)|].
    unfold lookup. rewrite (He _ Hin). simpl. done.
  - intros k Hnk. unfold lookup. rewrite (Hk _ Hnk), lookup_empty. simpl. done.
  - rewrite (materialize_size _ _ _ _ _ _ _ Hm Hnd); [by rewrite map_size_empty; lia|].
    intros k _. apply lookup_empty.
Qed.

(** The directory of [math]. *)
Lemma materialize_then_lookup_witness :
  let w := math_world math_tbl in
  materialize w 4194304 "math" "math" math_tbl ∅ = MOk (syms math_loaded) ∧
  NoDup (keys math_tbl) ∧
  (∀ k, k ∉ keys math_tbl → lookup math_loaded k = inr (not_found k "math")) ∧
  size (syms math_loaded) = 2.
Proof.
  intros w.
  assert (H1 : materialize w 4194304 "math" "math" math_tbl ∅ = MOk (syms math_loaded))
    by (vm_compute; reflexivity).
  assert (H2 : NoDup (keys math_tbl)) by apply keys_math_tbl.
  split; [exact H1|]. split; [exact H2|].
  exact (proj2 (materialize_then_lookup w 4194304 "math" "math" math_tbl math_loaded H1 H2)).
Defined.

(** ** [open], one call at a time *)

Lemma lookup_snoc_here {A} (l : list A) (x : A) : (l ++ [x]) !! length l = Some x.
Proof. by apply list_lookup_middle. Qed.





(** The call found a loaded record: three more steps and it returns it. *)
Lemma lookup_hit_loaded w s name fp p P n :
  plugins s !! fp = Some p → heap s !! p = Some P →
  err P = EmptyString → loaded P = ChClosed →
  run_alone w (length (threads s)) (4 + n) (at_lookup s name fp) =
  {| plugins := plugins s; heap := heap s; pluginsMu := None;
     threads := threads s ++ [{| tname := name; tfilepath := fp; tpc := PDone (Ok p) |}];
     trace := (length (threads s), EvWake p) :: (length (threads s), EvReadErr p) ::
              (length (threads s), EvUnlock) ::
              (length (threads s), EvMapLookup fp (Some p)) :: trace (at_lookup s name fp) |}.
Proof.
  intros Hreg Hheap Herr Hld. unfold at_lookup.
  change (4 + n) with (S (S (S (S n)))).
  rewrite run_alone_S. seq_step. rewrite Hreg. simpl; rewrite ?insert_snoc.
  rewrite run_alone_S. seq_step.
  rewrite run_alone_S. seq_step. rewrite Hheap. simpl.
  rewrite bool_decide_eq_false_2 by (by intros ?). simpl; rewrite ?insert_snoc.
  rewrite run_alone_S. seq_step. rewrite Hheap. simpl.
  rewrite bool_decide_eq_true_2 by done. simpl; rewrite ?insert_snoc.
  destruct n; [done|]. rewrite run_alone_S. seq_step. done.
Qed.

(** X4: an [open], no other call moving, that resolves to a path whose
    record is loaded returns that very record, calls neither the linker
    nor an initializer, and leaves the registry and the records as they
    were. *)
Theorem reopen_returns_same_record w s name fp p P :
  pluginsMu s = None →
  rp_ptr (realpath w (S (clock s)) (Some (cstring name)) true) ≠ RNull →
  rp_buf (realpath w (S (clock s)) (Some (cstring name)) true) = fp →
  plugins s !! fp = Some p →
  heap s !! p = Some P →
  err P = EmptyString →
  loaded P = ChClosed →
  let s' := open w name s in
  result_of s' (length (threads s)) = Some (Ok p) ∧
  plugins s' = plugins s ∧ heap s' = heap s ∧ pluginsMu s' = None ∧
  (∀ fp', loads fp' s' = loads fp' s) ∧
  count_ev is_init (trace s') = count_ev is_init (trace s).
Proof.
  intros Hmu Hrp Hfp Hreg Hheap Herr Hld s'. subst s'. unfold open.
  rewrite (open_to_lookup w name s 10 Hmu Hrp). rewrite Hfp.
  pose proof (lookup_hit_loaded w s name fp p P 6 Hreg Hheap Herr Hld) as E.
  change (4 + 6) with 10 in E. rewrite E.
  rewrite result_of_snoc. simpl. repeat split.
Qed.

(** [open("math")] twice. *)
Lemma reopen_returns_same_record_witness :
  let w := math_world math_tbl in
  let s := open w "math" init_state in
  let fp := "C:\plugins\math" in
  pluginsMu s = None ∧
  rp_ptr (realpath w (S (clock s)) (Some (cstring "math")) true) ≠ RNull ∧
  rp_buf (realpath w (S (clock s)) (Some (cstring "math")) true) = fp ∧
  plugins s !! fp = Some 0 ∧
  heap s !! 0 = Some math_loaded ∧
  result_of s 0 = Some (Ok 0) ∧
  result_of (open w "math" s) 1 = Some (Ok 0) ∧
  heap (open w "math" s) = heap s ∧
  loads fp (open w "math" s) = loads fp s.
Proof.
  intros w s fp.
  assert (H1 : pluginsMu s = None) by (vm_compute; reflexivity).
  assert (H2 : rp_ptr (realpath w (S (clock s)) (Some (cstring "math")) true) ≠ RNull)
    by (vm_compute; discriminate).
  assert (H3 : rp_buf (realpath w (S (clock s)) (Some (cstring "math")) true) = fp)
    by (vm_compute; reflexivity).
  assert (H4 : plugins s !! fp = Some 0) by (vm_compute; reflexivity).
  assert (H5 : heap s !! 0 = Some math_loaded) by (vm_compute; reflexivity).
  assert (H6 : err math_loaded = EmptyString) by reflexivity.
  assert (H7 : loaded math_loaded = ChClosed) by reflexivity.
  pose proof (reopen_returns_same_record w s "math" fp 0 math_loaded H1 H2 H3 H4 H5 H6 H7)
    as (R1 & _ & R3 & _ & R5 & _).
  split; [exact H1|]. split; [exact H2|]. split; [exact H3|]. split; [exact H4|].
  split; [exact H5|]. split; [vm_compute; reflexivity|].
  split; [exact R1|]. split; [exact R3|]. exact (R5 fp).
Defined.

(** X5: an [open] that finds the record of its path still pending
    stands at [<-p.loaded] after five steps, and after any number of
    further steps of its own: it has returned nothing, the mutex is free
    and the registry and the records are as before. *)
Theorem open_waits_for_pending w s name fp p P n :
  pluginsMu s = None →
  rp_ptr (realpath w (S (clock s)) (Some (cstring name)) true) ≠ RNull →
  rp_buf (realpath w (S (clock s)) (Some (cstring name)) true) = fp →
  plugins s !! fp = Some p →
  heap s !! p = Some P →
  err P = EmptyString →
  loaded P ≠ ChClosed →
  let s' := run_alone w (length (threads s)) (5 + n) (spawn name s) in
  pc_of s' (length (threads s)) = Some (PWait p) ∧
  result_of s' (length (threads s)) = None ∧
  plugins s' = plugins s ∧ heap s' = heap s ∧ pluginsMu s' = None.
Proof.
  intros Hmu Hrp Hfp Hreg Hheap Herr Hld s'. subst s'.
  change (5 + n) with (S (S (3 + n))).
  rewrite (open_to_lookup w name s (3 + n) Hmu Hrp). rewrite Hfp.
  rewrite (lookup_hit_pending w s name fp p P n Hreg Hheap Herr Hld).
  rewrite result_of_snoc. unfold pc_of. simpl. rewrite lookup_snoc_here. done.
Qed.

(** A second [open("math")] while the first stands at the initializer. *)
Lemma open_waits_for_pending_witness :
  let w := math_init_world in
  let s := runs w until_init_call in
  let fp := "C:\plugins\math" in
  pluginsMu s = None ∧
  rp_ptr (realpath w (S (clock s)) (Some (cstring "math")) true) ≠ RNull ∧
  rp_buf (realpath w (S (clock s)) (Some (cstring "math")) true) = fp ∧
  plugins s !! fp = Some 0 ∧
  heap s !! 0 = Some math_pending ∧
  pc_of (run_alone w 1 (5 + 7) (spawn "math" s)) 1 = Some (PWait 0) ∧
  result_of (run_alone w 1 (5 + 7) (spawn "math" s)) 1 = None.
Proof.
  intros w s fp.
  assert (H1 : pluginsMu s = None) by (vm_compute; reflexivity).
  assert (H2 : rp_ptr (realpath w (S (clock s)) (Some (cstring "math")) true) ≠ RNull)
    by (vm_compute; discriminate).
  assert (H3 : rp_buf (realpath w (S (clock s)) (Some (cstring "math")) true) = fp)
    by (vm_compute; reflexivity).
  assert (H4 : plugins s !! fp = Some 0) by (vm_compute; reflexivity).
  assert (H5 : heap s !! 0 = Some math_pending) by (vm_compute; reflexivity).
  assert (H6 : err math_pending = EmptyString) by reflexivity.
  assert (H7 : loaded math_pending ≠ ChClosed) by discriminate.
  pose proof (open_waits_for_pending w s "math" fp 0 math_pending 7 H1 H2 H3 H4 H5 H6 H7)
    as (R1 & R2 & _).
  split; [exact H1|]. split; [exact H2|]. split; [exact H3|]. split; [exact H4|].
  split; [exact H5|]. split; [exact R1|exact R2].
Defined.

(** X6: line 251 says that [open] can be called from the initializer of a
    plugin.  While a loading call stands at the call of the initializer,
    an [open] that resolves to the path being loaded finds the
    placeholder and stands at [<-p.loaded] for as long as it is the only
    call that moves; the loading call stands where it was. *)
Theorem open_from_own_initializer_waits w s t th h pp tbl p a name n :
  reachable w s →
  threads s !! t = Some th →
  tpc th = PInitCall h pp tbl p a →
  pluginsMu s = None →
  rp_ptr (realpath w (S (clock s)) (Some (cstring name)) true) ≠ RNull →
  rp_buf (realpath w (S (clock s)) (Some (cstring name)) true) = tfilepath th →
  let s' := run_alone w (length (threads s)) (5 + n) (spawn name s) in
  pc_of s' (length (threads s)) = Some (PWait p) ∧
  pc_of s' t = Some (PInitCall h pp tbl p a) ∧
  heap s' = heap s.
Proof.
  intros Hr Hth Hpc Hmu Hrp Hfp s'.
  apply reachable_Inv in Hr.
  assert (Ho : owner_of (tpc th) = Some (h, pp, tbl, p)) by (by rewrite Hpc).
  assert (Hp : held_ptr (tpc th) = Some p) by (by rewrite Hpc).
  destruct (inv_owner _ _ Hr _ _ _ _ _ _ Hth Ho) as (_ & P & HP & _ & He & Hl & _).
  pose proof (inv_held _ _ Hr _ _ _ Hth Hp) as Hreg.
  assert (Hnc : loaded P ≠ ChClosed) by (by rewrite Hl).
  subst s'. change (5 + n) with (S (S (3 + n))).
  rewrite (open_to_lookup w name s (3 + n) Hmu Hrp). rewrite Hfp.
  rewrite (lookup_hit_pending w s name _ p P n Hreg HP He Hnc).
  unfold pc_of. simpl. rewrite lookup_snoc_here. split; [done|]. split; [|done].
  rewrite lookup_app_l by (by eapply lookup_lt_Some).
  unfold tid in *. rewrite Hth. simpl. by rewrite Hpc.
Qed.

(** [open("math")] while the call that loads [math] stands at the
    initializer. *)
Lemma open_from_own_initializer_waits_witness :
  let w := math_init_world in
  let s := runs w until_init_call in
  let th := {| tname := "math"; tfilepath := "C:\plugins\math";
               tpc := PInitCall 4194304 "math" math_tbl 0 4206592 |} in
  reachable w s ∧
  threads s !! 0 = Some th ∧
  pluginsMu s = None ∧
  rp_ptr (realpath w (S (clock s)) (Some (cstring "math")) true) ≠ RNull ∧
  rp_buf (realpath w (S (clock s)) (Some (cstring "math")) true) = tfilepath th ∧
  pc_of (run_alone w 1 (5 + 7) (spawn "math" s)) 1 = Some (PWait 0) ∧
  pc_of (run_alone w 1 (5 + 7) (spawn "math" s)) 0 =
    Some (PInitCall 4194304 "math" math_tbl 0 4206592).
Proof.
  intros w s th.
  assert (H0 : reachable w s).
  { apply run_reachable with (acts := until_init_call). vm_compute. reflexivity. }
  assert (H1 : threads s !! 0 = Some th) by (vm_compute; reflexivity).
  assert (H2 : tpc th = PInitCall 4194304 "math" math_tbl 0 4206592) by reflexivity.
  assert (H3 : pluginsMu s = None) by (vm_compute; reflexivity).
  assert (H4 : rp_ptr (realpath w (S (clock s)) (Some (cstring "math")) true) ≠ RNull)
    by (vm_compute; discriminate).
  assert (H5 : rp_buf (realpath w (S (clock s)) (Some (cstring "math")) true) = tfilepath th)
    by (vm_compute; reflexivity).
  pose proof (open_from_own_initializer_waits w s 0 th _ _ _ _ _ "math" 7 H0 H1 H2 H3 H4 H5)
    as (R1 & R2 & _).
  split; [exact H0|]. split; [exact H1|]. split; [exact H3|]. split; [exact H4|].
  split; [exact H5|]. split; [exact R1|exact R2].
Defined.




(** ** What is settled, and the mutex *)

(** X8: what is settled stays.  In every continuation of the process,
    an entry of the registry keeps its record, a record that is loaded or
    failed is never written again, and a call that has returned keeps its
    result. *)
Theorem settled_is_forever w acts s s' :
  reachable w s →
  run w acts s = Some s' →
  (∀ fp p, plugins s !! fp = Some p → plugins s' !! fp = Some p) ∧
  (∀ p P, heap s !! p = Some P → loaded P = ChClosed ∨ err P ≠ EmptyString →
     heap s' !! p = Some P) ∧
  (∀ t r, result_of s t = Some r → result_of s' t = Some r).
Proof.
  revert s. induction acts as [|a acts IH]; intros s Hr H; simpl in H.
  - by injection H as <-.
  - destruct (exec w a s) as [s1|] eqn:E; simpl in H; [|done].
    destruct (exec_keeps w a s s1 (reachable_Inv _ _ Hr) E) as (K1 & K2 & K3).
    destruct (IH s1 (reach_exec _ _ _ _ Hr E) H) as (J1 & J2 & J3).
    split; [|split]; eauto.
Qed.

(** A second [open("math")] after the first has returned. *)
Lemma settled_is_forever_witness :
  let w := math_world math_tbl in
  let s := open w "math" init_state in
  let s' := default s (run w second_call s) in
  reachable w s ∧
  run w second_call s = Some s' ∧
  (plugins s !! "C:\plugins\math" = Some 0 → plugins s' !! "C:\plugins\math" = Some 0) ∧
  (heap s !! 0 = Some math_loaded → heap s' !! 0 = Some math_loaded) ∧
  (result_of s 0 = Some (Ok 0) → result_of s' 0 = Some (Ok 0)).
Proof.
  intros w s s'.
  assert (H0 : reachable w s) by (apply open_reachable; constructor).
  assert (H1 : run w second_call s = Some s') by (vm_compute; reflexivity).
  pose proof (settled_is_forever w second_call s s' H0 H1) as (R1 & R2 & R3).
  split; [exact H0|]. split; [exact H1|]. split; [exact (R1 _ _)|].
  split; [|exact (R3 _ _)].
  intros HP. apply (R2 _ _ HP). by left.
Defined.

(** X9: [pluginsMu] excludes.  In every state of the process at most one
    call stands between its [Lock] and its [Unlock]; the mutex is held
    only by a call that stands there; and it is free when no call does. *)
Theorem mutex_exclusion w s :
  reachable w s →
  (∀ t1 th1 t2 th2, threads s !! t1 = Some th1 → threads s !! t2 = Some th2 →
     in_crit (tpc th1) = true → in_crit (tpc th2) = true → t1 = t2) ∧
  (∀ t, pluginsMu s = Some t → ∃ th, threads s !! t = Some th ∧ in_crit (tpc th) = true) ∧
  ((∀ t th, threads s !! t = Some th → in_crit (tpc th) = false) → pluginsMu s = None).
Proof.
  intros Hr. apply reachable_Inv in Hr. pose proof (inv_mutex _ _ Hr) as Hmu.
  split; [|split].
  - intros t1 th1 t2 th2 H1 H2 C1 C2. by eapply (mutex_excl s).
  - intros t Ht. destruct Hmu as [Hm Hlt].
    destruct (lookup_lt_is_Some_2 _ _ (Hlt _ Ht)) as [th Hth].
    exists th. split; [done|]. by apply (Hm _ _ Hth).
  - intros Hnone. destruct (pluginsMu s) as [t|] eqn:E; [|done].
    destruct Hmu as [Hm Hlt].
    destruct (lookup_lt_is_Some_2 _ _ (Hlt _ E)) as [th Hth].
    pose proof (Hnone _ _ Hth) as Hf. apply (Hm _ _ Hth) in E. congruence.
Qed.

(** Two calls of [open("math")], the first at the native load. *)
Lemma mutex_exclusion_witness :
  let w := math_world math_tbl in
  let s := runs w second_at_lock in
  reachable w s ∧
  pluginsMu s = Some 0 ∧
  ∃ th, threads s !! 0 = Some th ∧ in_crit (tpc th) = true.
Proof.
  intros w s.
  assert (H0 : reachable w s).
  { apply run_reachable with (acts := second_at_lock). vm_compute. reflexivity. }
  assert (H1 : pluginsMu s = Some 0) by (vm_compute; reflexivity).
  split; [exact H0|]. split; [exact H1|].
  exact (proj1 (proj2 (mutex_exclusion w s H0)) 0 H1).
Defined.

(** ** [lastIndexByte], [realpath] and the suffix *)

Lemma get_lt (s : string) i c : String.get i s = Some c → i < String.length s.
Proof.
  revert i. induction s as [|a r IH]; intros [|i] H; simpl in *; try done; try lia.
  apply IH in H. lia.
Qed.

Lemma lastIndexByte_loop_spec s c n :
  let r := lastIndexByte_loop s c n in
  (r = (-1)%Z ∧ ∀ i, i < n → String.get i s ≠ Some c) ∨
  (∃ i, r = Z.of_nat i ∧ i < n ∧ String.get i s = Some c ∧
        ∀ j, i < j → j < n → String.get j s ≠ Some c).
Proof.
  induction n as [|n IH]; simpl.
  - left. split; [done|]. intros i Hi. lia.
  - case_bool_decide as Hg.
    + right. exists n. repeat split; try done; try lia.
    + destruct IH as [[-> Hall]|(i & -> & Hi & Hc & Hlast)].
      * left. split; [done|]. intros i Hi.
        destruct (decide (i = n)) as [->|]; [done|]. apply Hall. lia.
      * right. exists i. repeat split; try done; try lia.
        intros j H1 H2. destruct (decide (j = n)) as [->|]; [done|]. apply Hlast; lia.
Qed.

(** X10: [lastIndexByte(s, c)] is [-1] or an index of [s]; it is [-1]
    exactly when [c] does not occur in [s]; otherwise [s] has [c] at the
    index returned and at no later index. *)
Theorem lastIndexByte_last s c :
  let r := lastIndexByte s c in
  (-1 ≤ r < Z.of_nat (String.length s))%Z ∧
  (r = (-1)%Z ↔ ∀ i, String.get i s ≠ Some c) ∧
  ((0 ≤ r)%Z →
     String.get (Z.to_nat r) s = Some c ∧
     ∀ j, Z.to_nat r < j → String.get j s ≠ Some c).
Proof.
  unfold lastIndexByte.
  destruct (lastIndexByte_loop_spec s c (String.length s))
    as [[Hr Hall]|(i & Hr & Hi & Hc & Hlast)]; simpl in *; rewrite Hr.
  - split; [lia|]. split; [|lia]. split; [|done]. intros _ i Hg.
    apply (Hall i); [by eapply get_lt|done].
  - split; [lia|]. split.
    + split; [lia|]. intros Hall. by apply Hall in Hc.
    + intros _. rewrite Nat2Z.id. split; [done|]. intros j Hj Hg.
      apply (Hlast j); [done|by eapply get_lt|done].
Qed.

(** X11: [realpath], with the caller's buffer or with [malloc].  It
    returns NULL exactly when it stores an [errno]; a NULL [path] gives
    [EINVAL]; and when it returns a buffer, that is the caller's buffer
    if one was given and a buffer of [malloc] otherwise, [stat]
    succeeded on its contents, and the contents are what
    [GetFullPathNameA] wrote for [path], with a size that is not [0] and
    not larger than the buffer ([PATH_MAX] for the caller's buffer). *)
Theorem realpath_result w clk path resolved_path :
  let r := realpath w clk path resolved_path in
  (rp_ptr r = RNull ↔ is_Some (rp_errno r)) ∧
  (path = None → rp_errno r = Some EINVAL) ∧
  (rp_ptr r ≠ RNull →
     rp_ptr r = (if resolved_path then RCaller else RMalloc) ∧
     stat w clk (rp_buf r) = None ∧
     ∃ p size n, path = Some p ∧ GetFullPathNameA w clk p size = (n, rp_buf r) ∧
                 n ≠ 0%Z ∧ (n ≤ size)%Z ∧
                 (resolved_path = true → size = PATH_MAX w)).
Proof.
  unfold realpath. destruct path as [p|]; simpl.
  2:{ split; [split; eauto|]. split; [done|]. done. }
  destruct resolved_path; simpl.
  - destruct (GetFullPathNameA w clk p (PATH_MAX w)) as [size buf] eqn:E.
    case_bool_decide as H1; simpl.
    + case_bool_decide; simpl; (split; [split; eauto|]); split; done.
    + case_bool_decide as H2; simpl.
      { split; [split; eauto|]. split; done. }
      destruct (stat w clk buf) eqn:Es; simpl.
      { split; [split; eauto|]. split; done. }
      split; [split; [done|by intros [? ?]]|]. split; [done|].
      intros _. split; [done|]. split; [done|].
      exists p, (PATH_MAX w), size. repeat split; try done. lia.
  - destruct (malloc w clk (PATH_MAX w)) eqn:Em; simpl.
    2:{ split; [split; eauto|]. split; done. }
    destruct (GetFullPathNameA w clk p (PATH_MAX w)) as [size buf] eqn:E.
    case_bool_decide as H1; simpl.
    + destruct (malloc w clk size) eqn:Em2; simpl.
      2:{ case_bool_decide; simpl; (split; [split; eauto|]); split; done. }
      destruct (GetFullPathNameA w clk p size) as [new_size buf'] eqn:E2.
      case_bool_decide as H3; simpl.
      { case_bool_decide; simpl; (split; [split; eauto|]); split; done. }
      case_bool_decide as H2; simpl.
      { split; [split; eauto|]. split; done. }
      destruct (stat w clk buf') eqn:Es; simpl.
      { split; [split; eauto|]. split; done. }
      split; [split; [done|by intros [? ?]]|]. split; [done|].
      intros _. split; [done|]. split; [done|].
      exists p, size, new_size. repeat split; try done. lia.
    + case_bool_decide as H2; simpl.
      { split; [split; eauto|]. split; done. }
      destruct (stat w clk buf) eqn:Es; simpl.
      { split; [split; eauto|]. split; done. }
      split; [split; [done|by intros [? ?]]|]. split; [done|].
      intros _. split; [done|]. split; [done|].
      exists p, (PATH_MAX w), size. repeat split; try done. lia.
Qed.

Lemma take_drop_str n s : take_str n s +:+ drop_str n s = s.
Proof.
  revert s. induction n as [|n IH]; intros [|c r]; try done.
  change (String c (take_str n r +:+ drop_str n r) = String c r). by rewrite IH.
Qed.

(** X12: the name that [open] reports after line 236 is the name it was
    given, or that name without one final [.so]; it is never empty for a
    name that is not, and never longer. *)
Theorem strip_so_cuts_one_suffix (name : string) :
  (strip_so name = name ∨ name = strip_so name +:+ ".so") ∧
  (name ≠ EmptyString → strip_so name ≠ EmptyString) ∧
  String.length (strip_so name) ≤ String.length name.
Proof.
  unfold strip_so.
  destruct (bool_decide (3 < String.length name)) eqn:E1; simpl.
  2:{ split; [by left|]. split; [done|lia]. }
  apply bool_decide_eq_true_1 in E1.
  case_bool_decide as E2.
  2:{ split; [by left|]. split; [done|lia]. }
  pose proof (take_drop_str (String.length name - 3) name) as Htd.
  split; [right; by rewrite <- E2, Htd|]. split.
  - intros _ He. rewrite E2, He in Htd. rewrite <- Htd in E1. simpl in E1. lia.
  - assert (Hl : String.length name =
      String.length (take_str (String.length name - 3) name +:+
                     drop_str (String.length name - 3) name)) by (by rewrite Htd).
    rewrite length_append_str in Hl. lia.
Qed.

(** ** Calls that cannot move *)

Lemma waits_inv_reachable w s : reachable w s → waits_inv s.
Proof.
  revert s. apply reachable_ind'.
  - intros t th p H; done.
  - intros s name _ IH t th p H Hpc.
    apply lookup_snoc_Some in H as [H|[-> ->]]; [by eapply IH|done].
  - intros s t s' _ IH H t' th' p' H' Hpc.
    pose proof (step_record w t s s') as Hrec. specialize (λ p P, Hrec p P H).
    step_inv H; simpl in *.
    all: thread_cases H' Hth; simpl in *; try done.
    all: try (destruct (IH _ _ _ H' Hpc) as (P' & HP' & He');
              destruct (Hrec _ _ HP') as (P2 & HP2 & He2 & _);
              exists P2; split; [done|congruence]).
    injection Hpc as <-. exists P. split; [done|].
    destruct (decide (err P = EmptyString)); done.
Qed.

Lemma blocked_cases w s t th :
  reachable w s → threads s !! t = Some th → open_step w t s = None → blocked s t th.
Proof.
  intros Hr Hth H. pose proof (waits_inv_reachable _ _ Hr) as Hw.
  apply reachable_Inv in Hr.
  assert (Hheld : ∀ p, held_ptr (tpc th) = Some p →
            plugins s !! tfilepath th = Some p ∧ ∃ P, heap s !! p = Some P).
  { intros p Hp. pose proof (inv_held _ _ Hr _ _ _ Hth Hp) as Hreg.
    split; [done|]. apply lookup_lt_is_Some_2. by eapply (inv_reg _ _ Hr). }
  unfold open_step in H. rewrite Hth in H. simpl in H. unfold open_body in H.
  unfold blocked.
  destruct (tpc th) eqn:Hpc; simpl in H.
  all: try discriminate.
  all: try (by case_bool_decide).
  all: try (destruct (Hheld _ eq_refl) as (Hreg & P & HP); rewrite HP in H; simpl in H).
  all: try (by case_bool_decide).
  all: try (by right; right; left; eauto).
  all: try (by right; right; right).
  - destruct (pluginsMu s) as [t'|] eqn:Hmu; [|done].
    left. split; [done|]. exists t'. split; [done|]. intros ->.
    destruct (inv_mutex _ _ Hr) as [Hm _]. apply (Hm _ _ Hth) in Hmu.
    rewrite Hpc in Hmu. done.
  - by destruct (plugins s !! tfilepath th).
  - right. left. exists p, P. split; [done|]. split; [done|]. split; [done|].
    destruct (Hw _ _ _ Hth Hpc) as (P' & HP' & He). rewrite HP in HP'. injection HP' as <-.
    split; [done|].
    destruct (inv_record _ _ Hr _ _ HP) as (_ & _ & _ & _ & _ & _ & Hn & _).
    case_bool_decide; [done|]. specialize (Hn He). by destruct (loaded P).
  - by destruct (lastmoduleinit w (clock s) h) as [[? ?] ?]; case_bool_decide.
  - by destruct (materialize w h pp (tname th) tbl ∅).
  - destruct (Hheld p eq_refl) as (Hreg & P & HP). rewrite HP in H. done.
  - destruct (Hheld p eq_refl) as (Hreg & P & HP). rewrite HP in H. simpl in H.
    by case_bool_decide.
Qed.

(** X13: in every state of the process, a call of [open] that is not at
    the call of the initializer (line 268, which is code of the module
    and returns when the module lets it) cannot take a step exactly when
    it waits at [Lock] for the mutex another call holds, or waits at
    [<-p.loaded] for the pending record of its path, or has returned, or
    has panicked.  In particular no statement of [open] reads through a
    nil [*Plugin]. *)
Theorem blocked_only_on_lock_or_channel w s t th :
  reachable w s →
  threads s !! t = Some th →
  (∀ h pp tbl p initFuncPC, tpc th ≠ PInitCall h pp tbl p initFuncPC) →
  open_step w t s = None ↔ blocked s t th.
Proof.
  intros Hr Hth _. split; [by apply blocked_cases|].
  unfold open_step. rewrite Hth. simpl. unfold open_body.
  intros [[Hpc (t' & Ht' & _)]|[(p & P & Hpc & _ & HP & _ & Hl)|[[r Hpc]|Hpc]]];
    rewrite Hpc.
  - by rewrite Ht'.
  - unfold ptr in *. rewrite HP. simpl. rewrite bool_decide_eq_false_2; [done|]. congruence.
  - done.
  - done.
Qed.

(** The second of two calls, at [pluginsMu.Lock()] while the first holds
    the mutex. *)
Lemma blocked_only_on_lock_or_channel_witness :
  let w := math_world math_tbl in
  let s := runs w second_at_lock in
  let th := {| tname := "math"; tfilepath := "C:\plugins\math"; tpc := PLock |} in
  reachable w s ∧
  threads s !! 1 = Some th ∧
  (∀ h pp tbl p initFuncPC, tpc th ≠ PInitCall h pp tbl p initFuncPC) ∧
  open_step w 1 s = None ∧
  blocked s 1 th.
Proof.
  intros w s th.
  assert (H0 : reachable w s).
  { apply run_reachable with (acts := second_at_lock). vm_compute. reflexivity. }
  assert (H1 : threads s !! 1 = Some th) by (vm_compute; reflexivity).
  assert (H2 : open_step w 1 s = None) by (vm_compute; reflexivity).
  assert (H3 : ∀ h pp tbl p initFuncPC, tpc th ≠ PInitCall h pp tbl p initFuncPC)
    by (intros; discriminate).
  split; [exact H0|]. split; [exact H1|]. split; [exact H3|]. split; [exact H2|].
  exact (proj1 (blocked_only_on_lock_or_channel w s 1 th H0 H1 H3) H2).
Defined.

Lemma step_decreases w t s s' th :
  threads s !! t = Some th → open_step w t s = Some s' →
  ∃ th', threads s' !! t = Some th' ∧ steps_left (tpc th') < steps_left (tpc th).
Proof.
  intros Hth0 H. step_inv H; simpl in *.
  all: injection Hth0 as <-; simpl.
  all: eexists; split; [apply list_lookup_insert_eq; by eapply lookup_lt_Some|simpl; lia].
Qed.

Lemma steps_left_0 w t s th :
  threads s !! t = Some th → steps_left (tpc th) = 0 → open_step w t s = None.
Proof.
  intros Hth H0. unfold open_step. rewrite Hth. simpl. unfold open_body.
  by destruct (tpc th).
Qed.

Lemma run_alone_ends w t n s th :
  threads s !! t = Some th → steps_left (tpc th) ≤ n →
  open_step w t (run_alone w t n s) = None.
Proof.
  revert s th. induction n as [|n IH]; intros s th Hth Hn.
  - eapply steps_left_0; [done|lia].
  - rewrite run_alone_S. destruct (open_step w t s) as [s1|] eqn:E; [|done].
    destruct (step_decreases _ _ _ _ _ Hth E) as (th' & Hth' & Hlt).
    eapply IH; [done|lia].
Qed.

Lemma run_alone_stuck w t n s : open_step w t s = None → run_alone w t n s = s.
Proof. intros H. destruct n; [done|]. rewrite run_alone_S. by rewrite H. Qed.

Lemma run_alone_add w t n m s :
  run_alone w t (n + m) s = run_alone w t m (run_alone w t n s).
Proof.
  revert s. induction n as [|n IH]; intros s; [done|].
  change (S n + m) with (S (n + m)). rewrite !run_alone_S.
  destruct (open_step w t s) as [s1|] eqn:E; [apply IH|].
  by rewrite run_alone_stuck.
Qed.

Lemma run_alone_thread w t n s th :
  threads s !! t = Some th →
  ∃ th', threads (run_alone w t n s) !! t = Some th' ∧
         steps_left (tpc th') ≤ steps_left (tpc th).
Proof.
  revert s th. induction n as [|n IH]; intros s th Hth; [eauto|].
  rewrite run_alone_S. destruct (open_step w t s) as [s1|] eqn:E; [|eauto].
  destruct (step_decreases _ _ _ _ _ Hth E) as (th' & Hth' & Hlt).
  destruct (IH _ _ Hth') as (th2 & H2 & Hle). exists th2. split; [done|lia].
Qed.

(** X14: a call of [open] takes at most twelve steps.  Run alone from any
    state of the process, after twelve steps it cannot move, more fuel
    changes nothing, and it cannot move because it has returned, has
    panicked, or waits for the mutex or for a pending record; if the
    mutex was free when it was called, it does not wait for the mutex. *)
Theorem open_ends_within_twelve_steps w name s :
  reachable w s →
  let t := length (threads s) in
  let s' := open w name s in
  open_step w t s' = None ∧
  (∀ n, run_alone w t (12 + n) (spawn name s) = s') ∧
  (∃ th, threads s' !! t = Some th ∧ blocked s' t th ∧
         (pluginsMu s = None → tpc th ≠ PLock)).
Proof.
  intros Hr t s'.
  assert (Hsp : threads (spawn name s) !! t =
                Some {| tname := name; tfilepath := EmptyString; tpc := PRealpath |}).
  { unfold spawn. simpl. apply list_lookup_middle. done. }
  assert (Hend : open_step w t s' = None).
  { apply (run_alone_ends w t 12 _ _ Hsp). simpl. lia. }
  split; [done|]. split.
  { intros n. rewrite run_alone_add. by apply run_alone_stuck. }
  destruct (run_alone_thread w t 12 _ _ Hsp) as (th & Hth & _).
  exists th. split; [done|]. split.
  { apply (blocked_cases w); [by apply open_reachable|done|done]. }
  intros Hmu Hpc.
  destruct (decide (rp_ptr (realpath w (S (clock s)) (Some (cstring name)) true) = RNull))
    as [Hrp|Hrp].
  - pose proof (open_realpath_fails w name s Hrp) as E. unfold open in E.
    subst t. rewrite E in Hth. simpl in Hth.
    rewrite list_lookup_middle in Hth by done. injection Hth as <-. done.
  - subst t. rewrite (open_to_lookup w name s 10 Hmu Hrp) in Hth.
    match type of Hth with
    | threads (run_alone _ _ _ ?s0) !! _ = _ =>
        assert (Hl : threads s0 !! length (threads s) =
          Some {| tname := name;
                  tfilepath := rp_buf (realpath w (S (clock s)) (Some (cstring name)) true);
                  tpc := PLookup |})
          by (unfold at_lookup; simpl; by apply list_lookup_middle);
        destruct (run_alone_thread w _ 10 s0 _ Hl) as (th2 & H2 & Hle)
    end.
    rewrite Hth in H2. injection H2 as <-. rewrite Hpc in Hle. simpl in Hle. lia.
Qed.

(** The first [open("math")] of the process. *)
Lemma open_ends_within_twelve_steps_witness :
  let w := math_world math_tbl in
  reachable w init_state ∧
  open_step w 0 (open w "math" init_state) = None ∧
  ∀ n, run_alone w 0 (12 + n) (spawn "math" init_state) = open w "math" init_state.
Proof.
  intros w.
  assert (H0 : reachable w init_state) by constructor.
  pose proof (open_ends_within_twelve_steps w "math" init_state H0) as (R1 & R2 & _).
  split; [exact H0|]. split; [exact R1|exact R2].
Defined.

(** ** The errors and the panic of [open] *)


Lemma call_inv_reachable w s : reachable w s → call_inv s.
Proof.
  intros Hr. pose proof Hr as Hr0. revert s Hr0 Hr.
  apply (reachable_ind' w (λ s, reachable w s → call_inv s)).
  - intros _. split; [|split].
    + intros t e H. inversion H.
    + intros t n1 n2 H. inversion H.
    + intros t th H. done.
  - intros s name Hr IH _. destruct (IH Hr) as (Hb & Hu & Hn). split; [|split].
    + intros t e Hin. simpl in *. rewrite length_app. simpl.
      apply elem_of_cons in Hin as [Heq|Hin]; [injection Heq as -> ->; lia|].
      apply Hb in Hin. lia.
    + intros t n1 n2 H1 H2. simpl in *.
      apply elem_of_cons in H1 as [E1|H1]; apply elem_of_cons in H2 as [E2|H2].
      * congruence.
      * injection E1 as -> ->. apply Hb in H2. lia.
      * injection E2 as -> ->. apply Hb in H1. lia.
      * eauto.
    + intros t th H. simpl in *.
      apply lookup_snoc_Some in H as [H|[-> ->]].
      * destruct (Hn _ _ H) as (n0 & Hin & Hst). exists n0. split; [by right|done].
      * exists name. split; [by left|done].
  - intros s t s' Hr IH H _. destruct (IH Hr) as (Hb & Hu & Hn).
    pose proof (reachable_Inv _ _ Hr) as Hi.
    pose proof (inv_errstr _ _ Hi) as Herr.
    split; [|split].
    + intros t' e Hin. step_inv H; simpl in *; rewrite length_insert.
      all: apply elem_of_cons in Hin as [Heq|Hin]; [|by eapply Hb].
      all: injection Heq as -> _; by eapply lookup_lt_Some.
    + intros t' n1 n2 H1 H2. step_inv H; simpl in *.
      all: apply elem_of_cons in H1 as [E1|H1]; [discriminate|].
      all: apply elem_of_cons in H2 as [E2|H2]; [discriminate|].
      all: by eapply Hu.
    + intros t' th' H'.
      assert (Hold : ∀ t0 th0, threads s !! t0 = Some th0 →
                ∃ name0, (t0, EvCall name0) ∈ trace s' ∧ name_state name0 th0).
      { intros t0 th0 H0. destruct (Hn _ _ H0) as (n0 & Hin & Hst). exists n0.
        split; [|done]. step_inv H; simpl; by right. }
      destruct (threads s !! t) as [th0|] eqn:Hth0;
        [|unfold open_step in H; rewrite Hth0 in H; discriminate].
      destruct (Hn _ _ Hth0) as (n0 & Hin0 & Hst0).
      step_inv H; simpl in *.
      all: injection Hth0 as <-.
      all: pose proof (λ pp e, Herr _ _ pp e Hth) as Hee; simpl in Hee.
      all: thread_cases H' Hth; try (by apply Hold).
      all: exists n0; (split; [by right|]).
      all: unfold name_state in *; simpl in *; try done.
      all: try (subst; done).
      * left. by subst.
      * right. left. exists (err P). split; [done|]. by subst.
      * right. right. left. by subst.
      * split; [by subst|]. by eapply Hee.
      * destruct Hst0 as [-> Hne]. right. right. right. left. by exists errstr.
      * apply materialize_err in HMat as (n' & v' & _ & _ & ->).
        right. right. right. right. exists (sym_key n'). by subst.
Qed.






(** ** One call of the initializer per path *)

Lemma inits_by_0 t tr : (∀ e, (t, e) ∉ tr) → inits_by t tr = 0.
Proof.
  induction tr as [|[t' e] r IH]; intros H; simpl; [done|].
  rewrite IH by (intros e' Hin; apply (H e'); by right).
  case_bool_decide as E; simpl; [|done].
  subst. exfalso. apply (H e). by left.
Qed.

Lemma inits_by_elem t a tr : (t, EvInit a) ∈ tr → 1 ≤ inits_by t tr.
Proof.
  induction tr as [|[t' e] r IH]; intros H; [inversion H|].
  apply elem_of_cons in H as [Heq|H]; simpl.
  - injection Heq as <- <-. rewrite bool_decide_eq_true_2 by done. simpl. lia.
  - apply IH in H. lia.
Qed.

Lemma inits_by_cons t t' e tr :
  inits_by t ((t', e) :: tr) =
  (if bool_decide (t' = t) && is_init e then 1 else 0) + inits_by t tr.
Proof. done. Qed.

Lemma init_inv_reachable w s : reachable w s → init_inv w s.
Proof.
  intros Hr. pose proof Hr as Hr0. revert s Hr0 Hr.
  apply (reachable_ind' w (λ s, reachable w s → init_inv w s)).
  - intros _. split; [|split; [|split; [|split]]].
    + done.
    + intros t. simpl. lia.
    + intros t a H. inversion H.
    + intros t th h pp tbl p a H. done.
    + intros t fp p h pp tbl e H. inversion H.
  - intros s name Hr IH _. destruct (IH Hr) as (I1 & I2 & I3 & I4 & I5).
    destruct (call_inv_reachable _ _ Hr) as (Hb & _).
    split; [|split; [|split; [|split]]].
    + intros t th H Hp. simpl in *. rewrite andb_false_r. simpl.
      apply lookup_snoc_Some in H as [H|[-> ->]]; [by eapply I1|].
      apply inits_by_0. intros e Hin. apply Hb in Hin. lia.
    + intros t. simpl. rewrite andb_false_r. simpl. apply I2.
    + intros t a Hin. simpl in *.
      apply elem_of_cons in Hin as [Heq|Hin]; [discriminate|].
      destruct (I3 _ _ Hin) as (th & p & h & pp & tbl & Hth & Hi & Ha).
      exists th, p, h, pp, tbl. split; [by apply lookup_app_l_Some|].
      split; [by right|done].
    + intros t th h pp tbl p a H Hpc. simpl in *.
      apply lookup_snoc_Some in H as [H|[-> ->]]; [by eapply I4|done].
    + intros t fp p h pp tbl e Hin. simpl in *.
      apply elem_of_cons in Hin as [Heq|Hin]; [discriminate|]. by eapply I5.
  - intros s t s' Hr IH H _. destruct (IH Hr) as (I1 & I2 & I3 & I4 & I5).
    pose proof (reachable_Inv _ _ Hr) as Hi.
    pose proof (inv_miss _ _ Hi) as Hmi.
    pose proof (inv_owner _ _ Hi) as Ho.
    split; [|split; [|split; [|split]]].
    + intros t' th' H' Hp. step_inv H.
      all: cbn [trace upd goto goto_mu] in *; rewrite inits_by_cons.
      all: cbn [is_init]; rewrite ?andb_false_r; cbn [Nat.add].
      all: cbn [threads upd goto goto_mu] in H'.
      all: thread_cases H' Hth; try (by eapply I1).
      all: try (apply (I1 _ _ Hth); done).
      all: try done.
      rewrite bool_decide_eq_false_2 by done. simpl. by eapply I1.
    + intros t'. step_inv H.
      all: cbn [trace upd goto goto_mu] in *; rewrite inits_by_cons.
      all: cbn [is_init]; rewrite ?andb_false_r; cbn [Nat.add]; try apply I2.
      rewrite andb_true_r. case_bool_decide as E; simpl; [|apply I2].
      subst. rewrite (I1 _ _ Hth) by done. lia.
    + intros t' a Hin.
      assert (Hkeep : ∀ th, threads s !! t' = Some th → (t', EvInit a) ∈ trace s →
                ∃ th', threads s' !! t' = Some th' ∧ tfilepath th' = tfilepath th).
      { intros th0 H0 Hin0. pose proof (inits_by_elem _ _ _ Hin0) as Hge.
        step_inv H; simpl.
        all: destruct (decide (t' = t)) as [->|Hne];
          [|exists th0; by rewrite list_lookup_insert_ne].
        all: rewrite Hth in H0; injection H0 as <-.
        all: try (eexists; split;
                  [apply list_lookup_insert_eq; by eapply lookup_lt_Some|done]).
        all: rewrite (I1 _ _ Hth) in Hge by done; lia. }
      assert (Hold : (t', EvInit a) ∈ trace s →
                ∃ th p h pp tbl, threads s' !! t' = Some th ∧
                  (t', EvInsert (tfilepath th) p h pp tbl EmptyString) ∈ trace s' ∧
                  a = pluginLookup w h (cstring (pp +:+ ".init")) ∧ a ≠ 0%Z).
      { intros Hin0. destruct (I3 _ _ Hin0) as (th & p & h & pp & tbl & Hth0 & Hi0 & Ha).
        destruct (Hkeep _ Hth0 Hin0) as (th' & Hth' & Hfp).
        exists th', p, h, pp, tbl. split; [done|]. rewrite Hfp. split; [|done].
        step_inv H; simpl; by right. }
      step_inv H; cbn [trace upd goto goto_mu] in Hin.
      all: apply elem_of_cons in Hin as [Heq|Hin]; try discriminate; try (by apply Hold).
      injection Heq as -> ->.
      destruct (Ho _ _ _ _ _ _ Hth eq_refl) as (Hins & _).
      destruct (I4 _ _ _ _ _ _ _ Hth eq_refl) as [Ha Hnz].
      eexists _, p, h, pp, tbl. simpl. split.
      { apply list_lookup_insert_eq. by eapply lookup_lt_Some. }
      split; [by right|done].
    + intros t' th' h' pp' tbl' p' a' H' Hpc. step_inv H.
      all: cbn [threads upd goto goto_mu] in H'.
      all: thread_cases H' Hth; try (by apply (I4 _ _ _ _ _ _ _ H' Hpc)).
      all: simpl in Hpc; try done.
      injection Hpc as <- <- <- <- <-. done.
    + intros t' fp' p' h' pp' tbl' e' Hin. step_inv H.
      all: cbn [trace plugins upd goto goto_mu] in *.
      all: pose proof (Hmi _ _ Hth) as Hme; simpl in Hme.
      all: apply elem_of_cons in Hin as [Heq|Hin]; try discriminate; try (by eapply I5).
      all: try (injection Heq as -> -> -> -> -> -> ->; apply lookup_insert_eq).
      all: try (match goal with Heq : (_, _) = (_, _) |- _ => simplify_eq end;
                apply lookup_insert_eq).
      all: apply I5 in Hin; rewrite lookup_insert_ne; [done|].
      all: intros ->; rewrite Hme in Hin; done.
Qed.

(** X17: in every state of the process, a call of [open] has called an
    initializer at most once; a call that did had inserted the
    placeholder for its path, which the registry holds, and called the
    address the linker gave for [pp.init], which is not nil; and no two
    calls with the same canonical path have both called one. *)
Theorem initializer_once_per_path w s :
  reachable w s →
  (∀ t, inits_by t (trace s) ≤ 1) ∧
  (∀ t a, (t, EvInit a) ∈ trace s →
     ∃ th p h pp tbl, threads s !! t = Some th ∧
       (t, EvInsert (tfilepath th) p h pp tbl EmptyString) ∈ trace s ∧
       plugins s !! tfilepath th = Some p ∧
       a = pluginLookup w h (cstring (pp +:+ ".init")) ∧ a ≠ 0%Z) ∧
  (∀ t1 a1 th1 t2 a2 th2,
     (t1, EvInit a1) ∈ trace s → (t2, EvInit a2) ∈ trace s →
     threads s !! t1 = Some th1 → threads s !! t2 = Some th2 →
     tfilepath th1 = tfilepath th2 → t1 = t2).
Proof.
  intros Hr. destruct (init_inv_reachable _ _ Hr) as (I1 & I2 & I3 & I4 & I5).
  pose proof (reachable_Inv _ _ Hr) as Hi.
  split; [done|]. split.
  - intros t a Hin. destruct (I3 _ _ Hin) as (th & p & h & pp & tbl & Hth & Hins & Ha).
    exists th, p, h, pp, tbl. split; [done|]. split; [done|]. split; [by eapply I5|done].
  - intros t1 a1 th1 t2 a2 th2 H1 H2 T1 T2 Hfp.
    destruct (I3 _ _ H1) as (th1' & p1 & h1 & pp1 & tbl1 & Hth1 & Hins1 & _).
    destruct (I3 _ _ H2) as (th2' & p2 & h2 & pp2 & tbl2 & Hth2 & Hins2 & _).
    rewrite T1 in Hth1. injection Hth1 as <-. rewrite T2 in Hth2. injection Hth2 as <-.
    pose proof (I5 _ _ _ _ _ _ _ Hins1) as R1. pose proof (I5 _ _ _ _ _ _ _ Hins2) as R2.
    rewrite Hfp in R1. rewrite R1 in R2. injection R2 as <-.
    destruct (inv_event _ _ Hi) as [_ Hu].
    pose proof (Hu _ _ _ _ _ _ _ _ _ _ _ _ _ Hins1 Hins2) as Heq. by injection Heq.
Qed.

(** [open("math")] on the module with an initializer. *)
Lemma initializer_once_per_path_witness :
  let w := math_init_world in
  let s := open w "math" init_state in
  reachable w s ∧
  (0, EvInit 4206592) ∈ trace s ∧
  ∀ t, inits_by t (trace s) ≤ 1.
Proof.
  intros w s.
  assert (H0 : reachable w s) by (apply open_reachable; constructor).
  split; [exact H0|]. split; [vm_compute; repeat constructor|].
  exact (proj1 (initializer_once_per_path w s H0)).
Defined.

(** ** The registry and its records *)

Lemma reg_event_inv_reachable w s : reachable w s → reg_event_inv s.
Proof.
  revert s. apply reachable_ind'.
  - intros fp p H. done.
  - intros s name _ IH fp p H. simpl in *.
    destruct (IH _ _ H) as (t & h & pp & tbl & e & Hin).
    exists t, h, pp, tbl, e. by right.
  - intros s t s' _ IH H fp' p' H'.
    assert (Hold : plugins s !! fp' = Some p' →
              ∃ t h pp tbl e, (t, EvInsert fp' p' h pp tbl e) ∈ trace s').
    { intros H0. destruct (IH _ _ H0) as (t0 & h & pp & tbl & e & Hin).
      exists t0, h, pp, tbl, e. step_inv H; simpl; by right. }
    step_inv H; cbn [plugins trace upd goto goto_mu] in *; try (by apply Hold).
    all: destruct (decide (fp = fp')) as [->|Hne];
      [rewrite lookup_insert_eq in H'; injection H' as <-
      |rewrite lookup_insert_ne in H' by done; by apply Hold].
    all: eexists _, _, _, _, _; by left.
Qed.

Lemma materialize_lookup w h pp name tbl u m k v :
  materialize w h pp name tbl u = MOk m →
  m !! k = Some v →
  u !! k = Some v ∨
  ∃ e, e ∈ tbl ∧ sym_key e.1 = k ∧ v = materialized w h pp e.
Proof.
  revert u. induction tbl as [|[n x] rest IH]; intros u H Hk; simpl in H.
  - injection H as <-. by left.
  - destruct n as [|c r]; [discriminate|].
    case_bool_decide as Hp; [discriminate|].
    destruct (IH _ H Hk) as [Hu|(e & Hin & Hkey & Hv)].
    + destruct (decide (sym_key (String c r) = k)) as [<-|Hne].
      * rewrite lookup_insert_eq in Hu. injection Hu as <-.
        right. exists (String c r, x). split; [by left|]. split; [done|]. reflexivity.
      * rewrite lookup_insert_ne in Hu by done. by left.
    + right. exists e. split; [by right|done].
Qed.

(** X18: in every state of the process, every entry of the registry
    points at a record that is failed ([err] set, no channel, no
    symbols), or pending ([err] empty, channel open), or loaded ([err]
    empty, channel closed, the directory the result of a whole symbol
    loop); no two paths share a record; and every record is in the
    registry. *)
Theorem registry_and_records w s :
  reachable w s →
  (∀ fp p, plugins s !! fp = Some p →
     ∃ P, heap s !! p = Some P ∧
       ((err P ≠ EmptyString ∧ loaded P = ChNil ∧ syms P = ∅) ∨
        (err P = EmptyString ∧ loaded P = ChOpen) ∨
        (err P = EmptyString ∧ loaded P = ChClosed ∧
         ∃ h name tbl, materialize w h (pluginpath P) name tbl ∅ = MOk (syms P)))) ∧
  (∀ fp1 fp2 p, plugins s !! fp1 = Some p → plugins s !! fp2 = Some p → fp1 = fp2) ∧
  (∀ p P, heap s !! p = Some P → ∃ fp, plugins s !! fp = Some p).
Proof.
  intros Hr. pose proof (reachable_Inv _ _ Hr) as Hi.
  pose proof (reg_event_inv_reachable _ _ Hr) as Hre.
  destruct (init_inv_reachable _ _ Hr) as (_ & _ & _ & _ & I5).
  split; [|split].
  - intros fp p Hreg.
    destruct (lookup_lt_is_Some_2 _ _ (inv_reg _ _ Hi _ _ Hreg)) as [P HP].
    exists P. split; [done|].
    destruct (inv_record _ _ Hi _ _ HP) as (t & fp' & h & tbl & Hin & Hn & He & Hm).
    destruct (decide (err P = EmptyString)) as [Hz|Hnz].
    + specialize (He Hz). destruct (loaded P) eqn:Hl; [done| |].
      * right. left. done.
      * right. right. split; [done|]. split; [done|].
        destruct Hm as [[_ Hc]|[name Hmat]]; [done|]. eauto.
    + left. destruct (Hn Hnz). done.
  - intros fp1 fp2 p H1 H2.
    destruct (Hre _ _ H1) as (t1 & h1 & pp1 & tbl1 & e1 & Hin1).
    destruct (Hre _ _ H2) as (t2 & h2 & pp2 & tbl2 & e2 & Hin2).
    destruct (inv_event _ _ Hi) as [_ Hu].
    pose proof (Hu _ _ _ _ _ _ _ _ _ _ _ _ _ Hin1 Hin2) as Heq. by injection Heq.
  - intros p P HP.
    destruct (inv_record _ _ Hi _ _ HP) as (t & fp & h & tbl & Hin & _).
    exists fp. by eapply I5.
Qed.

(** After the first [open("math")]. *)
Lemma registry_and_records_witness :
  let w := math_world math_tbl in
  let s := open w "math" init_state in
  reachable w s ∧
  plugins s !! "C:\plugins\math" = Some 0 ∧
  ∀ fp1 fp2 p, plugins s !! fp1 = Some p → plugins s !! fp2 = Some p → fp1 = fp2.
Proof.
  intros w s.
  assert (H0 : reachable w s) by (apply open_reachable; constructor).
  split; [exact H0|]. split; [vm_compute; reflexivity|].
  exact (proj1 (proj2 (registry_and_records w s H0))).
Defined.

(** X19: [lookup] invents nothing.  In every state of the process, a
    symbol that [lookup] returns for a record is an export of the table
    the record was made for, stored under the name asked for: its type
    word is not nil, its data word is the address the linker resolved for
    it (or a cell holding it, for a function); and the record is not a
    failed one. *)
Theorem lookup_returns_an_export w s p P symName v :
  reachable w s →
  heap s !! p = Some P →
  lookup P symName = inl v →
  err P = EmptyString ∧ loaded P ≠ ChNil ∧
  ∃ t fp h tbl e,
    (t, EvInsert fp p h (pluginpath P) tbl EmptyString) ∈ trace s ∧
    e ∈ tbl ∧ sym_key e.1 = symName ∧ ityp e.2 ≠ 0%Z ∧
    resolves w h (pluginpath P) e.1 ∧
    v = materialized w h (pluginpath P) e.
Proof.
  intros Hr HP Hl. apply reachable_Inv in Hr.
  destruct (inv_record _ _ Hr _ _ HP) as (t & fp & h & tbl & Hin & Hn & He & Hm).
  unfold lookup in Hl. case_bool_decide as Hty; [|done]. injection Hl as <-.
  destruct (syms P !! symName) as [v|] eqn:Hs; simpl in *; [|done].
  assert (Hne : syms P ≠ ∅).
  { intros Hemp. rewrite Hemp, lookup_empty in Hs. done. }
  assert (Hz : err P = EmptyString).
  { destruct (decide (err P = EmptyString)) as [|Hnz]; [done|].
    destruct (Hn Hnz) as [_ ?]. done. }
  split; [done|]. split; [by apply He|].
  destruct Hm as [[Hemp _]|[name Hmat]]; [done|].
  destruct (materialize_lookup _ _ _ _ _ _ _ _ _ Hmat Hs) as [Hu|(e & Hine & Hkey & Hv)].
  { by rewrite lookup_empty in Hu. }
  rewrite Hz in Hin.
  exists t, fp, h, tbl, e. split; [done|]. split; [done|]. split; [done|].
  split; [by subst v|]. split; [|done].
  apply materialize_ok in Hmat as (_ & _ & Hall).
  destruct e as [n x]. by destruct (Hall n x Hine).
Qed.

(** [lookup(p, "Add")] after [open("math")]. *)
Lemma lookup_returns_an_export_witness :
  let w := math_world math_tbl in
  let s := open w "math" init_state in
  let v := {| ityp := 7; idata := DCell 4198400 |} in
  reachable w s ∧
  heap s !! 0 = Some math_loaded ∧
  lookup math_loaded "Add" = inl v ∧
  ∃ t fp h tbl e,
    (t, EvInsert fp 0 h (pluginpath math_loaded) tbl EmptyString) ∈ trace s ∧
    e ∈ tbl ∧ sym_key e.1 = "Add" ∧ ityp e.2 ≠ 0%Z ∧
    resolves w h (pluginpath math_loaded) e.1 ∧
    v = materialized w h (pluginpath math_loaded) e.
Proof.
  intros w s v.
  assert (H0 : reachable w s) by (apply open_reachable; constructor).
  assert (H1 : heap s !! 0 = Some math_loaded) by (vm_compute; reflexivity).
  assert (H2 : lookup math_loaded "Add" = inl v) by (vm_compute; reflexivity).
  split; [exact H0|]. split; [exact H1|]. split; [exact H2|].
  exact (proj2 (proj2 (lookup_returns_an_export w s 0 math_loaded "Add" v H0 H1 H2))).
Defined.

(** ** A placeholder its loading call left behind *)

Lemma closed_inv_reachable w s : reachable w s → closed_inv s.
Proof.
  intros Hr. pose proof Hr as Hr0. revert s Hr0 Hr.
  apply (reachable_ind' w (λ s, reachable w s → closed_inv s)).
  - intros _ t fp p h pp tbl P H. inversion H.
  - intros s name Hr IH _ t fp p h pp tbl P Hin HP Hc. simpl in *.
    apply elem_of_cons in Hin as [Heq|Hin]; [discriminate|].
    destruct (IH Hr _ _ _ _ _ _ _ Hin HP Hc) as (th & Hth & Hst).
    exists th. split; [by apply lookup_app_l_Some|done].
  - intros s t s' Hr IH H _ t' fp' p' h' pp' tbl' P' Hin HP' Hc. specialize (IH Hr).
    pose proof (reachable_Inv _ _ Hr) as Hi.
    pose proof (inv_owner _ _ Hi) as Ho.
    pose proof (inv_errstr _ _ Hi) as Herr.
    destruct (inv_event _ _ Hi) as [Hb Hu].
    step_inv H; cbn [trace heap threads upd goto goto_mu] in *.
    all: pose proof (λ h pp tbl p, Ho _ _ h pp tbl p Hth) as Hoe; simpl in Hoe.
    all: pose proof (λ pp e, Herr _ _ pp e Hth) as Hee; simpl in Hee.
    all: apply elem_of_cons in Hin as [Heq|Hin]; try discriminate.
    (* the insert of this step *)
    all: try (match goal with Heq : (_, _) = (_, _) |- _ => simplify_eq end).
    all: try (by specialize (Hee _ _ eq_refl)).
    all: try (rewrite lookup_snoc_here in HP'; injection HP' as <-; simpl in Hc;
              by destruct Hc).
    (* an insert of before *)
    all: pose proof (Hb _ _ _ _ _ _ _ Hin) as Hlt.
    all: try (rewrite lookup_app_l in HP' by done).
    all: try (destruct (IH _ _ _ _ _ _ _ Hin HP' Hc) as (th1 & H1 & Hst);
              destruct (decide (t' = t)) as [->|Hne];
              [rewrite Hth in H1; injection H1 as <-; simpl in Hst;
               destruct Hst as [Hst|Hst]; try discriminate
              |exists th1; split; [by rewrite list_lookup_insert_ne|done]]).
    all: try (injection Hst as <- <- <- <-;
              destruct (Hoe _ _ _ _ eq_refl) as (_ & P0 & HP0 & _ & _ & Hl & _);
              unfold ptr in *; congruence).
    (* the assignment of [p.syms] and the close *)
    all: destruct (Hoe _ _ _ _ eq_refl) as (Hown & P0 & HP0 & _ & _ & Hl & Hst0).
    all: destruct (decide (p' = p)) as [->|Hnp].
    all: try (pose proof (Hu _ _ _ _ _ _ _ _ _ _ _ _ _ Hin Hown) as Heq; simplify_eq;
              eexists; split; [apply list_lookup_insert_eq; by eapply lookup_lt_Some|];
              simpl; auto).
    all: rewrite list_lookup_insert_ne in HP' by done.
    all: destruct (IH _ _ _ _ _ _ _ Hin HP' Hc) as (th1 & H1 & Hst).
    all: destruct (decide (t' = t)) as [->|Hne];
         [rewrite Hth in H1; injection H1 as <-; simpl in Hst;
          destruct Hst as [Hst|Hst]; try discriminate
         |exists th1; split; [by rewrite list_lookup_insert_ne|done]].
    all: injection Hst as <- <- <- <-; done.
Qed.

Lemma exec_terminal w a s s' t th :
  threads s !! t = Some th → steps_left (tpc th) = 0 → exec w a s = Some s' →
  threads s' !! t = Some th.
Proof.
  intros Hth H0 H. destruct a as [name|t1]; simpl in H.
  - injection H as <-. simpl. by apply lookup_app_l_Some.
  - destruct (decide (t1 = t)) as [->|Hne].
    + by rewrite (steps_left_0 w t s th Hth H0) in H.
    + step_inv H; simpl; by rewrite list_lookup_insert_ne.
Qed.

Lemma exec_trace w a s s' x : exec w a s = Some s' → x ∈ trace s → x ∈ trace s'.
Proof.
  intros H Hin. destruct a as [name|t1]; simpl in H.
  - injection H as <-. by right.
  - step_inv H; simpl; by right.
Qed.

Lemma run_keeps_terminal w acts s s' t th x :
  threads s !! t = Some th → steps_left (tpc th) = 0 → x ∈ trace s →
  run w acts s = Some s' →
  threads s' !! t = Some th ∧ x ∈ trace s'.
Proof.
  revert s. induction acts as [|a acts IH]; intros s Hth H0 Hin H; simpl in H.
  - by injection H as <-.
  - destruct (exec w a s) as [s1|] eqn:E; simpl in H; [|done].
    eapply IH; [| |  |exact H]; eauto using exec_terminal, exec_trace.
Qed.

(** X20: when the call that inserted a placeholder has returned an error
    or has panicked (the symbol loop returns on line 286 without closing
    [p.loaded]), then in every continuation of the process the record is
    in the registry under its path, still pending and without symbols;
    no call on that path has returned a record; and every call that
    stands at [<-p.loaded] for it cannot move. *)
Theorem abandoned_record_is_never_loaded w s t0 th0 fp p h pp tbl acts s' :
  reachable w s →
  (t0, EvInsert fp p h pp tbl EmptyString) ∈ trace s →
  threads s !! t0 = Some th0 →
  (tpc th0 = PPanic ∨ ∃ msg, tpc th0 = PDone (Err msg)) →
  run w acts s = Some s' →
  (∃ P, heap s' !! p = Some P ∧ err P = EmptyString ∧ loaded P = ChOpen ∧ syms P = ∅) ∧
  plugins s' !! fp = Some p ∧
  (∀ t th p', threads s' !! t = Some th → tfilepath th = fp → tpc th ≠ PDone (Ok p')) ∧
  (∀ t th, threads s' !! t = Some th → tpc th = PWait p → open_step w t s' = None).
Proof.
  intros Hr Hin Hth0 Hpc Hrun.
  assert (H0 : steps_left (tpc th0) = 0).
  { destruct Hpc as [->|[msg ->]]; done. }
  destruct (run_keeps_terminal w acts s s' t0 th0 _ Hth0 H0 Hin Hrun) as [Hth' Hin'].
  pose proof (run_reachable_from _ _ _ _ Hr Hrun) as Hr'.
  clear Hr Hin Hth0 Hrun.
  pose proof (reachable_Inv _ _ Hr') as Hi.
  pose proof (closed_inv_reachable _ _ Hr') as Hcl.
  destruct (init_inv_reachable _ _ Hr') as (_ & _ & _ & _ & I5).
  destruct (inv_event _ _ Hi) as [Hb Hu].
  destruct (lookup_lt_is_Some_2 _ _ (Hb _ _ _ _ _ _ _ Hin')) as [P HP].
  assert (HPst : err P = EmptyString ∧ loaded P = ChOpen ∧ syms P = ∅).
  { destruct (inv_record _ _ Hi _ _ HP) as (t1 & fp1 & h1 & tbl1 & Hin1 & Hn & He & _).
    pose proof (Hu _ _ _ _ _ _ _ _ _ _ _ _ _ Hin1 Hin') as Heq.
    assert (Hz : err P = EmptyString) by (by injection Heq).
    split; [done|].
    assert (Hno : ¬ (loaded P = ChClosed ∨ syms P ≠ ∅)).
    { intros Hc. destruct (Hcl _ _ _ _ _ _ _ Hin' HP Hc) as (th & Hth & Hst).
      unfold tid in *. rewrite Hth' in Hth. injection Hth as <-.
      destruct Hpc as [Hp|[msg Hp]]; rewrite Hp in Hst; by destruct Hst. }
    split.
    - specialize (He Hz). destruct (loaded P); [done|done|]. exfalso. apply Hno. by left.
    - destruct (decide (syms P = ∅)) as [|Hne]; [done|]. exfalso. apply Hno. by right. }
  destruct HPst as (Hz & Hl & Hs).
  pose proof (I5 _ _ _ _ _ _ _ Hin') as Hreg.
  split; [by exists P|]. split; [done|]. split.
  - intros t th p' Hth Hfp Hd.
    pose proof (inv_held _ _ Hi _ _ p' Hth) as Hh. rewrite Hd in Hh. specialize (Hh eq_refl).
    rewrite Hfp, Hreg in Hh. injection Hh as <-.
    destruct (inv_done _ _ Hi _ _ _ Hth Hd) as (P' & HP' & Hc).
    unfold ptr in *. congruence.
  - intros t th Hth Hw. unfold open_step. rewrite Hth. simpl.
    unfold open_body. rewrite Hw. unfold ptr in *. rewrite HP. simpl.
    rewrite bool_decide_eq_false_2; [done|]. congruence.
Qed.

(** [open("math")] on an image that lacks [math.Pi], and a second call. *)
Lemma abandoned_record_is_never_loaded_witness :
  let w := partial_world in
  let s := open w "math" init_state in
  let th0 := {| tname := "math"; tfilepath := "C:\plugins\math";
                tpc := PDone (Err (could_not_find "math" "Pi")) |} in
  let s' := default s (run w second_call s) in
  reachable w s ∧
  (0, EvInsert "C:\plugins\math" 0 4194304 "math" math_tbl EmptyString) ∈ trace s ∧
  threads s !! 0 = Some th0 ∧
  run w second_call s = Some s' ∧
  pc_of s' 1 = Some (PWait 0) ∧
  open_step w 1 s' = None ∧
  plugins s' !! "C:\plugins\math" = Some 0.
Proof.
  intros w s th0 s'.
  assert (H0 : reachable w s) by (apply open_reachable; constructor).
  assert (H1 : (0, EvInsert "C:\plugins\math" 0 4194304 "math" math_tbl EmptyString) ∈ trace s).
  { vm_compute. repeat constructor. }
  assert (H2 : threads s !! 0 = Some th0) by (vm_compute; reflexivity).
  assert (H3 : tpc th0 = PPanic ∨ ∃ msg, tpc th0 = PDone (Err msg)) by (right; eexists; reflexivity).
  assert (H4 : run w second_call s = Some s') by (vm_compute; reflexivity).
  assert (H5 : threads s' !! 1 =
    Some {| tname := "math"; tfilepath := "C:\plugins\math"; tpc := PWait 0 |})
    by (vm_compute; reflexivity).
  pose proof (abandoned_record_is_never_loaded w s 0 th0 _ _ _ _ _ second_call s' H0 H1 H2 H3 H4)
    as (_ & R2 & _ & R4).
  split; [exact H0|]. split; [exact H1|]. split; [exact H2|]. split; [exact H4|].
  split; [vm_compute; reflexivity|]. split; [exact (R4 1 _ H5 eq_refl)|exact R2].
Defined.

(** ** The critical section *)

Lemma crit_step w t s th :
  threads s !! t = Some th → in_crit (tpc th) = true →
  ∃ s1, open_step w t s = Some s1 ∧
    ((pluginsMu s1 = None) ∨
     (∃ th1, threads s1 !! t = Some th1 ∧ in_crit (tpc th1) = true ∧
             crit_left (tpc th1) < crit_left (tpc th))).
Proof.
  intros Hth Hc. unfold open_step. rewrite Hth. simpl. unfold open_body.
  assert (Hlt : t < length (threads s)) by (by eapply lookup_lt_Some).
  destruct (tpc th) eqn:Hpc; simpl in Hc; try discriminate.
  all: repeat match goal with
       | |- context [match ?x with Some _ => _ | None => _ end] => destruct x
       | |- context [if bool_decide ?P then _ else _] => destruct (bool_decide P)
       | |- context [let '(_, _) := ?x in _] => destruct x as [[? ?] ?]
       end.
  all: eexists; (split; [reflexivity|]); simpl.
  all: try (by left).
  all: right; eexists; (split; [by apply list_lookup_insert_eq|]); simpl; split; [done|lia].
Qed.

Lemma crit_left_pos c : in_crit c = true → 1 ≤ crit_left c.
Proof. destruct c; simpl; intros; (done || lia). Qed.

Lemma crit_run w t m s th :
  reachable w s → threads s !! t = Some th → in_crit (tpc th) = true →
  crit_left (tpc th) ≤ m →
  ∃ n, 1 ≤ n ≤ m ∧ pluginsMu (run_alone w t n s) = None ∧
       ∀ k, k < n → pluginsMu (run_alone w t k s) = Some t.
Proof.
  revert s th. induction m as [|m IH]; intros s th Hr Hth Hc Hm.
  { apply crit_left_pos in Hc. lia. }
  assert (Hmu : pluginsMu s = Some t).
  { destruct (inv_mutex _ _ (reachable_Inv _ _ Hr)) as [Hx _]. by apply (Hx _ _ Hth). }
  destruct (crit_step w t s th Hth Hc) as (s1 & Hs1 & [Hfree|(th1 & Hth1 & Hc1 & Hlt)]).
  - exists 1. split; [lia|]. rewrite run_alone_S, Hs1. split; [done|].
    intros k Hk. by replace k with 0 by lia.
  - assert (Hr1 : reachable w s1) by (by apply (reach_exec w s (Run t))).
    destruct (IH s1 th1 Hr1 Hth1 Hc1) as (n & Hn & Hnone & Hheld); [lia|].
    exists (S n). split; [lia|]. rewrite run_alone_S, Hs1. split; [done|].
    intros [|k] Hk; [done|]. rewrite run_alone_S, Hs1. apply Hheld. lia.
Qed.

(** X21: no call waits while it holds [pluginsMu].  In every state of the
    process, when only the call that holds the mutex moves, the mutex is
    free after at least one and at most five of its steps, and is this
    call's until then. *)
Theorem mutex_released_within_five_steps w s t :
  reachable w s →
  pluginsMu s = Some t →
  ∃ n, 1 ≤ n ≤ 5 ∧ pluginsMu (run_alone w t n s) = None ∧
       ∀ k, k < n → pluginsMu (run_alone w t k s) = Some t.
Proof.
  intros Hr Hmu. destruct (inv_mutex _ _ (reachable_Inv _ _ Hr)) as [Hx Hlt].
  destruct (lookup_lt_is_Some_2 _ _ (Hlt _ Hmu)) as [th Hth].
  assert (Hc : in_crit (tpc th) = true) by (by apply (Hx _ _ Hth)).
  apply (crit_run w t 5 s th Hr Hth Hc). destruct (tpc th); simpl; lia.
Qed.

(** The first of two calls of [open("math")], at the native load. *)
Lemma mutex_released_within_five_steps_witness :
  let w := math_world math_tbl in
  let s := runs w second_at_lock in
  reachable w s ∧
  pluginsMu s = Some 0 ∧
  ∃ n, 1 ≤ n ≤ 5 ∧ pluginsMu (run_alone w 0 n s) = None ∧
       ∀ k, k < n → pluginsMu (run_alone w 0 k s) = Some 0.
Proof.
  intros w s.
  assert (H0 : reachable w s).
  { apply run_reachable with (acts := second_at_lock). vm_compute. reflexivity. }
  assert (H1 : pluginsMu s = Some 0) by (vm_compute; reflexivity).
  split; [exact H0|]. split; [exact H1|].
  exact (mutex_released_within_five_steps w s 0 H0 H1).
Defined.

(** X22: every step of a call records one event.  A step that reads or
    writes the map [plugins], or changes it, and every [Unlock], is a
    step of the call that holds [pluginsMu]; [Lock] takes the mutex only
    when it is free; [Unlock] frees it; and no other step changes who
    holds it. *)
Theorem map_access_under_lock w s t s' :
  reachable w s →
  open_step w t s = Some s' →
  ∃ e, trace s' = (t, e) :: trace s ∧
    (is_map_access e = true ∨ e = EvUnlock ∨ plugins s' ≠ plugins s →
       pluginsMu s = Some t) ∧
    (e = EvUnlock → pluginsMu s' = None) ∧
    (e = EvLock → pluginsMu s = None ∧ pluginsMu s' = Some t) ∧
    (e ≠ EvLock → e ≠ EvUnlock → pluginsMu s' = pluginsMu s).
Proof.
  intros Hr H. destruct (inv_mutex _ _ (reachable_Inv _ _ Hr)) as [Hx _].
  step_inv H; simpl.
  all: pose proof (Hx _ _ Hth) as Hme; simpl in Hme.
  all: eexists; (split; [reflexivity|]).
  all: split; [intros [Ha|[Ha|Ha]]; try done; by apply Hme|].
  all: split; [done|]; split; [done|]; done.
Qed.

(** The map lookup of the first [open("math")]. *)
Lemma map_access_under_lock_witness :
  let w := math_world math_tbl in
  let s := runs w [Call "math"; Run 0; Run 0] in
  let s' := default s (open_step w 0 s) in
  reachable w s ∧
  open_step w 0 s = Some s' ∧
  trace s' = (0, EvMapLookup "C:\plugins\math" None) :: trace s ∧
  pluginsMu s = Some 0.
Proof.
  intros w s s'.
  assert (H0 : reachable w s).
  { apply run_reachable with (acts := [Call "math"; Run 0; Run 0]). vm_compute. reflexivity. }
  assert (H1 : open_step w 0 s = Some s') by (vm_compute; reflexivity).
  assert (H2 : trace s' = (0, EvMapLookup "C:\plugins\math" None) :: trace s)
    by (vm_compute; reflexivity).
  destruct (map_access_under_lock w s 0 s' H0 H1) as (e & He & Hacc & _).
  split; [exact H0|]. split; [exact H1|]. split; [exact H2|].
  apply Hacc. left. rewrite H2 in He. injection He as <-. reflexivity.
Defined.

(** ** [versionOrdinal] *)

Lemma vo_index_nat vo (i : nat) : vo_index vo (Z.of_nat i) = vo !! i.
Proof. unfold vo_index. rewrite bool_decide_eq_true_2 by lia. by rewrite Nat2Z.id. Qed.

Lemma byte_add1_le c : bool_decide (byte_add1 c > maxByte)%Z = false.
Proof.
  apply bool_decide_eq_false_2. unfold byte_add1, maxByte.
  pose proof (Z.mod_pos_bound (c + 1) 256). lia.
Qed.

(** The digit [b] when a number is being read, its count byte at [j]. *)
Lemma versionOrdinal_step_digit vo (j : nat) b c :
  ¬ (48 > b)%Z → ¬ (b > 57)%Z → vo !! j = Some c →
  versionOrdinal_step (vo, Z.of_nat j) b =
    if bool_decide (c = 1%Z)
    then d ← vo !! (j + 1);
         if bool_decide (d = 48%Z) then Some (<[j + 1 := b]> vo, Z.of_nat j)
         else Some (<[j := byte_add1 c]> (vo ++ [b]), Z.of_nat j)
    else Some (<[j := byte_add1 c]> (vo ++ [b]), Z.of_nat j).
Proof.
  intros H48 H57 Hc. unfold versionOrdinal_step.
  rewrite (bool_decide_eq_false_2 (48 > b)%Z), (bool_decide_eq_false_2 (b > 57)%Z) by done.
  simpl. rewrite bool_decide_eq_false_2 by lia.
  replace (Z.of_nat j + 1)%Z with (Z.of_nat (j + 1)) by lia.
  rewrite !vo_index_nat, !Nat2Z.id, Hc. simpl. rewrite byte_add1_le.
  rewrite (lookup_app_l_Some _ _ _ _ Hc). simpl.
  case_bool_decide; [|done].
  destruct (vo !! (j + 1)) as [d|]; simpl; [|done].
  by case_bool_decide.
Qed.

(** The digit [b] that begins a number. *)
Lemma versionOrdinal_step_first vo b :
  ¬ (48 > b)%Z → ¬ (b > 57)%Z →
  versionOrdinal_step (vo, (-1)%Z) b = Some (vo ++ [1%Z; b], Z.of_nat (length vo)).
Proof.
  intros H48 H57. unfold versionOrdinal_step.
  rewrite (bool_decide_eq_false_2 (48 > b)%Z), (bool_decide_eq_false_2 (b > 57)%Z) by done.
  simpl. rewrite length_app. simpl.
  replace (Z.of_nat (length vo + 1) - 1)%Z with (Z.of_nat (length vo)) by lia.
  rewrite !vo_index_nat, (list_lookup_middle vo [] 0%Z _ eq_refl). simpl.
  rewrite ?(bool_decide_eq_false_2 (0 = 1)%Z) by done; simpl.
  rewrite ?byte_add1_le.
  rewrite (lookup_app_l_Some _ _ _ 0%Z) by apply (list_lookup_middle vo [] 0%Z _ eq_refl).
  simpl. rewrite Nat2Z.id. f_equal. f_equal.
  rewrite <- (assoc_L (++)). simpl. change (byte_add1 0) with 1%Z.
  rewrite insert_app_r_alt by lia. by rewrite Nat.sub_diag.
Qed.

Lemma versionOrdinal_step_other vo j b :
  (48 > b)%Z ∨ (b > 57)%Z →
  versionOrdinal_step (vo, j) b = Some (vo ++ [b], (-1)%Z).
Proof.
  intros H. unfold versionOrdinal_step.
  destruct (bool_decide_reflect (48 > b)%Z); [done|].
  rewrite bool_decide_eq_true_2; [done|]. by destruct H.
Qed.

Lemma versionOrdinal_step_ok st b :
  vo_ok st →
  ∃ st', versionOrdinal_step st b = Some st' ∧ vo_ok st' ∧
         length st'.1 ≤ length st.1 + 2.
Proof.
  destruct st as [vo j]. intros Hok.
  destruct (decide ((48 > b)%Z ∨ (b > 57)%Z)) as [Hd|Hd].
  { rewrite versionOrdinal_step_other by done.
    eexists. split; [done|]. split; [by left|]. simpl. rewrite length_app. simpl. lia. }
  assert (H48 : ¬ (48 > b)%Z) by tauto. assert (H57 : ¬ (b > 57)%Z) by tauto.
  destruct Hok as [Hok|(H0 & Hlt & Hnext)]; cbn [fst snd] in *.
  - subst j. rewrite versionOrdinal_step_first by done.
    eexists. split; [done|]. split.
    + right. simpl. rewrite length_app. simpl. lia.
    + simpl. rewrite length_app. simpl. lia.
  - rewrite <- (Z2Nat.id j) by done.
    destruct (vo !! Z.to_nat j) as [c|] eqn:Hc; [|by apply lookup_ge_None in Hc; lia].
    rewrite (versionOrdinal_step_digit vo _ b c) by done.
    assert (Happ : vo_ok (<[Z.to_nat j:=byte_add1 c]> (vo ++ [b]), Z.of_nat (Z.to_nat j)) ∧
                   length (<[Z.to_nat j:=byte_add1 c]> (vo ++ [b])) ≤ length vo + 2).
    { rewrite length_insert, length_app. simpl. split; [|lia].
      right. simpl. rewrite length_insert, length_app. simpl. lia. }
    case_bool_decide as Hc1; [|eexists; split; [done|]; exact Happ].
    assert (Hn : Z.to_nat j + 1 < length vo).
    { destruct Hnext as [|Hz]; [done|]. congruence. }
    destruct (vo !! (Z.to_nat j + 1)) as [d|] eqn:Hd1;
      [|by apply lookup_ge_None in Hd1; lia].
    simpl. case_bool_decide; [|eexists; split; [done|]; exact Happ].
    eexists. split; [done|]. cbn [fst snd]. rewrite length_insert. split; [|lia].
    right. cbn [fst snd]. rewrite length_insert. lia.
Qed.

Lemma versionOrdinal_loop_ok version st :
  vo_ok st →
  ∃ st', versionOrdinal_loop version st = Some st' ∧ vo_ok st' ∧
         length st'.1 ≤ length st.1 + 2 * length version.
Proof.
  revert st. induction version as [|b rest IH]; intros st Hok; simpl.
  - exists st. split; [done|]. split; [done|lia].
  - destruct (versionOrdinal_step_ok st b Hok) as (st1 & -> & Hok1 & Hl1). simpl.
    destruct (IH st1 Hok1) as (st2 & -> & Hok2 & Hl2).
    exists st2. split; [done|]. split; [done|lia].
Qed.

(** X23: [versionOrdinal] returns for every string: neither the
    [panic] of line 57 nor an index out of range is reached ([vo[j]+1]
    is arithmetic on [byte], so it is never above [maxByte]).  The
    result has at most twice the bytes of the version. *)
Theorem versionOrdinal_never_panics version :
  ∃ vo, versionOrdinal version = Some vo ∧ length vo ≤ 2 * length version.
Proof.
  destruct (versionOrdinal_loop_ok version ([], (-1)%Z)) as (st & Hst & _ & Hl); [by left|].
  exists st.1. unfold versionOrdinal. rewrite Hst. split; [done|]. simpl in Hl. lia.
Qed.

Lemma numeral_loop r p c0 :
  c0 ≠ 48%Z → (∀ b, b ∈ r → is_digit b) →
  versionOrdinal_loop r ((Z.of_nat (length (c0 :: p)) mod 256)%Z :: c0 :: p, 0%Z) =
  Some ((Z.of_nat (length (c0 :: p ++ r)) mod 256)%Z :: c0 :: p ++ r, 0%Z).
Proof.
  intros Hc0. revert p. induction r as [|b r IH]; intros p Hd.
  - by rewrite app_nil_r.
  - assert (Hb : is_digit b) by (apply Hd; by left). unfold is_digit in Hb.
    cbn [versionOrdinal_loop].
    change 0%Z with (Z.of_nat 0).
    rewrite (versionOrdinal_step_digit _ 0 b (Z.of_nat (length (c0 :: p)) mod 256)%Z)
      by (done || lia).
    assert (Hnext : byte_add1 (Z.of_nat (length (c0 :: p)) mod 256) =
                    (Z.of_nat (length (c0 :: p ++ [b])) mod 256)%Z).
    { unfold byte_add1. rewrite Zplus_mod_idemp_l. f_equal.
      simpl. rewrite length_app. simpl. lia. }
    assert (Hgo : (if bool_decide (Z.of_nat (length (c0 :: p)) mod 256 = 1)%Z
       then d ← ((Z.of_nat (length (c0 :: p)) mod 256)%Z :: c0 :: p) !! (0 + 1);
            if bool_decide (d = 48%Z)
            then Some (<[0 + 1 := b]> ((Z.of_nat (length (c0 :: p)) mod 256)%Z :: c0 :: p),
                       Z.of_nat 0)
            else Some (<[0 := byte_add1 (Z.of_nat (length (c0 :: p)) mod 256)]>
                         (((Z.of_nat (length (c0 :: p)) mod 256)%Z :: c0 :: p) ++ [b]),
                       Z.of_nat 0)
       else Some (<[0 := byte_add1 (Z.of_nat (length (c0 :: p)) mod 256)]>
                    (((Z.of_nat (length (c0 :: p)) mod 256)%Z :: c0 :: p) ++ [b]),
                  Z.of_nat 0)) =
      Some ((Z.of_nat (length (c0 :: p ++ [b])) mod 256)%Z :: c0 :: p ++ [b], Z.of_nat 0)).
    { rewrite Hnext. case_bool_decide; [|done]. simpl.
      by rewrite bool_decide_eq_false_2. }
    rewrite Hgo. cbn [mbind option_bind]. change (Z.of_nat 0) with 0%Z.
    rewrite (IH (p ++ [b])) by (intros b' Hin; apply Hd; by right).
    by rewrite <- (assoc_L (++)).
Qed.

(** X24: [versionOrdinal] on a number.  For a string of digits that does
    not begin with ['0'], the result is the length of the string as one
    byte (modulo 256) followed by the digits; ["0"] gives the byte [1]
    and ['0']; and a ['0'] before another digit is dropped. *)
Theorem versionOrdinal_numeral c0 r :
  (∀ b, b ∈ c0 :: r → is_digit b) →
  (c0 ≠ 48%Z →
     versionOrdinal (c0 :: r) = Some ((Z.of_nat (length (c0 :: r)) mod 256)%Z :: c0 :: r)) ∧
  (c0 = 48%Z → r = [] → versionOrdinal (c0 :: r) = Some [1%Z; 48%Z]) ∧
  (c0 = 48%Z → r ≠ [] → versionOrdinal (c0 :: r) = versionOrdinal r).
Proof.
  intros Hd.
  assert (H0 : is_digit c0) by (apply Hd; by left). unfold is_digit in H0.
  split; [|split].
  - intros Hc0. unfold versionOrdinal. cbn [versionOrdinal_loop].
    rewrite versionOrdinal_step_first by lia. cbn [mbind option_bind].
    match goal with
    | |- fst <$> ?x = _ =>
        change x with (versionOrdinal_loop r
          ((Z.of_nat (length (c0 :: [])) mod 256)%Z :: c0 :: [], 0%Z))
    end.
    rewrite numeral_loop; [done|done|]. intros b Hb. apply Hd. by right.
  - intros -> ->. done.
  - intros -> Hr. destruct r as [|b r]; [done|].
    assert (Hb : is_digit b) by (apply Hd; right; by left). unfold is_digit in Hb.
    unfold versionOrdinal. cbn [versionOrdinal_loop].
    rewrite !versionOrdinal_step_first by lia. cbn [mbind option_bind].
    change (Z.of_nat (length [])) with (Z.of_nat 0).
    rewrite (versionOrdinal_step_digit _ 0 b 1%Z) by (done || lia).
    simpl. done.
Qed.

(** The version ["10"]. *)
Lemma versionOrdinal_numeral_witness :
  (∀ b, b ∈ [49%Z; 48%Z] → is_digit b) ∧
  versionOrdinal [49%Z; 48%Z] = Some [2%Z; 49%Z; 48%Z].
Proof.
  assert (H : ∀ b, b ∈ [49%Z; 48%Z] → is_digit b).
  { intros b Hb. unfold is_digit.
    repeat (apply elem_of_cons in Hb as [->|Hb]; [lia|]). inversion Hb. }
  assert (H1 : 49%Z ≠ 48%Z) by discriminate.
  split; [exact H|].
  exact (proj1 (versionOrdinal_numeral 49 [48%Z] H) H1).
Defined.

Lemma versionOrdinal_loop_app s1 s2 st :
  versionOrdinal_loop (s1 ++ s2) st =
  versionOrdinal_loop s1 st ≫= versionOrdinal_loop s2.
Proof.
  revert st. induction s1 as [|b s1 IH]; intros st; simpl; [done|].
  destruct (versionOrdinal_step st b) as [st1|]; simpl; [apply IH|done].
Qed.

Lemma vo_shift_ok pre st : vo_ok st → vo_ok (vo_shift pre st).
Proof.
  destruct st as [vo j]. unfold vo_ok, vo_shift. cbn [fst snd].
  intros [->|(H0 & Hlt & Hn)]; [by left|right].
  rewrite bool_decide_eq_false_2 by lia. rewrite length_app.
  replace (Z.to_nat (j + Z.of_nat (length pre))) with (length pre + Z.to_nat j) by lia.
  split; [lia|]. split; [lia|].
  destruct Hn as [Hn|Hn]; [left; lia|right].
  by rewrite lookup_app_r, Nat.add_comm, Nat.add_sub by lia.
Qed.

Lemma versionOrdinal_step_shift pre st b :
  vo_ok st →
  versionOrdinal_step (vo_shift pre st) b = vo_shift pre <$> versionOrdinal_step st b.
Proof.
  destruct st as [vo j]. intros Hok.
  destruct (decide ((48 > b)%Z ∨ (b > 57)%Z)) as [Hd|Hd].
  { unfold vo_shift at 1. cbn [fst snd]. rewrite !versionOrdinal_step_other by done.
    simpl. unfold vo_shift. simpl. by rewrite (assoc_L (++)). }
  assert (H48 : ¬ (48 > b)%Z) by tauto. assert (H57 : ¬ (b > 57)%Z) by tauto.
  destruct Hok as [Hok|(H0 & Hlt & Hnext)]; cbn [fst snd] in *.
  - subst j. unfold vo_shift at 1. cbn [fst snd].
    rewrite bool_decide_eq_true_2 by done.
    rewrite !versionOrdinal_step_first by done. simpl. unfold vo_shift. cbn [fst snd].
    rewrite bool_decide_eq_false_2 by lia. rewrite length_app, (assoc_L (++)).
    f_equal. f_equal. lia.
  - unfold vo_shift at 1. cbn [fst snd]. rewrite bool_decide_eq_false_2 by lia.
    destruct (vo !! Z.to_nat j) as [c|] eqn:Hc; [|by apply lookup_ge_None in Hc; lia].
    replace (j + Z.of_nat (length pre))%Z with (Z.of_nat (length pre + Z.to_nat j)) by lia.
    rewrite <- (Z2Nat.id j) at 2 by done.
    rewrite (versionOrdinal_step_digit (pre ++ vo) _ b c)
      by (done || by rewrite lookup_app_r, Nat.add_comm, Nat.add_sub by lia).
    rewrite (versionOrdinal_step_digit vo _ b c) by done.
    assert (Happ : <[length pre + Z.to_nat j := byte_add1 c]> ((pre ++ vo) ++ [b]) =
                   pre ++ <[Z.to_nat j := byte_add1 c]> (vo ++ [b])).
    { by rewrite <- (assoc_L (++)), insert_app_r. }
    assert (Hsh : ∀ v, vo_shift pre (v, Z.of_nat (Z.to_nat j)) =
                       (pre ++ v, Z.of_nat (length pre + Z.to_nat j))).
    { intros v. unfold vo_shift. cbn [fst snd]. rewrite bool_decide_eq_false_2 by lia.
      f_equal. lia. }
    case_bool_decide as Hc1; [|by rewrite Happ; simpl; rewrite Hsh].
    rewrite <- Nat.add_assoc.
    rewrite lookup_app_r, Nat.add_comm, Nat.add_sub by lia.
    rewrite (Nat.add_comm (Z.to_nat j + 1)).
    destruct (vo !! (Z.to_nat j + 1)) as [d|]; simpl; [|done].
    case_bool_decide; simpl; rewrite Hsh; [|by rewrite Happ].
    by rewrite insert_app_r.
Qed.

Lemma versionOrdinal_loop_shift pre version st :
  vo_ok st →
  versionOrdinal_loop version (vo_shift pre st) =
  vo_shift pre <$> versionOrdinal_loop version st.
Proof.
  revert st. induction version as [|b rest IH]; intros st Hok;
    cbn [versionOrdinal_loop]; [done|].
  rewrite versionOrdinal_step_shift by done.
  destruct (versionOrdinal_step_ok st b Hok) as (st1 & -> & Hok1 & _).
  cbn [fmap option_fmap option_map mbind option_bind].
  by apply IH.
Qed.

(** X25: [versionOrdinal] copies a byte that is not a digit, and the
    parts before and after it are converted each on its own. *)
Theorem versionOrdinal_separator s1 b s2 :
  (48 > b)%Z ∨ (b > 57)%Z →
  ∃ v1 v2, versionOrdinal s1 = Some v1 ∧ versionOrdinal s2 = Some v2 ∧
           versionOrdinal (s1 ++ b :: s2) = Some (v1 ++ b :: v2).
Proof.
  intros Hb.
  destruct (versionOrdinal_loop_ok s1 ([], (-1)%Z)) as ([v1 j1] & H1 & _ & _); [by left|].
  destruct (versionOrdinal_loop_ok s2 ([], (-1)%Z)) as ([v2 j2] & H2 & _ & _); [by left|].
  exists v1, v2. unfold versionOrdinal. rewrite H1, H2. split; [done|]. split; [done|].
  rewrite versionOrdinal_loop_app, H1. cbn [mbind option_bind versionOrdinal_loop].
  rewrite versionOrdinal_step_other by done. cbn [mbind option_bind].
  assert (E : (v1 ++ [b], (-1)%Z) = vo_shift (v1 ++ [b]) ([], (-1)%Z)).
  { unfold vo_shift. cbn [fst snd]. by rewrite app_nil_r. }
  rewrite E, versionOrdinal_loop_shift by (by left). rewrite H2. simpl.
  by rewrite <- (assoc_L (++)).
Qed.

(** The version ["10.0"]. *)
Lemma versionOrdinal_separator_witness :
  ((48 > 46)%Z ∨ (46 > 57)%Z) ∧
  ∃ v1 v2, versionOrdinal [49%Z; 48%Z] = Some v1 ∧ versionOrdinal [48%Z] = Some v2 ∧
           versionOrdinal ([49%Z; 48%Z] ++ 46%Z :: [48%Z]) = Some (v1 ++ 46%Z :: v2).
Proof.
  assert (H : (48 > 46)%Z ∨ (46 > 57)%Z) by (left; lia).
  split; [exact H|].
  exact (versionOrdinal_separator [49%Z; 48%Z] 46 [48%Z] H).
Defined.

(** ** [compareVersion] and the choice of [getWindowsSDK] *)

Lemma bytes_gt_asym a b : bytes_gt a b = true → bytes_gt b a = false.
Proof.
  revert b. induction a as [|x a IH]; intros [|y b] H; simpl in *; try done.
  repeat case_bool_decide; try done; try lia. by apply IH.
Qed.

Lemma bytes_le_trans a b c :
  bytes_gt a b = false → bytes_gt b c = false → bytes_gt a c = false.
Proof.
  revert b c. induction a as [|x a IH]; intros [|y b] [|z c] H1 H2; simpl in *; try done.
  repeat case_bool_decide; try done; try lia. by eapply IH.
Qed.

Lemma bytes_le_refl a : bytes_gt a a = false.
Proof.
  induction a as [|x a IH]; simpl; [done|].
  repeat case_bool_decide; try done; lia.
Qed.

Lemma versionOrdinal_total v : ∃ k, versionOrdinal v = Some k.
Proof.
  destruct (versionOrdinal_loop_ok v ([], (-1)%Z)) as (st & Hst & _); [by left|].
  exists st.1. unfold versionOrdinal. by rewrite Hst.
Qed.

Lemma compareVersion_key TrimSpace v1 v2 :
  ∃ k1 k2, version_key TrimSpace v1 = Some k1 ∧ version_key TrimSpace v2 = Some k2 ∧
           compareVersion TrimSpace v1 v2 = Some (if bytes_gt k1 k2 then (-1)%Z else 1%Z).
Proof.
  unfold version_key, compareVersion.
  destruct (versionOrdinal_total (TrimSpace (TrimPrefix v1 [118%Z]))) as (k1 & ->).
  destruct (versionOrdinal_total (TrimSpace (TrimPrefix v2 [118%Z]))) as (k2 & ->).
  exists k1, k2. simpl. by destruct (bytes_gt k1 k2).
Qed.

Lemma largestVersion_loop_max TrimSpace versions largestVersion seen kl :
  largestVersion ≠ [] → largestVersion ∈ seen →
  version_key TrimSpace largestVersion = Some kl →
  (∀ v, v ∈ seen → ∃ kv, version_key TrimSpace v = Some kv ∧ bytes_gt kv kl = false) →
  [] ∉ versions →
  ∃ r kr, largestVersion_loop TrimSpace versions largestVersion = Some r ∧
    r ∈ seen ++ versions ∧ version_key TrimSpace r = Some kr ∧
    ∀ v, v ∈ seen ++ versions →
      ∃ kv, version_key TrimSpace v = Some kv ∧ bytes_gt kv kr = false.
Proof.
  revert largestVersion seen kl.
  induction versions as [|version rest IH]; intros l seen kl Hne Hin Hkl Hmax Hnil.
  - exists l, kl. simpl. rewrite app_nil_r. done.
  - cbn [largestVersion_loop]. rewrite bool_decide_eq_false_2 by done.
    destruct (compareVersion_key TrimSpace l version) as (k1 & k2 & H1 & H2 & ->).
    rewrite Hkl in H1. injection H1 as <-. cbn [mbind option_bind].
    assert (Hv : version ≠ []) by (intros ->; apply Hnil; by left).
    assert (Hrest : [] ∉ rest) by (intros H; apply Hnil; by right).
    replace (seen ++ version :: rest) with ((seen ++ [version]) ++ rest)
      by (by rewrite <- (assoc_L (++))).
    destruct (bytes_gt kl k2) eqn:Hgt.
    + rewrite bool_decide_eq_false_2 by done.
      apply (IH l (seen ++ [version]) kl); try done.
      * apply elem_of_app. by left.
      * intros v Hv'. apply elem_of_app in Hv' as [Hv'|Hv']; [by apply Hmax|].
        apply list_elem_of_singleton in Hv' as ->. exists k2. split; [done|].
        by apply bytes_gt_asym.
    + rewrite bool_decide_eq_true_2 by done.
      apply (IH version (seen ++ [version]) k2); try done.
      * apply elem_of_app. right. by apply list_elem_of_singleton.
      * intros v Hv'. apply elem_of_app in Hv' as [Hv'|Hv'].
        -- destruct (Hmax v Hv') as (kv & Hkv & Hle). exists kv. split; [done|].
           by eapply bytes_le_trans.
        -- apply list_elem_of_singleton in Hv' as ->. exists k2. split; [done|].
           apply bytes_le_refl.
Qed.

(** X26: the version [getWindowsSDK] picks among the keys of [sdkDirs],
    none of them empty, in whatever order the range visits them: it is
    one of the keys, and no key has a greater ordinal (the key without a
    leading ["v"], trimmed, through [versionOrdinal]): [compareVersion]
    of any key with the one picked is [1]. *)
Theorem getWindowsSDK_picks_largest TrimSpace version rest :
  [] ∉ (version :: rest) →
  ∃ r kr, largestVersion_loop TrimSpace (version :: rest) [] = Some r ∧
    r ∈ version :: rest ∧ version_key TrimSpace r = Some kr ∧
    ∀ v, v ∈ version :: rest →
      ∃ kv, version_key TrimSpace v = Some kv ∧ bytes_gt kv kr = false ∧
            compareVersion TrimSpace v r = Some 1%Z.
Proof.
  intros Hnil. cbn [largestVersion_loop]. rewrite bool_decide_eq_true_2 by done.
  assert (Hv : version ≠ []) by (intros ->; apply Hnil; by left).
  assert (Hrest : [] ∉ rest) by (intros H; apply Hnil; by right).
  destruct (versionOrdinal_total (TrimSpace (TrimPrefix version [118%Z]))) as (k & Hk).
  destruct (largestVersion_loop_max TrimSpace rest version [version] k)
    as (r & kr & Hr & Hin & Hkr & Hmax); try done.
  { by apply list_elem_of_singleton. }
  { intros v Hv'. apply list_elem_of_singleton in Hv' as ->. exists k. split; [done|].
    apply bytes_le_refl. }
  exists r, kr. split; [done|]. split; [done|]. split; [done|].
  intros v Hv'. destruct (Hmax v Hv') as (kv & Hkv & Hle). exists kv.
  split; [done|]. split; [done|].
  destruct (compareVersion_key TrimSpace v r) as (k1 & k2 & H1 & H2 & ->).
  rewrite Hkv in H1. rewrite Hkr in H2. injection H1 as <-. injection H2 as <-.
  by rewrite Hle.
Qed.

(** The keys ["v8.1"] and ["v10.0"], in both orders. *)
Lemma getWindowsSDK_picks_largest_witness :
  let TrimSpace := λ s : list Z, s in
  let v81 := [118; 56; 46; 49]%Z in
  let v10 := [118; 49; 48; 46; 48]%Z in
  ([] ∉ [v81; v10]) ∧
  (∃ r kr, largestVersion_loop TrimSpace [v81; v10] [] = Some r ∧
     r ∈ [v81; v10] ∧ version_key TrimSpace r = Some kr ∧
     ∀ v, v ∈ [v81; v10] →
       ∃ kv, version_key TrimSpace v = Some kv ∧ bytes_gt kv kr = false ∧
             compareVersion TrimSpace v r = Some 1%Z) ∧
  largestVersion_loop TrimSpace [v81; v10] [] = Some v10 ∧
  largestVersion_loop TrimSpace [v10; v81] [] = Some v10.
Proof.
  intros TrimSpace v81 v10.
  assert (H : [] ∉ [v81; v10]).
  { intros Hin. repeat (apply elem_of_cons in Hin as [Hin|Hin]; [discriminate|]).
    inversion Hin. }
  split; [exact H|].
  split; [exact (getWindowsSDK_picks_largest TrimSpace v81 [v10] H)|].
  split; vm_compute; reflexivity.
Defined.

(** ** The caches of [MSVCEnvironment] *)

(** X27: [LocateLibPaths] answers from its cache whenever the cache
    holds more than one path, whatever [arch] is asked for.  The first
    call on an environment whose cache holds at most one path returns
    the two library directories of [rootPath] for its [arch] and stores
    them; every later call returns those two, for any [arch]. *)
Theorem LocateLibPaths_keeps_first_arch msvc arch :
  length (libpath msvc) ≤ 1 →
  let r := [rootPath msvc +:+ "\ATLMFC\lib\" +:+ arch; rootPath msvc +:+ "\lib\" +:+ arch] in
  (LocateLibPaths msvc arch).1 = r ∧
  libpath (LocateLibPaths msvc arch).2 = r ∧
  rootPath (LocateLibPaths msvc arch).2 = rootPath msvc ∧
  ∀ arch2, LocateLibPaths (LocateLibPaths msvc arch).2 arch2 =
           (r, (LocateLibPaths msvc arch).2).
Proof.
  intros Hl r. unfold LocateLibPaths at 1 2 3 5.
  rewrite bool_decide_eq_false_2 by lia. simpl.
  split; [done|]. split; [done|]. split; [done|].
  intros arch2. unfold LocateLibPaths. simpl.
  rewrite bool_decide_eq_false_2 by lia. simpl. done.
Qed.

(** [LocateLibPaths("x64")], then [LocateLibPaths("x86")]. *)
Lemma LocateLibPaths_keeps_first_arch_witness :
  length (libpath vc_env) ≤ 1 ∧
  (LocateLibPaths vc_env "x64").1 = ["C:\VC\ATLMFC\lib\x64"; "C:\VC\lib\x64"] ∧
  (LocateLibPaths (LocateLibPaths vc_env "x64").2 "x86").1 =
    ["C:\VC\ATLMFC\lib\x64"; "C:\VC\lib\x64"].
Proof.
  assert (H : length (libpath vc_env) ≤ 1) by (simpl; lia).
  pose proof (LocateLibPaths_keeps_first_arch vc_env "x64" H) as (R1 & _ & _ & R4).
  split; [exact H|]. split; [exact R1|].
  exact (f_equal fst (R4 "x86")).
Defined.

(** X28: [GetMSVCCommand] on an environment whose map is not nil returns
    the entry of the map for the trimmed command when there is one;
    otherwise the trimmed command itself when [os.Stat] finds it, and
    [executablePath\command] when not.  It stores what it returns under
    the trimmed command and leaves the other entries; every later call
    for a command with the same trimmed text returns the same answer,
    whatever [os.Stat] says then, and changes nothing. *)
Theorem GetMSVCCommand_caches trim stat_fails msvc command m :
  commands msvc = Some m →
  ∃ r msvc',
    GetMSVCCommand trim stat_fails msvc command = Some (r, msvc') ∧
    (r = default (if stat_fails (trim command)
                  then executablePath msvc +:+ "\" +:+ trim command
                  else trim command) (m !! trim command)) ∧
    executablePath msvc' = executablePath msvc ∧
    (∃ m', commands msvc' = Some m' ∧ m' !! trim command = Some r ∧
           ∀ k, k ≠ trim command → m' !! k = m !! k) ∧
    ∀ stat_fails2 command2, trim command2 = trim command →
      GetMSVCCommand trim stat_fails2 msvc' command2 = Some (r, msvc').
Proof.
  intros Hm. unfold GetMSVCCommand at 1. rewrite Hm. simpl.
  destruct (m !! trim command) as [cmd|] eqn:Hk; simpl.
  - exists cmd, msvc. split; [done|]. split; [done|]. split; [done|]. split.
    + exists m. done.
    + intros st2 c2 Heq. unfold GetMSVCCommand. rewrite Hm, Heq. simpl. by rewrite Hk.
  - destruct (stat_fails (trim command)); eexists _, _; (split; [done|]);
      (split; [done|]); (split; [done|]); split.
    all: try (eexists; split; [done|]; split; [apply lookup_insert_eq|];
              intros k Hne; by rewrite lookup_insert_ne).
    all: intros st2 c2 Heq; unfold GetMSVCCommand; simpl; rewrite Heq, lookup_insert_eq; done.
Qed.

(** [GetMSVCCommand("link.exe")] when the file is not found, and again
    when it is. *)
Lemma GetMSVCCommand_caches_witness :
  let trim := λ s : string, s in
  commands vc_env = Some ∅ ∧
  ∃ msvc',
    GetMSVCCommand trim (λ _, true) vc_env "link.exe" = Some ("C:\VC\bin\link.exe", msvc') ∧
    GetMSVCCommand trim (λ _, false) msvc' "link.exe" = Some ("C:\VC\bin\link.exe", msvc').
Proof.
  intros trim.
  assert (H : commands vc_env = Some ∅) by reflexivity.
  split; [exact H|].
  destruct (GetMSVCCommand_caches trim (λ _, true) vc_env "link.exe" ∅ H)
    as (r & msvc' & R1 & R2 & _ & _ & R5).
  exists msvc'. rewrite R2 in R1, R5. split; [exact R1|].
  exact (R5 (λ _, false) "link.exe" eq_refl).
Defined.
